(** * The toy M:N scheduler (G / P / M), embedded from the Go sources

    The development follows the last iteration of the scheduler (the file
    with the cooldown marker [parkTime], the central pool [availPs] and the
    overflow threshold 5).  Goroutines are modelled as threads with a
    program counter over a shared store; every transition below is one
    synchronisation operation of the Go source (mutex, channel, clock,
    call of the work routine) together with the statements on the
    goroutine's own data that surround it.  Where a P changes hands the
    two statements involved are two transitions: the send to the pool and
    [m.P = nil], the receive from the pool and [m.P = p].  A call made by
    [main] ([NewG], [Enqueue], [AddP], [AddM], [close]) is one transition;
    the local branch of [Enqueue], which takes no lock, is given statement
    by statement as well ([Enqueue_append], [Enqueue_count],
    [Enqueue_mark]).  Running one thread alone until [scheduleOnce] returns
    gives the sequential reading of the method.

    The earlier iteration in which [Schedule] is a plain method call
    (toysched/step3) is embedded separately in [Module Step3]. *)

From Stdlib Require Import ZArith String List Lia.
From stdpp Require Import base option list gmap strings pretty.

Local Open Scope string_scope.
Local Open Scope list_scope.
Local Open Scope Z_scope.

(** ** Machine integers, instants and durations *)

(** Go's [int] on the 64-bit platforms: [++] and [--] wrap around. *)
Definition int_min : Z := - 2 ^ 63.
Definition int_max : Z := 2 ^ 63 - 1.
Definition int_wrap (z : Z) : Z := (z + 2 ^ 63) `mod` 2 ^ 64 - 2 ^ 63.

(** A [time.Time] is an instant in nanoseconds counted from the zero
    instant [time.Time{}]; a [time.Duration] is a saturating [int64]. *)
Definition Time := Z.
Definition zeroTime : Time := 0.
Definition IsZero (t : Time) : bool := t =? 0.
Definition Millisecond : Z := 1000000.
Definition Sub (t u : Time) : Z := Z.max int_min (Z.min int_max (t - u)).
Definition Since (now t : Time) : Z := Sub now t.

(** ** Outcome of an operation that may block or panic *)

Inductive res (A : Type) : Type :=
| Ok (a : A)
| Blocks
| Panic (msg : string).
Arguments Ok {A} a.
Arguments Blocks {A}.
Arguments Panic {A} msg.

Definition res_bind {A B} (r : res A) (k : A → res B) : res B :=
  match r with
  | Ok a => k a
  | Blocks => Blocks
  | Panic msg => Panic msg
  end.

Notation "'let*' x ':=' r 'in' k" := (res_bind r (fun x => k))
  (at level 10, x pattern, r at level 100, k at level 200, only parsing).

Definition nil_deref : string :=
  "invalid memory address or nil pointer dereference".

(** Dereference of a pointer held in an [option]. *)
Definition deref {A} (o : option A) : res A :=
  match o with Some a => Ok a | None => Panic nil_deref end.

(** ** Data model *)

(** The work routine is arbitrary user code; what the scheduler can see of
    a call is whether it returns or panics. *)
Inductive FuncBody : Type :=
| FReturn
| FPanic (msg : string).

(** An unbuffered [chan struct{}]: whether it has been closed, and the
    goroutines parked in a send on it (oldest first). *)
Record Chan : Type := mkChan { closed : bool; sendq : list nat }.

Definition make_chan : Chan := mkChan false [].

Record G : Type := mkG {
  G_ID : Z;
  Func : FuncBody;
  Status : string;
  blockChan : option Chan   (* [None] is the nil channel *)
}.

Record P : Type := mkP {
  P_ID : Z;
  RunQ : list nat;          (* []*G *)
  NumG : Z
}.

Record M : Type := mkM {
  M_ID : Z;
  M_P : option nat;         (* *P, [None] is nil *)
  M_G : option nat;         (* *G *)
  stop : Chan;
  parkTime : Time
}.

(** The buffered [chan *P]: capacity and buffered values. *)
Record PChan : Type := mkPChan { cap : nat; buf : list (option nat) }.

Record Scheduler : Type := mkScheduler {
  Ps : list nat;
  Ms : list nat;
  mu : bool;                (* [true] while the mutex is held *)
  nextGID : Z;
  globalQ : list nat;
  wg : Z;                   (* counter of the WaitGroup *)
  availPs : option PChan    (* [None] until the first AddM *)
}.

(** What reaches standard output, and the calls of the work routines. *)
Inductive Event : Type :=
| EvFunc (g : nat)                  (* the work routine of the G at g ran *)
| EvWaiting                         (* G: Waiting for unblock signal... *)
| EvResumed                         (* G: Resumed after unblock! *)
| EvDone                            (* Goroutine is done with task! *)
| EvOverflow (gid pid : Z)          (* Overflow: Enqueued G to globalQ *)
| EvGrabbed (mid pid : Z)           (* M: Grabbed available P *)
| EvStole (mid gid pid : Z)         (* M: Stole G from global to P *)
| EvParking (mid pid : Z)           (* M: Parking, handing off P *)
| EvStarting (mid pid gid : Z)      (* M on P: Starting G *)
| EvFinished (mid pid gid : Z)      (* M on P: Finished G *)
| EvBlocked (mid pid gid : Z)       (* M on P: G blocked, handing off P *)
| EvSignaled (g : nat).             (* Manual: Signaled unblock *)

(** Program points of [G.Run]. *)
Inductive RunPC : Type :=
| RFunc      (* g.Func(); if g.blockChan != nil { Println(Waiting) *)
| RRecv      (* <-g.blockChan; Println(Resumed) *)
| RClose     (* close(g.blockChan) *)
| RDone.     (* g.Status = "done"; Println *)

(** Program points of the goroutine [m.run(s)], with [scheduleOnce] and
    [G.Run] inlined at their call sites. *)
Inductive PC : Type :=
| LoopSelect            (* select { case <-m.stop: return; default: } *)
| SchedEntry            (* if m.P == nil { cooldown test; reset } *)
| Grab                  (* select { case p := <-s.availPs: ...; default: return } *)
| GrabBind (v : option nat)     (* m.P = p; Printf(Grabbed) *)
| CheckLocal            (* if m.P.NumG == 0 *)
| LockMu                (* s.mu.Lock() *)
| GlobalCheck           (* if len(s.globalQ) > 0 { steal } *)
| UnlockStolen          (* s.mu.Unlock() after a steal *)
| UnlockPark            (* s.mu.Unlock(); Printf(Parking) *)
| ParkSend              (* s.availPs <- m.P *)
| ParkClear             (* m.P = nil *)
| ParkStamp             (* m.parkTime = time.Now(); return *)
| Pop                   (* g := m.P.RunQ[0]; ...; Printf(Starting) *)
| InRun (g : nat) (r : RunPC)   (* inside g.Run() *)
| AfterRun (g : nat)    (* m.G = nil; if g.Status == "done" ... *)
| HandoffSend           (* s.availPs <- m.P *)
| HandoffClear          (* m.P = nil *)
| HandoffStamp          (* m.parkTime = time.Now(); return *)
| AfterSched            (* scheduleOnce has returned; time.Sleep begins *)
| Sleeping (wake : Time)
| Exited.

(** Program points of a goroutine that delivers one unblock signal,
    [go func() { ...; g.blockChan <- struct{}{}; Println(Signaled) }()]. *)
Inductive SigPC : Type :=
| SigSend       (* about to execute the send *)
| SigParked     (* parked in the send, waiting for the receiver *)
| SigWoken      (* the send has completed; Println follows *)
| SigDone.

Record World : Type := mkWorld {
  sched : Scheduler;
  gs : gmap nat G;
  ps : gmap nat P;
  ms : gmap nat M;
  wpc : gmap nat PC;              (* goroutine of each M *)
  sigs : gmap nat (nat * SigPC);  (* signalling goroutines: target G, pc *)
  clock : Time;
  out : list Event;
  crashed : option string         (* an unrecovered panic ended the process *)
}.

(** *** Field updates *)

Definition set_closed (b : bool) (c : Chan) : Chan := mkChan b (sendq c).
Definition set_sendq (q : list nat) (c : Chan) : Chan := mkChan (closed c) q.

Definition set_Status (s : string) (x : G) : G :=
  mkG (G_ID x) (Func x) s (blockChan x).
Definition set_blockChan (c : option Chan) (x : G) : G :=
  mkG (G_ID x) (Func x) (Status x) c.

Definition set_queue (q : list nat) (n : Z) (x : P) : P := mkP (P_ID x) q n.

Definition set_M_P (p : option nat) (x : M) : M :=
  mkM (M_ID x) p (M_G x) (stop x) (parkTime x).
Definition set_M_G (g : option nat) (x : M) : M :=
  mkM (M_ID x) (M_P x) g (stop x) (parkTime x).
Definition set_stop (c : Chan) (x : M) : M :=
  mkM (M_ID x) (M_P x) (M_G x) c (parkTime x).
Definition set_parkTime (t : Time) (x : M) : M :=
  mkM (M_ID x) (M_P x) (M_G x) (stop x) t.

Definition set_Ps (l : list nat) (s : Scheduler) : Scheduler :=
  mkScheduler l (Ms s) (mu s) (nextGID s) (globalQ s) (wg s) (availPs s).
Definition set_Ms (l : list nat) (s : Scheduler) : Scheduler :=
  mkScheduler (Ps s) l (mu s) (nextGID s) (globalQ s) (wg s) (availPs s).
Definition set_mu (b : bool) (s : Scheduler) : Scheduler :=
  mkScheduler (Ps s) (Ms s) b (nextGID s) (globalQ s) (wg s) (availPs s).
Definition set_nextGID (n : Z) (s : Scheduler) : Scheduler :=
  mkScheduler (Ps s) (Ms s) (mu s) n (globalQ s) (wg s) (availPs s).
Definition set_globalQ (q : list nat) (s : Scheduler) : Scheduler :=
  mkScheduler (Ps s) (Ms s) (mu s) (nextGID s) q (wg s) (availPs s).
Definition set_wg (n : Z) (s : Scheduler) : Scheduler :=
  mkScheduler (Ps s) (Ms s) (mu s) (nextGID s) (globalQ s) n (availPs s).
Definition set_availPs (c : option PChan) (s : Scheduler) : Scheduler :=
  mkScheduler (Ps s) (Ms s) (mu s) (nextGID s) (globalQ s) (wg s) c.

Definition with_sched (s : Scheduler) (w : World) : World :=
  mkWorld s (gs w) (ps w) (ms w) (wpc w) (sigs w) (clock w) (out w) (crashed w).
Definition with_gs (x : gmap nat G) (w : World) : World :=
  mkWorld (sched w) x (ps w) (ms w) (wpc w) (sigs w) (clock w) (out w) (crashed w).
Definition with_ps (x : gmap nat P) (w : World) : World :=
  mkWorld (sched w) (gs w) x (ms w) (wpc w) (sigs w) (clock w) (out w) (crashed w).
Definition with_ms (x : gmap nat M) (w : World) : World :=
  mkWorld (sched w) (gs w) (ps w) x (wpc w) (sigs w) (clock w) (out w) (crashed w).
Definition with_wpc (x : gmap nat PC) (w : World) : World :=
  mkWorld (sched w) (gs w) (ps w) (ms w) x (sigs w) (clock w) (out w) (crashed w).
Definition with_sigs (x : gmap nat (nat * SigPC)) (w : World) : World :=
  mkWorld (sched w) (gs w) (ps w) (ms w) (wpc w) x (clock w) (out w) (crashed w).
Definition with_clock (t : Time) (w : World) : World :=
  mkWorld (sched w) (gs w) (ps w) (ms w) (wpc w) (sigs w) t (out w) (crashed w).
Definition with_out (o : list Event) (w : World) : World :=
  mkWorld (sched w) (gs w) (ps w) (ms w) (wpc w) (sigs w) (clock w) o (crashed w).
Definition with_crashed (c : option string) (w : World) : World :=
  mkWorld (sched w) (gs w) (ps w) (ms w) (wpc w) (sigs w) (clock w) (out w) c.

Definition print (e : Event) (w : World) : World := with_out (out w ++ [e]) w.
Definition put_G (g : nat) (x : G) (w : World) : World :=
  with_gs (<[g := x]> (gs w)) w.
Definition put_P (p : nat) (x : P) (w : World) : World :=
  with_ps (<[p := x]> (ps w)) w.
Definition put_M (m : nat) (x : M) (w : World) : World :=
  with_ms (<[m := x]> (ms w)) w.
Definition goto (m : nat) (pc : PC) (w : World) : World :=
  with_wpc (<[m := pc]> (wpc w)) w.

(** The world of [sched := &Scheduler{}] before anything else has run. *)
Definition empty_world : World :=
  mkWorld (mkScheduler [] [] false 0 [] 0 None) ∅ ∅ ∅ ∅ ∅ 1 [] None.

(** ** Synchronisation primitives *)

(** [s.mu.Lock()] waits while the mutex is held. *)
Definition Lock (w : World) : res World :=
  if mu (sched w) then Blocks
  else Ok (with_sched (set_mu true (sched w)) w).

(** [s.mu.Unlock()] of a mutex that is not held is a fatal error. *)
Definition Unlock (w : World) : res World :=
  if mu (sched w) then Ok (with_sched (set_mu false (sched w)) w)
  else Panic "sync: unlock of unlocked mutex".

(** [s.availPs <- v]: waits while the buffer is full; a send on the nil
    channel waits for ever. *)
Definition availPs_send (v : option nat) (w : World) : res World :=
  match availPs (sched w) with
  | None => Blocks
  | Some c =>
      if decide (length (buf c) < cap c)%nat
      then Ok (with_sched
                 (set_availPs (Some (mkPChan (cap c) (buf c ++ [v]))) (sched w)) w)
      else Blocks
  end.

(** [select { case p := <-s.availPs: ...; default: ... }]: the receive case
    is ready when a value is buffered. *)
Definition availPs_tryrecv (w : World) : option (option nat * World) :=
  match availPs (sched w) with
  | None => None
  | Some c =>
      match buf c with
      | [] => None
      | v :: rest =>
          Some (v, with_sched
                     (set_availPs (Some (mkPChan (cap c) rest)) (sched w)) w)
      end
  end.

(** The receiver of an unbuffered channel completes the send of the
    goroutine it takes the value from. *)
Definition wake (t : nat) (w : World) : World :=
  with_sigs (alter (λ x, (x.1, SigWoken)) t (sigs w)) w.

(** [close] readies every parked sender; each of them then panics in its
    send, which is what a goroutine at [SigSend] does on a closed channel. *)
Definition abort_senders (q : list nat) (w : World) : World :=
  with_sigs (foldr (λ t sg, alter (λ x, (x.1, SigSend)) t sg) (sigs w) q) w.

(** ** [G.Run] *)

(** One step of [g.Run()]; [None] as next point means that Run returns. *)
Definition Run_step (g : nat) (r : RunPC) (w : World)
  : res (option RunPC * World) :=
  let* gv := deref (gs w !! g) in
  match r with
  | RFunc =>
      match Func gv with
      | FPanic msg => Panic msg
      | FReturn =>
          let w1 := print (EvFunc g) w in
          match blockChan gv with
          | Some _ => Ok (Some RRecv, print EvWaiting w1)
          | None => Ok (Some RDone, w1)
          end
      end
  | RRecv =>
      match blockChan gv with
      | None => Blocks
      | Some c =>
          match sendq c with
          | t :: q =>
              Ok (Some RClose,
                  print EvResumed
                    (wake t (put_G g (set_blockChan (Some (set_sendq q c)) gv) w)))
          | [] =>
              if closed c then Ok (Some RClose, print EvResumed w) else Blocks
          end
      end
  | RClose =>
      match blockChan gv with
      | None => Panic "close of nil channel"
      | Some c =>
          if closed c then Panic "close of closed channel"
          else Ok (Some RDone,
                   abort_senders (sendq c)
                     (put_G g (set_blockChan (Some (mkChan true [])) gv) w))
      end
  | RDone => Ok (None, print EvDone (put_G g (set_Status "done" gv) w))
  end.

(** [g.Run()] as a call that runs to its return. *)
Fixpoint Run_from (fuel : nat) (g : nat) (r : RunPC) (w : World) : res World :=
  match fuel with
  | O => Blocks
  | S fuel' =>
      let* (r', w1) := Run_step g r w in
      match r' with
      | None => Ok w1
      | Some r1 => Run_from fuel' g r1 w1
      end
  end.

Definition Run (g : nat) (w : World) : res World := Run_from 4 g RFunc w.

(** ** The scheduler's methods called from [main] *)

(** [NewG]: lock, take the next id, build the G, unlock (deferred). *)
Definition NewG (f : FuncBody) (block : bool) (w : World) : res (nat * World) :=
  let* w1 := Lock w in
  let id := nextGID (sched w1) in
  let w2 := with_sched (set_nextGID (int_wrap (id + 1)) (sched w1)) w1 in
  let gv := mkG id f "runnable" (if block then Some make_chan else None) in
  let g := fresh (dom (gs w2)) in
  let* w3 := Unlock (put_G g gv w2) in
  Ok (g, w3).

Definition AddP (id : Z) (w : World) : nat * World :=
  let p := fresh (dom (ps w)) in
  (p, with_sched (set_Ps (Ps (sched w) ++ [p]) (sched w))
        (put_P p (mkP id [] 0) w)).

(** [AddM] also starts the goroutine [m.run(s)]. *)
Definition AddM (id pIndex : Z) (w : World) : res (nat * World) :=
  let s := sched w in
  if Z.of_nat (length (Ps s)) <=? pIndex then Panic "P index out of bounds"
  else
    let s1 := match availPs s with
              | None => set_availPs (Some (mkPChan (length (Ps s)) [])) s
              | Some _ => s
              end in
    if pIndex <? 0 then Panic "index out of range"
    else
      match Ps s !! Z.to_nat pIndex with
      | None => Panic "index out of range"
      | Some p =>
          let m := fresh (dom (ms w)) in
          let mv := mkM id (Some p) None make_chan zeroTime in
          Ok (m, goto m LoopSelect
                   (put_M m mv
                      (with_sched (set_wg (wg s1 + 1) (set_Ms (Ms s1 ++ [m]) s1)) w)))
      end.

(** [Enqueue] with the overflow test [p.NumG > K]; the last iteration has
    K = 5 and the one before it K = 10, the bodies are otherwise the same. *)
Definition Enqueue_with (K : Z) (p g : nat) (w : World) : res World :=
  let* pv := deref (ps w !! p) in
  if K <? NumG pv then
    let* w1 := Lock w in
    let w2 := with_sched (set_globalQ (globalQ (sched w1) ++ [g]) (sched w1)) w1 in
    let* w3 := Unlock w2 in
    let* gv := deref (gs w !! g) in
    Ok (print (EvOverflow (G_ID gv) (P_ID pv)) w3)
  else
    let w1 := put_P p (set_queue (RunQ pv ++ [g]) (int_wrap (NumG pv + 1)) pv) w in
    let* gv := deref (gs w !! g) in
    Ok (put_G g (set_Status "runnable" gv) w1).

Definition Enqueue : nat → nat → World → res World := Enqueue_with 5.

(** The statements of the local branch of [Enqueue], one at a time; the
    branch takes no lock.  [p.RunQ = append(p.RunQ, g)]: *)
Definition Enqueue_append (p g : nat) (w : World) : res World :=
  let* pv := deref (ps w !! p) in
  Ok (put_P p (set_queue (RunQ pv ++ [g]) (NumG pv) pv) w).

(** [p.NumG++]. *)
Definition Enqueue_count (p : nat) (w : World) : res World :=
  let* pv := deref (ps w !! p) in
  Ok (put_P p (set_queue (RunQ pv) (int_wrap (NumG pv + 1)) pv) w).

(** [g.Status = "runnable"]. *)
Definition Enqueue_mark (g : nat) (w : World) : res World :=
  let* gv := deref (gs w !! g) in
  Ok (put_G g (set_Status "runnable" gv) w).

(** The local branch of [Enqueue], statement by statement. *)
Definition Enqueue_stepwise (p g : nat) (w : World) : res World :=
  let* w1 := Enqueue_append p g w in
  let* w2 := Enqueue_count p w1 in
  Enqueue_mark g w2.
Definition Enqueue_step6 : nat → nat → World → res World := Enqueue_with 10.

(** [close(m.stop)] in [main]. *)
Definition close_stop (m : nat) (w : World) : res World :=
  let* mv := deref (ms w !! m) in
  if closed (stop mv) then Panic "close of closed channel"
  else Ok (put_M m (set_stop (set_closed true (stop mv)) mv) w).

(** [go func() { ...; g.blockChan <- struct{}{}; ... }()] in [main]. *)
Definition go_signal (g : nat) (w : World) : nat * World :=
  let t := fresh (dom (sigs w)) in
  (t, with_sigs (<[t := (g, SigSend)]> (sigs w)) w).

(** ** The goroutine of a signal *)

Definition step_signal (t : nat) (w : World) : res World :=
  match sigs w !! t with
  | None => Blocks
  | Some (g, SigSend) =>
      let* gv := deref (gs w !! g) in
      match blockChan gv with
      | None => Blocks
      | Some c =>
          if closed c then Panic "send on closed channel"
          else Ok (with_sigs (<[t := (g, SigParked)]> (sigs w))
                     (put_G g (set_blockChan (Some (set_sendq (sendq c ++ [t]) c)) gv) w))
      end
  | Some (g, SigParked) => Blocks
  | Some (g, SigWoken) =>
      Ok (print (EvSignaled g) (with_sigs (<[t := (g, SigDone)]> (sigs w)) w))
  | Some (g, SigDone) => Blocks
  end.

(** ** The goroutine of an M: [run], [scheduleOnce] *)

Definition cooldown : Z := 200 * Millisecond.
Definition tick : Z := 100 * Millisecond.

(** [m.P.ID] and the like: the P that [m.P] points to. *)
Definition P_of (mv : M) (w : World) : res P :=
  let* p := deref (M_P mv) in deref (ps w !! p).

Definition step_worker (m : nat) (w : World) : res World :=
  match wpc w !! m with
  | None => Blocks
  | Some pc =>
    let* mv := deref (ms w !! m) in
    match pc with
    | LoopSelect =>
        (* nothing is ever sent on m.stop: the case is ready once it is closed;
           returning runs the deferred s.wg.Done() *)
        if closed (stop mv) then
          if wg (sched w) - 1 <? 0 then Panic "sync: negative WaitGroup counter"
          else Ok (goto m Exited (with_sched (set_wg (wg (sched w) - 1) (sched w)) w))
        else Ok (goto m SchedEntry w)
    | SchedEntry =>
        match M_P mv with
        | None =>
            if negb (IsZero (parkTime mv))
               && (Since (clock w) (parkTime mv) <? cooldown)
            then Ok (goto m AfterSched w)
            else Ok (goto m Grab (put_M m (set_parkTime zeroTime mv) w))
        | Some _ => Ok (goto m CheckLocal w)
        end
    | Grab =>
        (* the value received is in the variable [p] of the case; [m.P] is
           assigned by the next statement *)
        match availPs_tryrecv w with
        | Some (p, w1) => Ok (goto m (GrabBind p) w1)
        | None => Ok (goto m AfterSched w)
        end
    | GrabBind p =>
        let mv1 := set_M_P p mv in
        let* pv := P_of mv1 w in
        Ok (goto m CheckLocal
              (print (EvGrabbed (M_ID mv) (P_ID pv)) (put_M m mv1 w)))
    | CheckLocal =>
        let* pv := P_of mv w in
        if NumG pv =? 0 then Ok (goto m LockMu w) else Ok (goto m Pop w)
    | LockMu =>
        let* w1 := Lock w in Ok (goto m GlobalCheck w1)
    | GlobalCheck =>
        match globalQ (sched w) with
        | g :: rest =>
            let w1 := with_sched (set_globalQ rest (sched w)) w in
            let* p := deref (M_P mv) in
            let* pv := deref (ps w !! p) in
            let w2 := put_P p (set_queue (RunQ pv ++ [g]) (int_wrap (NumG pv + 1)) pv) w1 in
            let* gv := deref (gs w !! g) in
            Ok (goto m UnlockStolen
                  (print (EvStole (M_ID mv) (G_ID gv) (P_ID pv)) w2))
        | [] => Ok (goto m UnlockPark w)
        end
    | UnlockStolen =>
        let* w1 := Unlock w in Ok (goto m Pop w1)
    | UnlockPark =>
        let* w1 := Unlock w in
        let* pv := P_of mv w in
        Ok (goto m ParkSend (print (EvParking (M_ID mv) (P_ID pv)) w1))
    | ParkSend =>
        let* w1 := availPs_send (M_P mv) w in Ok (goto m ParkClear w1)
    | ParkClear =>
        Ok (goto m ParkStamp (put_M m (set_M_P None mv) w))
    | ParkStamp =>
        Ok (goto m AfterSched (put_M m (set_parkTime (clock w) mv) w))
    | Pop =>
        let* p := deref (M_P mv) in
        let* pv := deref (ps w !! p) in
        match RunQ pv with
        | [] => Panic "index out of range [0] with length 0"
        | g :: rest =>
            let w1 := put_P p (set_queue rest (int_wrap (NumG pv - 1)) pv) w in
            let w2 := put_M m (set_M_G (Some g) mv) w1 in
            let* gv := deref (gs w !! g) in
            Ok (goto m (InRun g RFunc)
                  (print (EvStarting (M_ID mv) (P_ID pv) (G_ID gv))
                     (put_G g (set_Status "running" gv) w2)))
        end
    | InRun g r =>
        let* (r', w1) := Run_step g r w in
        match r' with
        | Some r1 => Ok (goto m (InRun g r1) w1)
        | None => Ok (goto m (AfterRun g) w1)
        end
    | AfterRun g =>
        let w1 := put_M m (set_M_G None mv) w in
        let* gv := deref (gs w !! g) in
        let* pv := P_of mv w in
        if String.eqb (Status gv) "done" then
          Ok (goto m AfterSched (print (EvFinished (M_ID mv) (P_ID pv) (G_ID gv)) w1))
        else
          Ok (goto m HandoffSend (print (EvBlocked (M_ID mv) (P_ID pv) (G_ID gv)) w1))
    | HandoffSend =>
        let* w1 := availPs_send (M_P mv) w in Ok (goto m HandoffClear w1)
    | HandoffClear =>
        Ok (goto m HandoffStamp (put_M m (set_M_P None mv) w))
    | HandoffStamp =>
        Ok (goto m AfterSched (put_M m (set_parkTime (clock w) mv) w))
    | AfterSched =>
        Ok (goto m (Sleeping (clock w + tick)) w)
    | Sleeping wake =>
        if wake <=? clock w then Ok (goto m LoopSelect w) else Blocks
    | Exited => Blocks
    end
  end.

(** [m.scheduleOnce(s)] as a call that runs to its return: the goroutine of
    [m] alone takes steps from the entry of the method. *)
Fixpoint sched_from (fuel : nat) (m : nat) (w : World) : res World :=
  match fuel with
  | O => Ok w
  | S fuel' =>
      match wpc w !! m with
      | Some AfterSched => Ok w
      | _ => let* w1 := step_worker m w in sched_from fuel' m w1
      end
  end.

Definition scheduleOnce (m : nat) (w : World) : res World :=
  sched_from 17 m (goto m SchedEntry w).

(** The number of steps that separate a program point of [scheduleOnce]
    from the return of the method, at most. *)
Definition steps_left (pc : PC) : nat :=
  match pc with
  | AfterSched => 0
  | ParkStamp | HandoffStamp => 1
  | ParkClear | HandoffClear => 2
  | ParkSend | HandoffSend => 3
  | AfterRun _ => 4
  | UnlockPark => 4
  | InRun _ RDone => 5
  | InRun _ RClose => 6
  | InRun _ RRecv => 7
  | InRun _ RFunc => 8
  | Pop => 9
  | UnlockStolen => 10
  | GlobalCheck => 11
  | LockMu => 12
  | CheckLocal => 13
  | GrabBind _ => 14
  | Grab => 15
  | SchedEntry => 16
  | LoopSelect | Sleeping _ | Exited => 17
  end.

Arguments sched_from : simpl never.
Arguments step_worker : simpl never.

(** ** The whole program: interleaving of the goroutines *)

Inductive Action : Type :=
| ActWorker (m : nat)                    (* the goroutine of an M *)
| ActSignal (t : nat)                    (* a signalling goroutine *)
| ActTick (d : Z)                        (* time passes *)
| ActNewG (f : FuncBody) (block : bool)  (* calls made by main *)
| ActEnqueue (p g : nat)
| ActGoSignal (g : nat)
| ActCloseStop (m : nat)
| ActAddP (id : Z)
| ActAddM (id pIndex : Z).

Definition act (a : Action) (w : World) : res World :=
  match a with
  | ActWorker m => step_worker m w
  | ActSignal t => step_signal t w
  | ActTick d => if 0 <=? d then Ok (with_clock (clock w + d) w) else Blocks
  | ActNewG f block => let* (_, w1) := NewG f block w in Ok w1
  | ActEnqueue p g => Enqueue p g w
  | ActGoSignal g => Ok (go_signal g w).2
  | ActCloseStop m => close_stop m w
  | ActAddP id => Ok (AddP id w).2
  | ActAddM id pIndex => let* (_, w1) := AddM id pIndex w in Ok w1
  end.

(** An unrecovered panic in any goroutine ends the process: the world is
    marked crashed and nothing runs any more. *)
Definition sys_step (a : Action) (w : World) : option World :=
  match crashed w with
  | Some _ => None
  | None =>
      match act a w with
      | Ok w' => Some w'
      | Blocks => None
      | Panic msg => Some (with_crashed (Some msg) w)
      end
  end.

Fixpoint exec (l : list Action) (w : World) : option World :=
  match l with
  | [] => Some w
  | a :: l' => match sys_step a w with Some w' => exec l' w' | None => None end
  end.

#[global] Instance FuncBody_eq_dec : EqDecision FuncBody.
Proof. solve_decision. Defined.
#[global] Instance RunPC_eq_dec : EqDecision RunPC.
Proof. solve_decision. Defined.
#[global] Instance PC_eq_dec : EqDecision PC.
Proof. solve_decision. Defined.
#[global] Instance SigPC_eq_dec : EqDecision SigPC.
Proof. solve_decision. Defined.
#[global] Instance Event_eq_dec : EqDecision Event.
Proof. solve_decision. Defined.
#[global] Instance Action_eq_dec : EqDecision Action.
Proof. solve_decision. Defined.

(** Setup actions are the calls of AddP and AddM. *)
Definition is_setup (a : Action) : bool :=
  match a with ActAddP _ | ActAddM _ _ => true | _ => false end.

(** The setup of [main]: two Ps, two Ms, M0 on P0 and M1 on P1. *)
Definition main_setup : option World :=
  exec [ActAddP 0; ActAddM 0 0; ActAddP 1; ActAddM 1 1] empty_world.

(** [main] submitting a list of tasks to one P, one [Enqueue] per task. *)
Fixpoint Enqueue_all (K : Z) (p : nat) (l : list nat) (w : World) : res World :=
  match l with
  | [] => Ok w
  | g :: l' => let* w1 := Enqueue_with K p g w in Enqueue_all K p l' w1
  end.


(** The routing in which the last of the submitted tasks goes to the global
    queue and all the tasks before it to the local queue of [p]. *)
Definition routes_last_to_global (K : Z) (p : nat) (l : list nat) (w : World)
  : Prop :=
  ∃ w' pv',
    Enqueue_all K p l w = Ok w' ∧ ps w' !! p = Some pv' ∧
    RunQ pv' = removelast l ∧
    globalQ (sched w') = globalQ (sched w) ++ drop (length l - 1) l.

(** One P, one M on it, and [n] tasks created by [NewG] and not yet
    submitted. *)
Definition tasks_world (n : nat) : option World :=
  exec ([ActAddP 0; ActAddM 0 0] ++ replicate n (ActNewG FReturn false))
    empty_world.


(** The recorded length of every run queue is its actual length. *)
Definition queue_len_ok (w : World) : Prop :=
  map_Forall (λ _ pv, NumG pv = Z.of_nat (length (RunQ pv))) (ps w).

(** Every run queue is shorter than the largest [int] (the length of a Go
    slice is an [int]). *)
Definition queue_len_bounded (w : World) : Prop :=
  map_Forall (λ _ pv, Z.of_nat (length (RunQ pv)) < int_max) (ps w).


(** The ids handed out so far: all below the counter, and pairwise
    distinct. *)
Definition ids_ok (next : Z) (gm : gmap nat G) : Prop :=
  0 <= next ∧
  map_Forall (λ _ gv, 0 <= G_ID gv < next) gm ∧
  ∀ g1 g2 gv1 gv2,
    gm !! g1 = Some gv1 → gm !! g2 = Some gv2 → G_ID gv1 = G_ID gv2 → g1 = g2.


(** What a worker's own goroutine controls: its program counter, its
    binding [m.P] and its cooldown marker [m.parkTime]. *)
Definition park_view (m : nat) (w : World)
  : option PC * option (option nat * Time) :=
  (wpc w !! m, (λ mv, (M_P mv, parkTime mv)) <$> ms w !! m).

(** Program points of the loop of [run] from the return of [scheduleOnce]
    up to the cooldown test of the next iteration. *)
Definition before_acquire (pc : PC) : bool :=
  match pc with
  | AfterSched | Sleeping _ | LoopSelect | SchedEntry | Exited => true
  | _ => false
  end.

(** The worker [m] is unbound, carries the cooldown marker [t0] and has
    not passed the cooldown test. *)
Definition cooling (m : nat) (t0 : Time) (w : World) : Prop :=
  ∃ pc, park_view m w = (Some pc, Some (None, t0)) ∧ before_acquire pc = true.

(** The last step of a park: [m.parkTime = time.Now(); return]. *)
Definition is_stamp (pc : PC) : bool :=
  match pc with ParkStamp | HandoffStamp => true | _ => false end.


(** [main]'s setup followed by the first iteration of M0 on its empty P0,
    up to the last statement of the park ([m.parkTime = time.Now()]). *)
Definition parked_world : option World :=
  main_setup ≫= exec (replicate 8 (ActWorker 0)).

(** M0 sleeps its 100ms tick and enters the next iteration. *)
Definition next_tick : list Action :=
  [ActWorker 0; ActTick (100 * Millisecond); ActWorker 0; ActWorker 0;
   ActWorker 0].


(** The worker [m] is inside [g.Run()] at the receive [<-g.blockChan]; the
    channel is open and no goroutine is parked in a send on it; no goroutine
    exists that will send on it, and no other worker stands before
    [close(g.blockChan)]. *)
Definition awaiting (m g : nat) (w : World) : Prop :=
  wpc w !! m = Some (InRun g RRecv) ∧
  is_Some (ms w !! m) ∧
  (blockChan <$> gs w !! g) = Some (Some (mkChan false [])) ∧
  map_Forall (λ _ x, x.1 ≠ g) (sigs w) ∧
  map_Forall (λ _ pc, pc ≠ InRun g RClose) (wpc w).


(** [main]'s setup, one blocking task submitted to P0, and M0 run up to the
    receive on the task's channel; no signal has been sent. *)
Definition blocked_world : option World :=
  main_setup ≫=
    exec ([ActNewG FReturn true; ActEnqueue 0 0] ++ replicate 5 (ActWorker 0)).

(** [main]'s setup with a task whose work routine panics on P0 and an
    ordinary task on P1; M0 has popped its task and is about to call the
    work routine. *)
Definition panicking_world : option World :=
  main_setup ≫=
    exec ([ActNewG (FPanic "boom") false; ActNewG FReturn false;
           ActEnqueue 0 0; ActEnqueue 1 1] ++ replicate 4 (ActWorker 0)).


(** The channel of the task at [g] has been closed. *)
Definition chan_closed (g : nat) (w : World) : Prop :=
  ((λ gv, closed <$> blockChan gv) <$> gs w !! g) = Some (Some true).

(** [blocked_world] continued: the signalling goroutine of [main] sends,
    M0 receives, closes the channel and marks the task done. *)
Definition resumed_world : option World :=
  blocked_world ≫=
    exec ([ActGoSignal 0; ActSignal 0] ++ replicate 3 (ActWorker 0)).


(** What one iteration prints when it runs a task that does not block. *)
Definition run_events (mid pid : Z) (g : nat) (gid : Z) : list Event :=
  [EvStarting mid pid gid; EvFunc g; EvDone; EvFinished mid pid gid].

(** [n] iterations of [scheduleOnce] by the same worker. *)
Fixpoint scheduleOnce_n (n : nat) (m : nat) (w : World) : res World :=
  match n with
  | O => Ok w
  | S n' => let* w1 := scheduleOnce m w in scheduleOnce_n n' m w1
  end.

(** A task that exists, does not block, and whose work routine returns. *)
Definition plain_task (gm : gmap nat G) (g : nat) : Prop :=
  ∃ gv, gm !! g = Some gv ∧ Func gv = FReturn ∧ blockChan gv = None.

(** The id of the task at [g] (0 when there is none). *)
Definition gid_of (gm : gmap nat G) (g : nat) : Z :=
  default 0 (G_ID <$> gm !! g).

(** The fields of a task that never change after [NewG]. *)
Definition task_view (gm : gmap nat G) (g : nat)
  : option (Z * FuncBody * option Chan) :=
  (λ gv, (G_ID gv, Func gv, blockChan gv)) <$> gm !! g.


(** ** The order in which the tasks of a P start *)

(** The ids of the tasks started on the P with id [pid], in the order of
    the output. *)
Definition starts (pid : Z) (o : list Event) : list Z :=
  omap (λ e, match e with
             | EvStarting _ p g => if decide (p = pid) then Some g else None
             | _ => None
             end) o.

(** The tasks started so far on the P at [p], followed by the tasks still
    in its queue, are the ids [L]; nothing is in the global queue (so that
    nothing can be stolen), the tasks in the queue exist, and no other P
    carries the same id. *)
Definition start_order (p : nat) (L : list Z) (w : World) : Prop :=
  globalQ (sched w) = [] ∧
  ∃ pv, ps w !! p = Some pv ∧
    (∀ p' pv', ps w !! p' = Some pv' → P_ID pv' = P_ID pv → p' = p) ∧
    Forall (λ g, is_Some (gs w !! g)) (RunQ pv) ∧
    starts (P_ID pv) (out w) ++ map (gid_of (gs w)) (RunQ pv) = L.

(** One P, one M on it, and the three tasks of [main] submitted to the P
    in the order of their creation. *)
Definition queued_world : option World :=
  tasks_world 3 ≫= exec [ActEnqueue 0 0; ActEnqueue 0 1; ActEnqueue 0 2].

(** M0 runs the first task, sleeps its tick and starts the second. *)
Definition two_starts : list Action :=
  replicate 8 (ActWorker 0) ++ [ActTick (100 * Millisecond)] ++
  replicate 5 (ActWorker 0).

(** Actions other than the setup and [Enqueue]. *)
Definition is_submit (a : Action) : bool :=
  match a with ActEnqueue _ _ => true | _ => is_setup a end.

(** ** Where a P is: bound to a worker, or in the pool *)

(** The values buffered in [s.availPs]. *)
Definition pool (w : World) : list (option nat) :=
  match availPs (sched w) with Some c => buf c | None => [] end.

(** The field [m.P] of the M at [m], when there is such an M. *)
Definition bind_of (m : nat) (w : World) : option (option nat) :=
  M_P <$> ms w !! m.

Definition bound_to (m p : nat) (w : World) : Prop :=
  bind_of m w = Some (Some p).

(** Every P of the scheduler is in exactly one of the two locations: in the
    pool and bound to no worker, or bound to exactly one worker and not in
    the pool. *)
Definition one_location (w : World) : Prop :=
  ∀ p, p ∈ Ps (sched w) →
    (Some p ∈ pool w ∧ ∀ m, ¬ bound_to m p w) ∨
    ((Some p ∉ pool w) ∧
     ∃ m, bound_to m p w ∧ ∀ m', bound_to m' p w → m' = m).

(** The worker has sent [m.P] to the pool and has not yet executed
    [m.P = nil]. *)
Definition published (pc : PC) : bool :=
  match pc with ParkClear | HandoffClear => true | _ => false end.

(** Program points at which the code has dereferenced [m.P] or is about to
    without a test. *)
Definition bound_pc (pc : PC) : bool :=
  match pc with
  | CheckLocal | LockMu | GlobalCheck | UnlockStolen | UnlockPark | ParkSend
  | Pop | InRun _ _ | AfterRun _ | HandoffSend => true
  | _ => false
  end.

(** The worker has received a P from the pool into the variable [p] of the
    [select] and has not yet executed [m.P = p]. *)
Definition receiving (pc : PC) : bool :=
  match pc with GrabBind _ => true | _ => false end.

(** What the program point says about [m.P]: non-nil where the code relies
    on it, nil at the acquisition (where the value received is not nil). *)
Definition pc_ok (pc : PC) (b : option nat) : bool :=
  if bound_pc pc then bool_decide (is_Some b)
  else match pc with
       | Grab => bool_decide (b = None)
       | GrabBind v => bool_decide (b = None) && bool_decide (is_Some v)
       | _ => true
       end.

(** The P that a worker at [pc] with [m.P = b] owns: the one it has just
    received, or the one its [m.P] points to unless it has already
    published it. *)
Definition owned (pc : PC) (b : option nat) : option nat :=
  match pc with
  | GrabBind v => v
  | _ => if published pc then None else b
  end.

(** The P a worker owns. *)
Definition hold_of (m : nat) (w : World) : option nat :=
  match wpc w !! m, bind_of m w with
  | Some pc, Some b => owned pc b
  | _, _ => None
  end.

(** Every P has exactly one owner, the pool or one worker. *)
Definition one_owner (w : World) : Prop :=
  NoDup (pool w) ∧ (None ∉ pool w) ∧
  (∀ m, is_Some (bind_of m w) → is_Some (wpc w !! m)) ∧
  (∀ m pc b, wpc w !! m = Some pc → bind_of m w = Some b → pc_ok pc b = true) ∧
  (∀ m1 m2 p, hold_of m1 w = Some p → hold_of m2 w = Some p → m1 = m2) ∧
  (∀ m p, hold_of m w = Some p → Some p ∉ pool w) ∧
  (∀ p, p ∈ Ps (sched w) → Some p ∈ pool w ∨ ∃ m, hold_of m w = Some p).

(** No worker stands between the publication of its P and [m.P = nil]. *)
Definition nobody_publishing (w : World) : Prop :=
  map_Forall (λ _ pc, published pc = false) (wpc w).

(** No worker stands between the receive [p := <-s.availPs] and
    [m.P = p]. *)
Definition nobody_receiving (w : World) : Prop :=
  map_Forall (λ _ pc, receiving pc = false) (wpc w).

(** What one step of a worker does to its program counter, its [m.P] and
    the pool. *)
Inductive own_step :
  PC → option nat → list (option nat) →
  PC → option nat → list (option nat) → Prop :=
| own_keep pc b pl pc' :
    published pc = false → published pc' = false →
    receiving pc = false → receiving pc' = false →
    (pc_ok pc b = true → pc_ok pc' b = true) →
    own_step pc b pl pc' b pl
| own_publish pc b pl pc' :
    bound_pc pc = true → published pc' = true →
    own_step pc b pl pc' b (pl ++ [b])
| own_clear pc b pl pc' :
    published pc = true → published pc' = false → receiving pc' = false →
    pc_ok pc' None = true →
    own_step pc b pl pc' None pl
| own_recv b v pl :
    own_step Grab b (v :: pl) (GrabBind v) b pl
| own_bind b v pl pc' :
    bound_pc pc' = true →
    own_step (GrabBind v) b pl pc' v pl.

(** [main]'s setup followed by the first iteration of M0 up to and
    including the send [s.availPs <- m.P]. *)
Definition publishing_world : option World :=
  main_setup ≫= exec (replicate 7 (ActWorker 0)).

(** [main]'s setup, the first iteration of M0, which parks P0, a pause of
    the length of the cooldown, and the next iteration of M0 up to and
    including the receive [p := <-s.availPs]. *)
Definition receiving_world : option World :=
  main_setup ≫=
    exec (replicate 10 (ActWorker 0) ++ [ActTick cooldown] ++
          replicate 4 (ActWorker 0)).

(** * The sequential iteration (toysched/step3)

    No goroutines, no channels: [main] calls [Enqueue] and then
    [m0.Schedule()] itself. *)
Module Step3.

Record G : Type := mkG { G_ID : Z; Func : FuncBody; Status : string }.

Record P : Type := mkP { P_ID : Z; RunQ : list nat; NumG : Z }.

Record M : Type := mkM { M_ID : Z; M_P : option nat; M_G : option nat }.

Inductive Event : Type :=
| EvFunc (g : nat)                  (* the work routine ran *)
| EvDone                            (* Done!! *)
| EvIdle (mid : Z)                  (* M: No P or no Gs to run. *)
| EvStarting (mid pid gid : Z)      (* M on P: Starting G *)
| EvFinished (mid pid gid : Z).     (* M on P: Finished G *)

Record World : Type := mkWorld {
  gs : gmap nat G;
  ps : gmap nat P;
  ms : gmap nat M;
  out : list Event
}.

Definition set_Status (s : string) (x : G) : G := mkG (G_ID x) (Func x) s.
Definition set_queue (q : list nat) (n : Z) (x : P) : P := mkP (P_ID x) q n.
Definition set_M_G (g : option nat) (x : M) : M := mkM (M_ID x) (M_P x) g.

Definition put_G (g : nat) (x : G) (w : World) : World :=
  mkWorld (<[g := x]> (gs w)) (ps w) (ms w) (out w).
Definition put_P (p : nat) (x : P) (w : World) : World :=
  mkWorld (gs w) (<[p := x]> (ps w)) (ms w) (out w).
Definition put_M (m : nat) (x : M) (w : World) : World :=
  mkWorld (gs w) (ps w) (<[m := x]> (ms w)) (out w).
Definition print (e : Event) (w : World) : World :=
  mkWorld (gs w) (ps w) (ms w) (out w ++ [e]).

(** [g.Run()]: g.Func(); g.Status = "done"; Println("Done!!"). *)
Definition Run (g : nat) (w : World) : res World :=
  let* gv := deref (gs w !! g) in
  match Func gv with
  | FPanic msg => Panic msg
  | FReturn =>
      Ok (print EvDone (put_G g (set_Status "done" gv) (print (EvFunc g) w)))
  end.

(** [Enqueue]: append, count, mark runnable. *)
Definition Enqueue (p g : nat) (w : World) : res World :=
  let* pv := deref (ps w !! p) in
  let w1 := put_P p (set_queue (RunQ pv ++ [g]) (int_wrap (NumG pv + 1)) pv) w in
  let* gv := deref (gs w !! g) in
  Ok (put_G g (set_Status "runnable" gv) w1).

(** [m.Schedule()]: run the task at the head of the queue of [m.P]. *)
Definition Schedule (m : nat) (w : World) : res World :=
  let* mv := deref (ms w !! m) in
  let idle := Ok (print (EvIdle (M_ID mv)) w) in
  match M_P mv with
  | None => idle
  | Some p =>
      let* pv := deref (ps w !! p) in
      if NumG pv =? 0 then idle
      else
        match RunQ pv with
        | [] => Panic "index out of range [0] with length 0"
        | g :: rest =>
            let w1 := put_P p (set_queue rest (int_wrap (NumG pv - 1)) pv) w in
            let w2 := put_M m (set_M_G (Some g) mv) w1 in
            let* gv := deref (gs w !! g) in
            let w3 := print (EvStarting (M_ID mv) (P_ID pv) (G_ID gv))
                        (put_G g (set_Status "running" gv) w2) in
            let* w4 := Run g w3 in
            let w5 := put_M m (set_M_G None mv) w4 in
            let* gv4 := deref (gs w5 !! g) in
            Ok (print (EvFinished (M_ID mv) (P_ID pv) (G_ID gv))
                  (put_G g (set_Status "done" gv4) w5))
        end
  end.

Fixpoint Enqueue_all (p : nat) (l : list nat) (w : World) : res World :=
  match l with
  | [] => Ok w
  | g :: l' => let* w1 := Enqueue p g w in Enqueue_all p l' w1
  end.

Fixpoint Schedule_n (n : nat) (m : nat) (w : World) : res World :=
  match n with
  | O => Ok w
  | S n' => let* w1 := Schedule m w in Schedule_n n' m w1
  end.

Definition run_events (mid pid : Z) (g : nat) (gid : Z) : list Event :=
  [EvStarting mid pid gid; EvFunc g; EvDone; EvFinished mid pid gid].

Definition gid_of (gm : gmap nat G) (g : nat) : Z :=
  default 0 (G_ID <$> gm !! g).

(** A task that exists and whose work routine returns. *)
Definition plain_task (gm : gmap nat G) (g : nat) : Prop :=
  ∃ gv, gm !! g = Some gv ∧ Func gv = FReturn.

(** [main]: one P, one M on it, three tasks with ids 0, 1, 2. *)
Definition main_world : World :=
  mkWorld
    (<[0%nat := mkG 0 FReturn "runnable"]>
       (<[1%nat := mkG 1 FReturn "runnable"]>
          (<[2%nat := mkG 2 FReturn "runnable"]> ∅)))
    (<[0%nat := mkP 0 [] 0]> ∅)
    (<[0%nat := mkM 0 (Some 0%nat) None]> ∅)
    [].

End Step3.

(** * Escape-analysis demo (memgc/step3): two ways to label a slice of ids *)

(** [fmt.Sprintf("item-%d", id)]. *)
Definition Sprintf_item (id : Z) : string := "item-" +:+ pretty id.

(** [for i, id := range ids { results[i] = fmt.Sprintf("item-%d", id) }],
    from index [i] on; an assignment outside the slice is a run-time
    panic. *)
Fixpoint fill (i : nat) (ids : list Z) (results : list string)
  : res (list string) :=
  match ids with
  | [] => Ok results
  | id :: rest =>
      if decide (i < length results)%nat
      then fill (S i) rest (<[i := Sprintf_item id]> results)
      else Panic "index out of range"
  end.

(** [results := make([]string, len(ids))], the loop, [return &results]. *)
Definition processDataEscaping (ids : list Z) : res (list string) :=
  fill 0 ids (replicate (length ids) "").

(** The loop of [processDataStack], whose assignment is guarded by
    [if i < len(results)]. *)
Fixpoint fill_guarded (i : nat) (ids : list Z) (results : list string)
  : list string :=
  match ids with
  | [] => results
  | id :: rest =>
      fill_guarded (S i) rest
        (if decide (i < length results)%nat
         then <[i := Sprintf_item id]> results
         else results)
  end.

(** [var results [100]string], the loop over [ids[:len(ids)]], and
    [return results[:len(ids)]], which panics when [len(ids)] exceeds the
    length of the array. *)
Definition processDataStack (ids : list Z) : res (list string) :=
  let results := fill_guarded 0 (take (length ids) ids) (replicate 100 "") in
  if decide (length ids ≤ length results)%nat
  then Ok (take (length ids) results)
  else Panic "slice bounds out of range".

(** * The last iteration: the pool, the mutex and whole iterations *)

(** The capacity of [s.availPs], once the channel has been made. *)
Definition pool_cap (w : World) : option nat := cap <$> availPs (sched w).

(** Program points of a worker between [s.mu.Lock()] and [s.mu.Unlock()]. *)
Definition in_critical (pc : PC) : bool :=
  match pc with GlobalCheck | UnlockStolen | UnlockPark => true | _ => false end.

(** [mutex_excl], and no one but a worker holds the mutex: this is what the
    steps of the program preserve when every call of [main] is one step
    ([NewG] and the overflow branch of [Enqueue] release the mutex before
    they return). *)
Definition mutex_ok (w : World) : Prop :=
  (∀ m1 m2 pc1 pc2,
     wpc w !! m1 = Some pc1 → wpc w !! m2 = Some pc2 →
     in_critical pc1 = true → in_critical pc2 = true → m1 = m2) ∧
  (mu (sched w) = true ↔
   ∃ m pc, wpc w !! m = Some pc ∧ in_critical pc = true).

(** At most one worker is between [Lock] and [Unlock], and the mutex is
    held while one is. *)
Definition mutex_excl (w : World) : Prop :=
  (∀ m1 m2 pc1 pc2,
     wpc w !! m1 = Some pc1 → wpc w !! m2 = Some pc2 →
     in_critical pc1 = true → in_critical pc2 = true → m1 = m2) ∧
  (∀ m pc, wpc w !! m = Some pc → in_critical pc = true →
           mu (sched w) = true).

(** Every goroutine [m.run(s)] belongs to an M of the scheduler. *)
Definition workers_ok (w : World) : Prop :=
  ∀ m, is_Some (wpc w !! m) → is_Some (ms w !! m).

(** What an iteration prints when it steals a plain task and runs it. *)
Definition steal_events (mid pid : Z) (g : nat) (gid : Z) : list Event :=
  EvStole mid gid pid :: run_events mid pid g gid.

(** The goroutines [m.run(s)] that have not returned. *)
Definition running (w : World) : gmap nat PC :=
  filter (λ x : nat * PC, x.2 ≠ Exited) (wpc w).

(** The counter of [s.wg] is the number of goroutines [m.run(s)] that have
    not returned. *)
Definition wg_ok (w : World) : Prop :=
  wg (sched w) = Z.of_nat (size (running w)).

(** ** The tasks under every interleaving *)

(** The tasks that a list of actions submits, in order. *)
Definition submitted (acts : list Action) : list nat :=
  omap (λ a, match a with ActEnqueue _ g => Some g | _ => None end) acts.

(** The channel of a task, when it has one, has not been closed. *)
Definition chan_open (gv : G) : Prop :=
  ∀ c, blockChan gv = Some c → closed c = false.

(** The task is in the global queue or in the run queue of some P. *)
Definition queued (g : nat) (w : World) : Prop :=
  g ∈ globalQ (sched w) ∨ ∃ p pv, ps w !! p = Some pv ∧ g ∈ RunQ pv.

(** The task a worker has taken off its queue and not yet left behind. *)
Definition task_of (pc : PC) : option nat :=
  match pc with InRun g _ | AfterRun g => Some g | _ => None end.

(** Points of [g.Run()] up to and including [close(g.blockChan)]. *)
Definition before_close (pc : PC) : bool :=
  match pc with
  | InRun _ RFunc | InRun _ RRecv | InRun _ RClose => true
  | _ => false
  end.

(** Points of [g.Run()] inside [if g.blockChan != nil]. *)
Definition at_channel (pc : PC) : bool :=
  match pc with InRun _ RRecv | InRun _ RClose => true | _ => false end.

(** Points of the branch "G blocked, handing off P". *)
Definition in_handoff (pc : PC) : bool :=
  match pc with HandoffSend | HandoffClear | HandoffStamp => true | _ => false end.

(** Points from which the next access to the run queue is [m.P.RunQ[0]]. *)
Definition about_to_pop (pc : PC) : bool :=
  match pc with Pop | UnlockStolen => true | _ => false end.

(** What the program point of a worker says about the task it holds. *)
Definition task_fits (pc : PC) (gv : G) : Prop :=
  (before_close pc = true → chan_open gv) ∧
  (at_channel pc = true → is_Some (blockChan gv)) ∧
  (∀ g, pc = AfterRun g → Status gv = "done").

(** Every task is in at most one place - one queue, once, or one worker -
    and the tasks [S] are those that have been submitted. *)
Record tasks_ok (S : list nat) (w : World) : Prop := mk_tasks_ok {
  t_global : NoDup (globalQ (sched w));
  t_local : ∀ p pv, ps w !! p = Some pv → NoDup (RunQ pv);
  t_apart : ∀ p1 p2 pv1 pv2 g,
    ps w !! p1 = Some pv1 → ps w !! p2 = Some pv2 →
    g ∈ RunQ pv1 → g ∈ RunQ pv2 → p1 = p2;
  t_either : ∀ p pv g,
    ps w !! p = Some pv → g ∈ RunQ pv → g ∉ globalQ (sched w);
  t_queued : ∀ g, queued g w →
    g ∈ S ∧ ∃ gv, gs w !! g = Some gv ∧ chan_open gv;
  t_held : ∀ m pc g, wpc w !! m = Some pc → task_of pc = Some g →
    g ∈ S ∧ ¬ queued g w ∧ ∃ gv, gs w !! g = Some gv ∧ task_fits pc gv;
  t_one : ∀ m1 m2 pc1 pc2 g,
    wpc w !! m1 = Some pc1 → wpc w !! m2 = Some pc2 →
    task_of pc1 = Some g → task_of pc2 = Some g → m1 = m2;
  t_new : ∀ g gv, gs w !! g = Some gv → g ∉ S → chan_open gv;
  t_known : ∀ g, g ∈ S → is_Some (gs w !! g);
  t_branch : ∀ m pc, wpc w !! m = Some pc → in_handoff pc = false;
  t_pop : ∀ m pc mv p pv,
    wpc w !! m = Some pc → about_to_pop pc = true →
    ms w !! m = Some mv → M_P mv = Some p → ps w !! p = Some pv →
    RunQ pv ≠ []
}.

(** The Ps in the pool, the Ps that the Ms point to and the Ps that the
    workers own exist. *)
Definition Ps_exist (w : World) : Prop :=
  (∀ p, Some p ∈ pool w → is_Some (ps w !! p)) ∧
  (∀ m p, bind_of m w = Some (Some p) → is_Some (ps w !! p)) ∧
  (∀ m p, hold_of m w = Some p → is_Some (ps w !! p)).

(** The state of the program after a setup that gave every P one owner,
    while the tasks [S] have been submitted, each of them once. *)
Definition sound (S : list nat) (w : World) : Prop :=
  workers_ok w ∧ mutex_ok w ∧ one_owner w ∧ queue_len_ok w ∧ wg_ok w ∧
  Ps_exist w ∧ tasks_ok S w.

(** What a step of the worker [m] does to the tasks. *)
Inductive task_step (w w' : World) (pc : PC) (mv : M) (pc' : PC) (mv' : M)
  : Prop :=
| ts_quiet :
    gs w' = gs w → ps w' = ps w →
    globalQ (sched w') = globalQ (sched w) →
    task_of pc' = None → in_handoff pc' = false → about_to_pop pc' = false →
    task_step w w' pc mv pc' mv'
| ts_unlocked :
    gs w' = gs w → ps w' = ps w →
    globalQ (sched w') = globalQ (sched w) →
    pc = UnlockStolen → pc' = Pop → mv' = mv →
    task_step w w' pc mv pc' mv'
| ts_checked p pv :
    gs w' = gs w → ps w' = ps w →
    globalQ (sched w') = globalQ (sched w) →
    pc' = Pop → mv' = mv →
    M_P mv = Some p → ps w !! p = Some pv → NumG pv ≠ 0 →
    task_step w w' pc mv pc' mv'
| ts_steal p pv g rest n :
    gs w' = gs w → pc' = UnlockStolen → mv' = mv →
    M_P mv = Some p → ps w !! p = Some pv →
    globalQ (sched w) = g :: rest → globalQ (sched w') = rest →
    ps w' = <[p := set_queue (RunQ pv ++ [g]) n pv]> (ps w) →
    task_step w w' pc mv pc' mv'
| ts_pop p pv g rest n gv :
    pc = Pop → pc' = InRun g RFunc →
    M_P mv = Some p → M_P mv' = Some p →
    ps w !! p = Some pv → RunQ pv = g :: rest →
    ps w' = <[p := set_queue rest n pv]> (ps w) →
    gs w !! g = Some gv →
    gs w' = <[g := set_Status "running" gv]> (gs w) →
    globalQ (sched w') = globalQ (sched w) →
    task_step w w' pc mv pc' mv'
| ts_run g gv gv' :
    task_of pc = Some g → task_of pc' = Some g →
    gs w !! g = Some gv → gs w' = <[g := gv']> (gs w) →
    ps w' = ps w → globalQ (sched w') = globalQ (sched w) →
    (task_fits pc gv → task_fits pc' gv') →
    task_step w w' pc mv pc' mv'
| ts_not_done g gv :
    pc = AfterRun g → gs w !! g = Some gv → Status gv ≠ "done" →
    task_step w w' pc mv pc' mv'
| ts_in_handoff :
    in_handoff pc = true →
    task_step w w' pc mv pc' mv'.

(** The loop of [run] seen from an idle worker: some time passes (the
    sleeps of the loop), then comes the next iteration; one round per
    delay in [ds]. *)
Fixpoint idle_rounds (ds : list Z) (m : nat) (w : World) : res World :=
  match ds with
  | [] => Ok w
  | d :: ds' =>
      let* w1 := scheduleOnce m (with_clock (clock w + d) w) in
      idle_rounds ds' m w1
  end.

(** The result of [scheduleOnce] when it returns. *)
Definition scheduleOnce_opt (m : nat) (w : World) : option World :=
  match scheduleOnce m w with Ok w' => Some w' | _ => None end.

(** The line that announces a blocking handoff,
    "M on P: G blocked, handing off P". *)
Definition is_handoff (e : Event) : bool :=
  match e with EvBlocked _ _ _ => true | _ => false end.

(** Where [scheduleOnce] stands when it is executed from its entry by the
    worker alone: never in the handoff branch, and after [g.Run()] only
    with [g] done. *)
Definition before_handoff (pc : PC) (w : World) : Prop :=
  match pc with
  | HandoffSend | HandoffClear | HandoffStamp => False
  | AfterRun g => (Status <$> gs w !! g) = Some "done"
  | _ => True
  end.

(** * The iteration with a simulated blocking call (src/unnamed/part_000)

    A sequential program: [main] calls [Run], whose loop polls the Ms and
    calls [Schedule] itself; there is no goroutine besides [main].  The
    structs [G] and [P] are those of the last iteration. *)
Module Step4.

Record M : Type := mkM { M_ID : Z; M_P : option nat; M_G : option nat }.

Record Scheduler : Type := mkScheduler {
  Ps : list nat;
  Ms : list nat;
  mu : bool;
  nextGID : Z;
  idleMs : list nat;
  done : bool
}.

Inductive Event : Type :=
| EvFunc (g : nat)                  (* the work routine of the G at g ran *)
| EvDone                            (* Goroutine is done with task! *)
| EvIdling (mid : Z)                (* M: Idling (no P or Gs). *)
| EvStarting (mid pid gid : Z)      (* M on P: Starting G *)
| EvBlocking (gid : Z)              (* G: Blocking (e.g., I/O wait)... *)
| EvUnblocked (gid : Z)             (* G: Unblocked! *)
| EvFinished (mid pid gid : Z)      (* M on P: Finished G *)
| EvHanded (pid mid : Z)            (* Scheduler: Handed P to idle M *)
| EvStart                           (* === Starting Toy Schedule === *)
| EvComplete.                       (* === Schedule Complete === *)

Record World : Type := mkWorld {
  sched : Scheduler;
  gs : gmap nat G;
  ps : gmap nat P;
  ms : gmap nat M;
  clock : Time;
  out : list Event
}.

Definition set_M_P (p : option nat) (x : M) : M := mkM (M_ID x) p (M_G x).
Definition set_M_G (g : option nat) (x : M) : M := mkM (M_ID x) (M_P x) g.

Definition set_Ps (l : list nat) (s : Scheduler) : Scheduler :=
  mkScheduler l (Ms s) (mu s) (nextGID s) (idleMs s) (done s).
Definition set_Ms (l : list nat) (s : Scheduler) : Scheduler :=
  mkScheduler (Ps s) l (mu s) (nextGID s) (idleMs s) (done s).
Definition set_mu (b : bool) (s : Scheduler) : Scheduler :=
  mkScheduler (Ps s) (Ms s) b (nextGID s) (idleMs s) (done s).
Definition set_nextGID (n : Z) (s : Scheduler) : Scheduler :=
  mkScheduler (Ps s) (Ms s) (mu s) n (idleMs s) (done s).
Definition set_idleMs (l : list nat) (s : Scheduler) : Scheduler :=
  mkScheduler (Ps s) (Ms s) (mu s) (nextGID s) l (done s).
Definition set_done (b : bool) (s : Scheduler) : Scheduler :=
  mkScheduler (Ps s) (Ms s) (mu s) (nextGID s) (idleMs s) b.

Definition with_sched (s : Scheduler) (w : World) : World :=
  mkWorld s (gs w) (ps w) (ms w) (clock w) (out w).
Definition put_G (g : nat) (x : G) (w : World) : World :=
  mkWorld (sched w) (<[g := x]> (gs w)) (ps w) (ms w) (clock w) (out w).
Definition put_P (p : nat) (x : P) (w : World) : World :=
  mkWorld (sched w) (gs w) (<[p := x]> (ps w)) (ms w) (clock w) (out w).
Definition put_M (m : nat) (x : M) (w : World) : World :=
  mkWorld (sched w) (gs w) (ps w) (<[m := x]> (ms w)) (clock w) (out w).
Definition print (e : Event) (w : World) : World :=
  mkWorld (sched w) (gs w) (ps w) (ms w) (clock w) (out w ++ [e]).
(** [time.Sleep(d)]. *)
Definition Sleep (d : Z) (w : World) : World :=
  mkWorld (sched w) (gs w) (ps w) (ms w) (clock w + d) (out w).

Definition empty_world : World :=
  mkWorld (mkScheduler [] [] false 0 [] false) ∅ ∅ ∅ 1 [].

(** The mutex in a program with one goroutine: [Lock] of a held mutex
    never returns. *)
Definition Lock (w : World) : res World :=
  if mu (sched w) then Blocks
  else Ok (with_sched (set_mu true (sched w)) w).

Definition Unlock (w : World) : res World :=
  if mu (sched w) then Ok (with_sched (set_mu false (sched w)) w)
  else Panic "sync: unlock of unlocked mutex".

(** [g.Run()].  No other goroutine exists that could send on
    [g.blockChan]: the receive returns only on a closed channel, and the
    [close] that follows it then panics. *)
Definition Run (g : nat) (w : World) : res World :=
  let* gv := deref (gs w !! g) in
  match Func gv with
  | FPanic msg => Panic msg
  | FReturn =>
      let w1 := print (EvFunc g) w in
      let* w2 :=
        match blockChan gv with
        | None => Ok w1
        | Some c =>
            if closed c then Panic "close of closed channel" else Blocks
        end in
      Ok (print EvDone (put_G g (set_Status "done" gv) w2))
  end.

Definition NewG (f : FuncBody) (block : bool) (w : World) : res (nat * World) :=
  let* w1 := Lock w in
  let id := nextGID (sched w1) in
  let w2 := with_sched (set_nextGID (int_wrap (id + 1)) (sched w1)) w1 in
  let* w3 := Unlock w2 in
  let gv := mkG id f "runnable" (if block then Some make_chan else None) in
  let g := fresh (dom (gs w3)) in
  Ok (g, put_G g gv w3).

Definition AddP (id : Z) (w : World) : nat * World :=
  let p := fresh (dom (ps w)) in
  (p, with_sched (set_Ps (Ps (sched w) ++ [p]) (sched w))
        (put_P p (mkP id [] 0) w)).

Definition AddM (id pIndex : Z) (w : World) : res (nat * World) :=
  let s := sched w in
  if Z.of_nat (length (Ps s)) <=? pIndex then Panic "P index out of bounds"
  else if pIndex <? 0 then Panic "index out of range"
  else
    match Ps s !! Z.to_nat pIndex with
    | None => Panic "index out of range"
    | Some p =>
        let m := fresh (dom (ms w)) in
        Ok (m, with_sched (set_Ms (Ms s ++ [m]) s)
                 (put_M m (mkM id (Some p) None) w))
    end.

Definition Enqueue (p g : nat) (w : World) : res World :=
  let* pv := deref (ps w !! p) in
  let w1 := put_P p (set_queue (RunQ pv ++ [g]) (int_wrap (NumG pv + 1)) pv) w in
  let* gv := deref (gs w !! g) in
  Ok (put_G g (set_Status "runnable" gv) w1).

(** [s.mu.Lock(); s.idleMs = append(s.idleMs, m); s.mu.Unlock()]. *)
Definition park_M (m : nat) (w : World) : res World :=
  let* w1 := Lock w in
  Unlock (with_sched (set_idleMs (idleMs (sched w1) ++ [m]) (sched w1)) w1).

Definition Second : Z := 1000 * Millisecond.

(** [m.Schedule(s)]. *)
Definition Schedule (m : nat) (w : World) : res World :=
  let* mv := deref (ms w !! m) in
  let idle :=
    let* w1 := park_M m w in Ok (print (EvIdling (M_ID mv)) w1) in
  match M_P mv with
  | None => idle
  | Some p =>
      let* pv := deref (ps w !! p) in
      if NumG pv =? 0 then idle
      else
        match RunQ pv with
        | [] => Panic "index out of range [0] with length 0"
        | g :: rest =>
            let w1 := put_P p (set_queue rest (int_wrap (NumG pv - 1)) pv) w in
            let w2 := put_M m (set_M_G (Some g) mv) w1 in
            let* gv := deref (gs w !! g) in
            let w3 := print (EvStarting (M_ID mv) (P_ID pv) (G_ID gv))
                        (put_G g (set_Status "running" gv) w2) in
            match blockChan gv with
            | Some _ =>
                let w4 := print (EvBlocking (G_ID gv)) w3 in
                let w5 := put_M m (set_M_P None (set_M_G (Some g) mv)) w4 in
                let* w6 := park_M m w5 in
                let w7 := print (EvUnblocked (G_ID gv)) (Sleep (1 * Second) w6) in
                Ok (put_M m (set_M_G None (set_M_P None (set_M_G (Some g) mv))) w7)
            | None =>
                let* w4 := Run g w3 in
                let w5 := put_M m (set_M_G None (set_M_G (Some g) mv)) w4 in
                let* gv4 := deref (gs w5 !! g) in
                Ok (print (EvFinished (M_ID mv) (P_ID pv) (G_ID gv))
                      (put_G g (set_Status "done" gv4) w5))
            end
        end
  end.

(** [s.bindIdleM(p)]; the deferred [Unlock] runs on both returns. *)
Definition bindIdleM (p : nat) (w : World) : res (option nat * World) :=
  let* w1 := Lock w in
  match idleMs (sched w1) with
  | [] => let* w2 := Unlock w1 in Ok (None, w2)
  | m :: rest =>
      let w2 := with_sched (set_idleMs rest (sched w1)) w1 in
      let* mv := deref (ms w2 !! m) in
      let w3 := put_M m (set_M_P (Some p) mv) w2 in
      let* pv := deref (ps w3 !! p) in
      let* w4 := Unlock (print (EvHanded (P_ID pv) (M_ID mv)) w3) in
      Ok (Some m, w4)
  end.

(** [for _, m := range s.Ms { if m.P != nil && m.P.NumG > 0 { m.Schedule(s) } }] *)
Fixpoint poll_Ms (l : list nat) (w : World) : res World :=
  match l with
  | [] => Ok w
  | m :: l' =>
      let* mv := deref (ms w !! m) in
      let* w1 :=
        match M_P mv with
        | None => Ok w
        | Some p =>
            let* pv := deref (ps w !! p) in
            if 0 <? NumG pv then Schedule m w else Ok w
        end in
      poll_Ms l' w1
  end.

(** [for _, p := range s.Ps { if p.NumG > 0 { empty = false;
    s.bindIdleM(p); break } }]; the result is [empty]. *)
Fixpoint find_work (l : list nat) (w : World) : res (bool * World) :=
  match l with
  | [] => Ok (true, w)
  | p :: l' =>
      let* pv := deref (ps w !! p) in
      if 0 <? NumG pv then
        let* (_, w1) := bindIdleM p w in Ok (false, w1)
      else find_work l' w
  end.

(** The body of the loop [for !s.done] of [Run]. *)
Definition Run_iter (w : World) : res World :=
  let* w1 := poll_Ms (Ms (sched w)) w in
  let* (empty, w2) := find_work (Ps (sched w1)) w1 in
  let w3 := if empty : bool
            then with_sched (set_done true (sched w2)) w2 else w2 in
  Ok (Sleep (50 * Millisecond) w3).

(** The loop of [Run], run for at most [fuel] iterations; [None] when the
    loop has not ended by then. *)
Fixpoint Run_loop (fuel : nat) (w : World) : option (res World) :=
  match fuel with
  | O => None
  | S fuel' =>
      if done (sched w) then Some (Ok w)
      else
        match Run_iter w with
        | Ok w1 => Run_loop fuel' w1
        | Blocks => Some Blocks
        | Panic msg => Some (Panic msg)
        end
  end.

(** [s.Run()]. *)
Definition Scheduler_Run (fuel : nat) (w : World) : option (res World) :=
  match Run_loop fuel (print EvStart w) with
  | Some (Ok w1) => Some (Ok (print EvComplete w1))
  | r => r
  end.

(** A task with a channel: [NewG(f, true)]. *)
Definition blocking (gm : gmap nat G) (g : nat) : Prop :=
  ∃ gv c, gm !! g = Some gv ∧ blockChan gv = Some c.

(** No M can take a task: every M is unbound or bound to an empty P, and
    no M waits in [s.idleMs]. *)
Definition nobody_can_run (w : World) : Prop :=
  idleMs (sched w) = [] ∧ mu (sched w) = false ∧
  Forall (λ m, ∃ mv, ms w !! m = Some mv ∧
                 match M_P mv with
                 | None => True
                 | Some p => ∃ pv, ps w !! p = Some pv ∧ NumG pv <= 0
                 end) (Ms (sched w)).

(** Some P of the scheduler records a non-empty queue. *)
Definition work_left (w : World) : Prop :=
  Forall (λ p, is_Some (ps w !! p)) (Ps (sched w)) ∧
  Exists (λ p, ∃ pv, ps w !! p = Some pv ∧ 0 < NumG pv) (Ps (sched w)).

(** What the scheduler may do to the tasks between two worlds: the
    channels stay as they are, the work routine of a blocking task is not
    called and no blocking task becomes done. *)
Definition blocking_tasks_kept (w w' : World) : Prop :=
  (∀ g, (blockChan <$> gs w' !! g) = (blockChan <$> gs w !! g)) ∧
  (∃ o, out w' = out w ++ o ∧ ∀ g, EvFunc g ∈ o → ¬ blocking (gs w) g) ∧
  (∀ g, blocking (gs w) g →
        (Status <$> gs w' !! g) = Some "done" →
        (Status <$> gs w !! g) = Some "done").

(** [main] up to the call of [Run]: two Ps with an M each, the tasks G0
    and G2 on P0 and G1 on P1; G2 is the blocking one. *)
Definition main_world : res World :=
  let '(p0, w) := AddP 0 empty_world in
  let* (_, w) := AddM 0 0 w in
  let '(p1, w) := AddP 1 w in
  let* (_, w) := AddM 1 1 w in
  let* (g0, w) := NewG FReturn false w in
  let* (g1, w) := NewG FReturn false w in
  let* (g2, w) := NewG FReturn true w in
  let w := with_sched (set_nextGID 3 (sched w)) w in
  let* w := Enqueue p0 g0 w in
  let* w := Enqueue p1 g1 w in
  Enqueue p0 g2 w.

(** Two Ps with an M each; the tasks a, b on P0 and a blocking task
    followed by a task x on P1; then two iterations of the loop of [Run]. *)
Definition stranded_scenario : res World :=
  let '(p0, w) := AddP 0 empty_world in
  let* (_, w) := AddM 0 0 w in
  let '(p1, w) := AddP 1 w in
  let* (_, w) := AddM 1 1 w in
  let* (a, w) := NewG FReturn false w in
  let* (b, w) := NewG FReturn false w in
  let* (c, w) := NewG FReturn true w in
  let* (x, w) := NewG FReturn false w in
  let* w := Enqueue p0 a w in
  let* w := Enqueue p0 b w in
  let* w := Enqueue p1 c w in
  let* w := Enqueue p1 x w in
  let* w := Run_iter w in
  Run_iter w.

End Step4.

(** * The iteration with a handoff channel per P (toysched/step5)

    [scheduleOnce] as it executes when the goroutine of the M runs from
    the entry of the method to its return without another goroutine
    touching the scheduler in between. *)
Module Step5.

(** [handoff] is a [chan *P] of capacity 1: the values it buffers. *)
Record P : Type := mkP {
  P_ID : Z;
  RunQ : list nat;
  NumG : Z;
  handoff : list nat
}.

Record M : Type := mkM {
  M_ID : Z;
  M_P : option nat;
  M_G : option nat;
  stop : Chan
}.

Record Scheduler : Type := mkScheduler {
  Ps : list nat;
  Ms : list nat;
  mu : bool;
  nextGID : Z;
  idleMs : list nat;
  globalQ : list nat;
  wg : Z;
  done : bool
}.

Inductive Event : Type :=
| EvFunc (g : nat)                  (* the work routine of the G at g ran *)
| EvWaiting                         (* G: Waiting for unblock signal... *)
| EvResumed                         (* G: Resumed after unblock! *)
| EvDone                            (* Goroutine is done with task! *)
| EvGrabbed (mid pid : Z)           (* M: Grabbed handed-off P *)
| EvStole (mid gid pid : Z)         (* M: Stole G from global to P *)
| EvParking (mid pid : Z)           (* M: Parking, handing off P *)
| EvStarting (mid pid gid : Z)      (* M on P: Starting G *)
| EvFinished (mid pid gid : Z)      (* M on P: Finished G *)
| EvBlocked (mid pid gid : Z).      (* M on P: G blocked, handing off P *)

Record World : Type := mkWorld {
  sched : Scheduler;
  gs : gmap nat G;
  ps : gmap nat P;
  ms : gmap nat M;
  out : list Event
}.

Definition set_queue (q : list nat) (n : Z) (x : P) : P :=
  mkP (P_ID x) q n (handoff x).
Definition set_handoff (h : list nat) (x : P) : P :=
  mkP (P_ID x) (RunQ x) (NumG x) h.
Definition set_M_P (p : option nat) (x : M) : M :=
  mkM (M_ID x) p (M_G x) (stop x).
Definition set_M_G (g : option nat) (x : M) : M :=
  mkM (M_ID x) (M_P x) g (stop x).
Definition set_mu (b : bool) (s : Scheduler) : Scheduler :=
  mkScheduler (Ps s) (Ms s) b (nextGID s) (idleMs s) (globalQ s) (wg s) (done s).
Definition set_globalQ (q : list nat) (s : Scheduler) : Scheduler :=
  mkScheduler (Ps s) (Ms s) (mu s) (nextGID s) (idleMs s) q (wg s) (done s).

Definition with_sched (s : Scheduler) (w : World) : World :=
  mkWorld s (gs w) (ps w) (ms w) (out w).
Definition put_G (g : nat) (x : G) (w : World) : World :=
  mkWorld (sched w) (<[g := x]> (gs w)) (ps w) (ms w) (out w).
Definition put_P (p : nat) (x : P) (w : World) : World :=
  mkWorld (sched w) (gs w) (<[p := x]> (ps w)) (ms w) (out w).
Definition put_M (m : nat) (x : M) (w : World) : World :=
  mkWorld (sched w) (gs w) (ps w) (<[m := x]> (ms w)) (out w).
Definition print (e : Event) (w : World) : World :=
  mkWorld (sched w) (gs w) (ps w) (ms w) (out w ++ [e]).

Definition Lock (w : World) : res World :=
  if mu (sched w) then Blocks
  else Ok (with_sched (set_mu true (sched w)) w).

(** [Unlock] of a mutex that is not locked is a fatal error of the
    runtime. *)
Definition Unlock (w : World) : res World :=
  if mu (sched w) then Ok (with_sched (set_mu false (sched w)) w)
  else Panic "sync: unlock of unlocked mutex".

(** [g.Run()]: the receive completes when a sender is parked on the
    channel or the channel is closed, and waits otherwise; the [close]
    that follows makes any further parked sender panic. *)
Definition Run (g : nat) (w : World) : res World :=
  let* gv := deref (gs w !! g) in
  match Func gv with
  | FPanic msg => Panic msg
  | FReturn =>
      let w1 := print (EvFunc g) w in
      match blockChan gv with
      | None => Ok (print EvDone (put_G g (set_Status "done" gv) w1))
      | Some c =>
          let w2 := print EvWaiting w1 in
          match sendq c with
          | _ :: q =>
              let gv1 := set_blockChan (Some (mkChan true [])) gv in
              if closed c then Panic "close of closed channel"
              else
                match q with
                | [] => Ok (print EvDone
                              (put_G g (set_Status "done" gv1)
                                 (print EvResumed w2)))
                | _ :: _ => Panic "send on closed channel"
                end
          | [] =>
              if closed c then Panic "close of closed channel" else Blocks
          end
      end
  end.

(** [p.handoff <- v] on the channel of capacity 1. *)
Definition handoff_send (p v : nat) (w : World) : res World :=
  let* pv := deref (ps w !! p) in
  match handoff pv with
  | [] => Ok (put_P p (set_handoff [v] pv) w)
  | _ :: _ => Blocks
  end.

(** The loop of the acquisition:
    [for _, p := range s.Ps { if len(p.handoff) > 0 { m.P = <-p.handoff;
    Printf(...); s.mu.Unlock(); break } }]. *)
Fixpoint grab (m : nat) (l : list nat) (w : World) : res World :=
  match l with
  | [] => Ok w
  | p :: l' =>
      let* pv := deref (ps w !! p) in
      match handoff pv with
      | [] => grab m l' w
      | v :: rest =>
          let* mv := deref (ms w !! m) in
          let w1 := put_M m (set_M_P (Some v) mv)
                      (put_P p (set_handoff rest pv) w) in
          let* vv := deref (ps w1 !! v) in
          Unlock (print (EvGrabbed (M_ID mv) (P_ID vv)) w1)
      end
  end.

(** [s.availPs]-less park of this iteration:
    [Printf(...); m.P.handoff <- m.P; m.P = nil; return]. *)
Definition hand_off (m : nat) (e : Event) (w : World) : res World :=
  let* mv := deref (ms w !! m) in
  let* p := deref (M_P mv) in
  let* w1 := handoff_send p p (print e w) in
  Ok (put_M m (set_M_P None mv) w1).

(** From the comment "Run a G." to the end of [scheduleOnce]. *)
Definition run_head (m : nat) (w : World) : res World :=
  let* mv := deref (ms w !! m) in
  let* p := deref (M_P mv) in
  let* pv := deref (ps w !! p) in
  match RunQ pv with
  | [] => Panic "index out of range [0] with length 0"
  | g :: rest =>
      let w1 := put_P p (set_queue rest (int_wrap (NumG pv - 1)) pv) w in
      let w2 := put_M m (set_M_G (Some g) mv) w1 in
      let* gv := deref (gs w !! g) in
      let w3 := print (EvStarting (M_ID mv) (P_ID pv) (G_ID gv))
                  (put_G g (set_Status "running" gv) w2) in
      let* w4 := Run g w3 in
      let w5 := put_M m (set_M_G None (set_M_G (Some g) mv)) w4 in
      let* gv4 := deref (gs w5 !! g) in
      if String.eqb (Status gv4) "done" then
        Ok (print (EvFinished (M_ID mv) (P_ID pv) (G_ID gv)) w5)
      else
        hand_off m (EvBlocked (M_ID mv) (P_ID pv) (G_ID gv)) w5
  end.

(** From [if m.P.NumG == 0] to the end of [scheduleOnce]. *)
Definition with_P (m : nat) (w : World) : res World :=
  let* mv := deref (ms w !! m) in
  let* p := deref (M_P mv) in
  let* pv := deref (ps w !! p) in
  if NumG pv =? 0 then
    let* w1 := Lock w in
    let* w2 :=
      match globalQ (sched w1) with
      | g :: rest =>
          let w2 := with_sched (set_globalQ rest (sched w1)) w1 in
          let w3 := put_P p (set_queue (RunQ pv ++ [g])
                               (int_wrap (NumG pv + 1)) pv) w2 in
          let* gv := deref (gs w !! g) in
          Ok (print (EvStole (M_ID mv) (G_ID gv) (P_ID pv)) w3)
      | [] => Ok w1
      end in
    let* w3 := Unlock w2 in
    let* pv3 := deref (ps w3 !! p) in
    if NumG pv3 =? 0 then
      hand_off m (EvParking (M_ID mv) (P_ID pv3)) w3
    else run_head m w3
  else run_head m w.

Definition scheduleOnce (m : nat) (w : World) : res World :=
  let* mv := deref (ms w !! m) in
  match M_P mv with
  | Some _ => with_P m w
  | None =>
      let* w1 := Lock w in
      let* w2 := grab m (Ps (sched w1)) w1 in
      let* w3 := Unlock w2 in
      let* mv3 := deref (ms w3 !! m) in
      match M_P mv3 with
      | None => Ok w3
      | Some _ => with_P m w3
      end
  end.

(** The Ps of the scheduler exist, and so do the Ps in their handoff
    channels. *)
Definition Ps_ok (w : World) : Prop :=
  Forall (λ p, ∃ pv, ps w !! p = Some pv ∧
                 Forall (λ v, is_Some (ps w !! v)) (handoff pv))
    (Ps (sched w)).

(** Some P of the scheduler has a value in its handoff channel. *)
Definition handed_off (w : World) : Prop :=
  Exists (λ p, ∃ pv, ps w !! p = Some pv ∧ handoff pv ≠ []) (Ps (sched w)).

(** [main]'s two Ps and two Ms, M0 on P0 and M1 on P1, nothing queued. *)
Definition setup_world : World :=
  mkWorld (mkScheduler [0; 1]%nat [0; 1]%nat false 0 [] [] 2 false)
    ∅
    (<[0%nat := mkP 0 [] 0 []]> (<[1%nat := mkP 1 [] 0 []]> ∅))
    (<[0%nat := mkM 0 (Some 0%nat) None make_chan]>
       (<[1%nat := mkM 1 (Some 1%nat) None make_chan]> ∅))
    [].

End Step5.
(** * Basic facts *)

Lemma int_wrap_id z : int_min <= z <= int_max → int_wrap z = z.
Proof.
  unfold int_wrap, int_min, int_max. intros Hz.
  rewrite Z.mod_small; lia.
Qed.

Lemma res_bind_Ok {A B} (r : res A) (k : A → res B) b :
  res_bind r k = Ok b → ∃ a, r = Ok a ∧ k a = Ok b.
Proof. destruct r; simpl; intros; eauto; discriminate. Qed.

(** * Enqueue: the overflow valve *)

Section Enqueue.
Variable K : Z.
Hypothesis K_range : 0 <= K < int_max.

(** One call, local branch. *)
Lemma Enqueue_local p g w pv gv :
  ps w !! p = Some pv → gs w !! g = Some gv → NumG pv <= K → int_min <= NumG pv →
  Enqueue_with K p g w =
    Ok (put_G g (set_Status "runnable" gv)
          (put_P p (set_queue (RunQ pv ++ [g]) (NumG pv + 1) pv) w)).
Proof.
  intros Hp Hg Hle Hlo. unfold Enqueue_with. rewrite Hp. simpl.
  destruct (K <? NumG pv) eqn:E; [apply Z.ltb_lt in E; lia|].
  rewrite Hg. simpl. rewrite int_wrap_id; [done|lia].
Qed.

(** One call, overflow branch. *)
Lemma Enqueue_global p g w pv gv :
  ps w !! p = Some pv → gs w !! g = Some gv → K < NumG pv →
  mu (sched w) = false →
  Enqueue_with K p g w =
    Ok (print (EvOverflow (G_ID gv) (P_ID pv))
          (with_sched (set_globalQ (globalQ (sched w) ++ [g]) (sched w)) w)).
Proof.
  intros Hp Hg Hlt Hmu. unfold Enqueue_with. rewrite Hp. simpl.
  destruct (K <? NumG pv) eqn:E; [|apply Z.ltb_ge in E; lia].
  unfold Lock. rewrite Hmu. simpl. rewrite Hg. simpl.
  destruct w as [[] ]; simpl in *. by subst.
Qed.

Lemma Enqueue_all_routing l : ∀ w p pv,
  ps w !! p = Some pv →
  NumG pv = Z.of_nat (length (RunQ pv)) →
  mu (sched w) = false →
  Forall (λ g, is_Some (gs w !! g)) l →
  let room := (Z.to_nat (K + 1) - length (RunQ pv))%nat in
  ∃ w' pv',
    Enqueue_all K p l w = Ok w' ∧
    ps w' !! p = Some pv' ∧
    RunQ pv' = RunQ pv ++ take room l ∧
    NumG pv' = Z.of_nat (length (RunQ pv')) ∧
    globalQ (sched w') = globalQ (sched w) ++ drop room l ∧
    mu (sched w') = false.
Proof using K_range.
  induction l as [|g l IH]; intros w p pv Hp Hn Hmu Hl room.
  - exists w, pv. simpl. rewrite take_nil, drop_nil, !app_nil_r. done.
  - apply Forall_cons in Hl as [[gv Hg] Hl]. simpl.
    destruct (decide (NumG pv <= K)) as [Hle|Hgt].
    + rewrite (Enqueue_local p g w pv gv) by (auto; unfold int_min; lia).
      simpl.
      set (w1 := put_G g _ _).
      set (pv1 := set_queue (RunQ pv ++ [g]) (NumG pv + 1) pv).
      destruct (IH w1 p pv1) as (w' & pv' & He & Hp' & Hq & Hn' & Hg' & Hm').
      * subst w1. simpl. by rewrite lookup_insert_eq.
      * subst pv1. simpl. rewrite length_app. simpl. lia.
      * done.
      * eapply Forall_impl; [exact Hl|]. intros x [xv Hx]. subst w1. simpl.
        destruct (decide (g = x)) as [->|Hne].
        -- rewrite lookup_insert_eq. eauto.
        -- rewrite lookup_insert_ne by done. eauto.
      * exists w', pv'. split; [done|]. split; [done|].
        assert (Hroom : room = S (Z.to_nat (K + 1) - length (RunQ pv1))%nat).
        { subst room pv1. simpl. rewrite length_app. simpl. lia. }
        rewrite Hroom. simpl. split; [|split; [done|split; [|done]]].
        -- rewrite Hq. subst pv1. simpl. by rewrite <- app_assoc.
        -- rewrite Hg'. by subst w1.
    + assert (Hroom : room = 0%nat) by (subst room; lia).
      rewrite (Enqueue_global p g w pv gv) by (auto; lia). simpl.
      set (w1 := print _ _).
      destruct (IH w1 p pv) as (w' & pv' & He & Hp' & Hq & Hn' & Hg' & Hm');
        try done.
      exists w', pv'. rewrite Hroom. simpl.
      fold room in Hq, Hg'. rewrite Hroom in Hq, Hg'. rewrite drop_0 in Hg'.
      rewrite take_0 in Hq.
      split; [done|]. split; [done|]. split; [by rewrite Hq|].
      split; [done|]. split; [|done].
      rewrite Hg'. subst w1. simpl. by rewrite <- app_assoc.
Qed.
End Enqueue.

(** C5 (as the code has it).  [Enqueue] appends to the tail of the local
    queue when the recorded length is at most the threshold K and sends the
    task to the global queue when it exceeds K; hence of K+2 tasks submitted
    to an empty P the first K+1 stay local and the (K+2)th is the one that
    overflows. *)
Theorem Enqueue_threshold (K : Z) (w : World) (p : nat) (pv : P) (l : list nat) :
  0 <= K < int_max →
  ps w !! p = Some pv →
  NumG pv = Z.of_nat (length (RunQ pv)) →
  mu (sched w) = false →
  Forall (λ g, is_Some (gs w !! g)) l →
  (∀ g gv, gs w !! g = Some gv →
     if decide (NumG pv <= K)
     then Enqueue_with K p g w =
            Ok (put_G g (set_Status "runnable" gv)
                  (put_P p (set_queue (RunQ pv ++ [g]) (NumG pv + 1) pv) w))
     else Enqueue_with K p g w =
            Ok (print (EvOverflow (G_ID gv) (P_ID pv))
                  (with_sched (set_globalQ (globalQ (sched w) ++ [g]) (sched w)) w)))
  ∧ (RunQ pv = [] → length l = Z.to_nat (K + 2) →
     routes_last_to_global K p l w ∧
     length (removelast l) = Z.to_nat (K + 1)).
Proof.
  intros HK Hp Hn Hmu Hl. split.
  - intros g gv Hg. case_decide.
    + apply Enqueue_local; auto. unfold int_min. lia.
    + apply Enqueue_global; auto. lia.
  - intros Hq Hlen.
    destruct (Enqueue_all_routing K HK l w p pv Hp Hn Hmu Hl)
      as (w' & pv' & He & Hp' & Hq' & _ & Hg' & _).
    rewrite Hq in Hq', Hg'. simpl in Hq', Hg'. rewrite Nat.sub_0_r in Hq', Hg'.
    assert (Hk : Z.to_nat (K + 1) = (length l - 1)%nat) by lia.
    split.
    + exists w', pv'. rewrite Hk in Hq', Hg'.
      rewrite removelast_firstn_len, <- Nat.sub_1_r. done.
    + rewrite removelast_firstn_len, <- Nat.sub_1_r, length_take. lia.
Qed.

(** Instance of [Enqueue_threshold]: seven tasks on the empty P0 with
    the threshold 5 of the last iteration. *)
Lemma Enqueue_threshold_witness :
  ∃ w, tasks_world 7 = Some w ∧
       routes_last_to_global 5 0 [0; 1; 2; 3; 4; 5; 6]%nat w.
Proof.
  eexists. split; [vm_compute; reflexivity|].
  eapply (Enqueue_threshold 5 _ 0%nat (mkP 0 [] 0) [0; 1; 2; 3; 4; 5; 6]%nat).
  - unfold int_max. lia.
  - vm_compute. reflexivity.
  - reflexivity.
  - reflexivity.
  - repeat constructor; vm_compute; eauto.
  - reflexivity.
  - reflexivity.
Defined.

(** C5, the scenario as the claim words it: with K = 5, submitting K+1 = 6
    tasks to the empty P0 does not send the sixth to the global queue; all
    six are in the local queue. *)
Lemma Enqueue_six_tasks_stay_local :
  ∃ w w' pv',
    tasks_world 6 = Some w ∧
    Enqueue_all 5 0 [0; 1; 2; 3; 4; 5]%nat w = Ok w' ∧
    ps w' !! 0%nat = Some pv' ∧
    RunQ pv' = [0; 1; 2; 3; 4; 5]%nat ∧
    globalQ (sched w') = [] ∧
    ¬ routes_last_to_global 5 0 [0; 1; 2; 3; 4; 5]%nat w.
Proof.
  eexists _, _, _. split; [vm_compute; reflexivity|].
  split; [vm_compute; reflexivity|].
  split; [vm_compute; reflexivity|].
  split; [reflexivity|]. split; [reflexivity|].
  intros (w' & pv' & He & Hp & Hq & Hg).
  vm_compute in He. injection He as <-.
  vm_compute in Hg. discriminate.
Qed.

(** * Symbolic execution of one step *)

Lemma sched_from_S n m w :
  sched_from (S n) m w =
    match wpc w !! m with
    | Some AfterSched => Ok w
    | _ => res_bind (step_worker m w) (sched_from n m)
    end.
Proof. reflexivity. Qed.

Lemma sched_from_return n m w :
  wpc w !! m = Some AfterSched → sched_from n m w = Ok w.
Proof. intros H. destruct n; [done|]. by rewrite sched_from_S, H. Qed.

Lemma sched_from_step n m w pc w1 :
  wpc w !! m = Some pc → pc ≠ AfterSched → step_worker m w = Ok w1 →
  sched_from (S n) m w = sched_from n m w1.
Proof.
  intros Hpc Hne Hs. rewrite sched_from_S, Hpc, Hs.
  by destruct pc.
Qed.

Lemma wpc_goto m pc w : wpc (goto m pc w) !! m = Some pc.
Proof. simpl. apply lookup_insert_eq. Qed.

Lemma step_worker_at m w pc mv :
  wpc w !! m = Some pc → ms w !! m = Some mv →
  step_worker m w =
    match pc with
    | LoopSelect =>
        if closed (stop mv) then
          if wg (sched w) - 1 <? 0 then Panic "sync: negative WaitGroup counter"
          else Ok (goto m Exited (with_sched (set_wg (wg (sched w) - 1) (sched w)) w))
        else Ok (goto m SchedEntry w)
    | SchedEntry =>
        match M_P mv with
        | None =>
            if negb (IsZero (parkTime mv))
               && (Since (clock w) (parkTime mv) <? cooldown)
            then Ok (goto m AfterSched w)
            else Ok (goto m Grab (put_M m (set_parkTime zeroTime mv) w))
        | Some _ => Ok (goto m CheckLocal w)
        end
    | Grab =>
        match availPs_tryrecv w with
        | Some (p, w1) => Ok (goto m (GrabBind p) w1)
        | None => Ok (goto m AfterSched w)
        end
    | GrabBind p =>
        let mv1 := set_M_P p mv in
        res_bind (P_of mv1 w) (λ pv,
        Ok (goto m CheckLocal
              (print (EvGrabbed (M_ID mv) (P_ID pv)) (put_M m mv1 w))))
    | CheckLocal =>
        res_bind (P_of mv w) (λ pv,
        if NumG pv =? 0 then Ok (goto m LockMu w) else Ok (goto m Pop w))
    | LockMu =>
        res_bind (Lock w) (λ w1, Ok (goto m GlobalCheck w1))
    | GlobalCheck =>
        match globalQ (sched w) with
        | g :: rest =>
            let w1 := with_sched (set_globalQ rest (sched w)) w in
            res_bind (deref (M_P mv)) (λ p,
            res_bind (deref (ps w !! p)) (λ pv,
            let w2 := put_P p (set_queue (RunQ pv ++ [g]) (int_wrap (NumG pv + 1)) pv) w1 in
            res_bind (deref (gs w !! g)) (λ gv,
            Ok (goto m UnlockStolen
                  (print (EvStole (M_ID mv) (G_ID gv) (P_ID pv)) w2)))))
        | [] => Ok (goto m UnlockPark w)
        end
    | UnlockStolen =>
        res_bind (Unlock w) (λ w1, Ok (goto m Pop w1))
    | UnlockPark =>
        res_bind (Unlock w) (λ w1,
        res_bind (P_of mv w) (λ pv,
        Ok (goto m ParkSend (print (EvParking (M_ID mv) (P_ID pv)) w1))))
    | ParkSend =>
        res_bind (availPs_send (M_P mv) w) (λ w1, Ok (goto m ParkClear w1))
    | ParkClear =>
        Ok (goto m ParkStamp (put_M m (set_M_P None mv) w))
    | ParkStamp =>
        Ok (goto m AfterSched (put_M m (set_parkTime (clock w) mv) w))
    | Pop =>
        res_bind (deref (M_P mv)) (λ p,
        res_bind (deref (ps w !! p)) (λ pv,
        match RunQ pv with
        | [] => Panic "index out of range [0] with length 0"
        | g :: rest =>
            let w1 := put_P p (set_queue rest (int_wrap (NumG pv - 1)) pv) w in
            let w2 := put_M m (set_M_G (Some g) mv) w1 in
            res_bind (deref (gs w !! g)) (λ gv,
            Ok (goto m (InRun g RFunc)
                  (print (EvStarting (M_ID mv) (P_ID pv) (G_ID gv))
                     (put_G g (set_Status "running" gv) w2))))
        end))
    | InRun g r =>
        res_bind (Run_step g r w) (λ '(r', w1),
        match r' with
        | Some r1 => Ok (goto m (InRun g r1) w1)
        | None => Ok (goto m (AfterRun g) w1)
        end)
    | AfterRun g =>
        let w1 := put_M m (set_M_G None mv) w in
        res_bind (deref (gs w !! g)) (λ gv,
        res_bind (P_of mv w) (λ pv,
        if String.eqb (Status gv) "done" then
          Ok (goto m AfterSched (print (EvFinished (M_ID mv) (P_ID pv) (G_ID gv)) w1))
        else
          Ok (goto m HandoffSend (print (EvBlocked (M_ID mv) (P_ID pv) (G_ID gv)) w1))))
    | HandoffSend =>
        res_bind (availPs_send (M_P mv) w) (λ w1, Ok (goto m HandoffClear w1))
    | HandoffClear =>
        Ok (goto m HandoffStamp (put_M m (set_M_P None mv) w))
    | HandoffStamp =>
        Ok (goto m AfterSched (put_M m (set_parkTime (clock w) mv) w))
    | AfterSched =>
        Ok (goto m (Sleeping (clock w + tick)) w)
    | Sleeping wake =>
        if wake <=? clock w then Ok (goto m LoopSelect w) else Blocks
    | Exited => Blocks
    end.
Proof. intros Hpc Hm. unfold step_worker. by rewrite Hpc, Hm. Qed.

Lemma deref_Ok {A} (o : option A) a : deref o = Ok a → o = Some a.
Proof. destruct o; simpl; intros; congruence. Qed.

Lemma P_of_Ok mv w pv :
  P_of mv w = Ok pv → ∃ p, M_P mv = Some p ∧ ps w !! p = Some pv.
Proof.
  unfold P_of. intros H. apply res_bind_Ok in H as (p & Hp & H).
  apply deref_Ok in Hp, H. eauto.
Qed.

Lemma Lock_Ok w w' :
  Lock w = Ok w' → mu (sched w) = false ∧ w' = with_sched (set_mu true (sched w)) w.
Proof. unfold Lock. destruct (mu (sched w)); intros; simplify_eq; done. Qed.

Lemma Unlock_Ok w w' :
  Unlock w = Ok w' → mu (sched w) = true ∧ w' = with_sched (set_mu false (sched w)) w.
Proof. unfold Unlock. destruct (mu (sched w)); intros; simplify_eq; done. Qed.

Lemma availPs_send_Ok v w w' :
  availPs_send v w = Ok w' →
  ∃ c, availPs (sched w) = Some c ∧ (length (buf c) < cap c)%nat ∧
       w' = with_sched (set_availPs (Some (mkPChan (cap c) (buf c ++ [v]))) (sched w)) w.
Proof.
  unfold availPs_send. destruct (availPs (sched w)) as [c|]; [|done].
  case_decide; intros; simplify_eq. eauto.
Qed.

Lemma availPs_tryrecv_Some w v w' :
  availPs_tryrecv w = Some (v, w') →
  ∃ c rest, availPs (sched w) = Some c ∧ buf c = v :: rest ∧
       w' = with_sched (set_availPs (Some (mkPChan (cap c) rest)) (sched w)) w.
Proof.
  unfold availPs_tryrecv. destruct (availPs (sched w)) as [c|]; [|done].
  destruct (buf c) eqn:E; intros; simplify_eq. eauto.
Qed.

(** Inversion of a successful step into the facts the code tested and the
    world it built. *)
Ltac step_inv :=
  repeat match goal with
  | H : res_bind _ _ = Ok _ |- _ => apply res_bind_Ok in H as (? & ? & H)
  | H : deref _ = Ok _ |- _ => apply deref_Ok in H
  | H : P_of _ _ = Ok _ |- _ => apply P_of_Ok in H as (? & ? & ?)
  | H : Lock _ = Ok _ |- _ => apply Lock_Ok in H as [? ?]
  | H : Unlock _ = Ok _ |- _ => apply Unlock_Ok in H as [? ?]
  | H : availPs_send _ _ = Ok _ |- _ => apply availPs_send_Ok in H as (? & ? & ? & ?)
  | H : availPs_tryrecv _ = Some _ |- _ =>
      apply availPs_tryrecv_Some in H as (? & ? & ? & ? & ?)
  | H : Ok _ = Ok _ |- _ => injection H as H
  | H : Some _ = Some _ |- _ => injection H as H
  | H : (_, _) = (_, _) |- _ => injection H as ? ?
  | H : Blocks = Ok _ |- _ => discriminate H
  | H : Panic _ = Ok _ |- _ => discriminate H
  | H : None = Some _ |- _ => discriminate H
  | H : match ?x with _ => _ end = Ok _ |- _ => destruct x eqn:?
  | H : match ?x with _ => _ end = Some _ |- _ => destruct x eqn:?
  | H : (if ?x then _ else _) = Ok _ |- _ => destruct x eqn:?
  | H : (let (_, _) := ?x in _) = Ok _ |- _ => destruct x eqn:?
  end; subst.

(** ** [scheduleOnce] always returns within its fuel *)

Lemma step_worker_progress m w w' pc :
  wpc w !! m = Some pc → (0 < steps_left pc < 17)%nat →
  step_worker m w = Ok w' →
  ∃ pc', wpc w' !! m = Some pc' ∧ (steps_left pc' < steps_left pc)%nat.
Proof.
  intros Hpc Hr H. unfold step_worker in H. rewrite Hpc in H.
  destruct (ms w !! m) as [mv|] eqn:Hm; [|done]. simpl in H.
  destruct pc; simpl in Hr; try lia; unfold Run_step in H; step_inv.
  all: eexists; (split; [apply wpc_goto|simpl; lia]).
Qed.

Lemma sched_from_returns m n : ∀ w w' pc,
  wpc w !! m = Some pc → (steps_left pc < n)%nat → (steps_left pc < 17)%nat →
  sched_from n m w = Ok w' → wpc w' !! m = Some AfterSched.
Proof.
  induction n as [|n IH]; intros w w' pc Hpc Hr Hin H; [lia|].
  rewrite sched_from_S, Hpc in H.
  destruct (decide (pc = AfterSched)) as [->|Hne]; [by simplify_eq|].
  assert (H' : res_bind (step_worker m w) (sched_from n m) = Ok w')
    by (by destruct pc).
  apply res_bind_Ok in H' as (w1 & Hs & H').
  destruct (step_worker_progress m w w1 pc Hpc) as (pc' & Hpc' & Hlt);
    [|done|].
  { destruct pc; try (match goal with r : RunPC |- _ => destruct r end);
      simpl in *; first [congruence | lia]. }
  eapply IH; [exact Hpc'|lia|lia|exact H'].
Qed.

(** Whatever [scheduleOnce] yields as a result, it is a return of the
    method: the fuel of the definition is never exhausted. *)
Lemma scheduleOnce_returns m w w' :
  scheduleOnce m w = Ok w' → wpc w' !! m = Some AfterSched.
Proof.
  unfold scheduleOnce. apply (sched_from_returns m 17 _ w' SchedEntry).
  - apply wpc_goto.
  - simpl. lia.
  - simpl. lia.
Qed.

(** A [map_Forall] over a closed map, by enumeration of its entries. *)
Ltac concrete_map_Forall :=
  apply map_Forall_to_list;
  match goal with
  | |- Forall ?f (map_to_list ?m) =>
      let l := eval vm_compute in (map_to_list m) in
      change (Forall f l)
  end;
  repeat first [apply Forall_nil_2 | apply Forall_cons_2];
  simpl; unfold int_max; try done; try lia.

(** * The recorded queue length *)

Lemma queue_len_insert w (p : nat) (pv' : P) :
  queue_len_ok w →
  NumG pv' = Z.of_nat (length (RunQ pv')) →
  ∀ q qv, <[p := pv']> (ps w) !! q = Some qv →
          NumG qv = Z.of_nat (length (RunQ qv)).
Proof.
  intros Hok Hn q qv. destruct (decide (p = q)) as [->|Hne].
  - rewrite lookup_insert_eq. intros; simplify_eq. done.
  - rewrite lookup_insert_ne by done. apply Hok.
Qed.

Ltac unfold_act H :=
  simpl in H;
  unfold step_worker, step_signal, Run_step, NewG, Enqueue, Enqueue_with,
    go_signal, close_stop, AddP, AddM in H.

Lemma queue_len_act a w w' :
  act a w = Ok w' → queue_len_ok w → queue_len_bounded w → queue_len_ok w'.
Proof.
  intros H Hok Hb. destruct a; unfold_act H.
  all: step_inv; simpl; try exact Hok.
  all: intros q qv; simpl; try (by apply Hok).
  all: eapply queue_len_insert; [done|]; simpl.
  all: repeat match goal with
         | H : ps _ !! _ = Some ?x |- _ =>
             pose proof (Hok _ _ H); pose proof (Hb _ _ H); clear H
         end.
  all: cbv beta in *.
  all: repeat match goal with H : RunQ _ = _ |- _ => rewrite H in * end.
  all: rewrite ?length_app; simpl in *.
  all: rewrite ?int_wrap_id; unfold int_min, int_max in *; lia.
Qed.

(** The local branch of [Enqueue] is its three statements in sequence. *)
Lemma Enqueue_local_stepwise p g w pv :
  ps w !! p = Some pv → NumG pv <= 5 →
  Enqueue p g w = Enqueue_stepwise p g w.
Proof.
  intros Hp Hn.
  unfold Enqueue, Enqueue_with, Enqueue_stepwise, Enqueue_append,
    Enqueue_count, Enqueue_mark.
  rewrite Hp. simpl.
  replace (5 <? NumG pv) with false by (symmetry; apply Z.ltb_ge; lia).
  rewrite lookup_insert_eq. simpl.
  destruct (gs w !! g) as [gv|]; [|done]. simpl.
  unfold put_G, put_P, with_gs, with_ps. simpl.
  by rewrite insert_insert_eq.
Qed.

(** Between [p.RunQ = append(p.RunQ, g)] and [p.NumG++] the recorded length
    is one less than the length of the queue. *)
Lemma Enqueue_append_lags p g w pv :
  ps w !! p = Some pv → NumG pv = Z.of_nat (length (RunQ pv)) →
  ∃ w1 pv1, Enqueue_append p g w = Ok w1 ∧ ps w1 !! p = Some pv1 ∧
            NumG pv1 = Z.of_nat (length (RunQ pv1)) - 1.
Proof.
  intros Hp Hn. unfold Enqueue_append. rewrite Hp. simpl.
  eexists _, _. split; [reflexivity|]. simpl. rewrite lookup_insert_eq.
  split; [reflexivity|]. simpl. rewrite length_app. simpl. lia.
Qed.

(** C10 (as the code has it).  In every P the recorded length [NumG] is
    the length of [RunQ] when [AddP] has created the P (empty queue,
    [NumG = 0]), and every operation of the program that is executed as a
    whole, with no other goroutine touching the P in between, takes a
    state in which the equality holds to a state in which it holds: among
    them a call of [Enqueue], the head pop and the steal from the global
    queue.  It does not hold at every instant: the local branch of
    [Enqueue] is the three statements [p.RunQ = append(p.RunQ, g)],
    [p.NumG++], [g.Status = "runnable"], run without a lock, and after the
    first of them [NumG] is one less than the length of [RunQ]. *)
Theorem queue_length_invariant (a : Action) (w w' : World) :
  queue_len_ok w → queue_len_bounded w →
  sys_step a w = Some w' →
  queue_len_ok w' ∧
  (∀ id, a = ActAddP id → ps w' !! (AddP id w).1 = Some (mkP id [] 0)) ∧
  (∀ p g pv, a = ActEnqueue p g → ps w !! p = Some pv → NumG pv <= 5 →
     Enqueue p g w = Enqueue_stepwise p g w ∧
     ∃ w1 pv1, Enqueue_append p g w = Ok w1 ∧ ps w1 !! p = Some pv1 ∧
               NumG pv1 = Z.of_nat (length (RunQ pv1)) - 1).
Proof.
  intros Hok Hb H.
  assert (Hst : ∀ p g pv, a = ActEnqueue p g → ps w !! p = Some pv →
     NumG pv <= 5 →
     Enqueue p g w = Enqueue_stepwise p g w ∧
     ∃ w1 pv1, Enqueue_append p g w = Ok w1 ∧ ps w1 !! p = Some pv1 ∧
               NumG pv1 = Z.of_nat (length (RunQ pv1)) - 1).
  { intros p g pv _ Hp Hn. split; [by eapply Enqueue_local_stepwise|].
    apply (Enqueue_append_lags p g w pv); [done|]. by apply (Hok p). }
  unfold sys_step in H.
  destruct (crashed w); [done|].
  destruct (act a w) as [w1| |msg] eqn:E; simplify_eq.
  - split; [by eapply queue_len_act|]. split; [|done].
    intros id ->. simpl in E. simplify_eq. simpl. by rewrite lookup_insert_eq.
  - split; [exact Hok|]. split; [|done]. intros id ->. done.
Qed.

(** Instance of [queue_length_invariant]: the first [Enqueue] on P0. *)
Lemma queue_length_invariant_witness :
  ∃ w w', tasks_world 1 = Some w ∧ sys_step (ActEnqueue 0 0) w = Some w' ∧
          queue_len_ok w' ∧ Enqueue 0 0 w = Enqueue_stepwise 0 0 w.
Proof.
  eexists _, _. split; [vm_compute; reflexivity|].
  match goal with
  | |- sys_step ?a ?w = ?w1 ∧ _ =>
      assert (Hs : sys_step a w = w1) by (vm_compute; reflexivity);
      split; [exact Hs|];
      destruct (queue_length_invariant a w _ ltac:(concrete_map_Forall)
                  ltac:(concrete_map_Forall) Hs) as (Hq & _ & Hst);
      split; [exact Hq|];
      refine (proj1 (Hst 0%nat 0%nat (mkP 0 [] 0) eq_refl _ _))
  end.
  - vm_compute. reflexivity.
  - simpl. lia.
Defined.

(** C10, the claim as worded: with one P, one M on it, whose goroutine
    [AddM] has started, and one task, [main] calls [Enqueue(p0, g0)]; after
    the first statement of the call the queue of P0 holds the task while
    [NumG] is still 0.  The worker runs meanwhile: its test
    [m.P.NumG == 0] finds the P empty and it goes on to the global queue.
    The remaining statements of the call end it as [Enqueue] does. *)
Lemma queue_length_differs_inside_Enqueue :
  ∃ w w1 w2 pv1,
    tasks_world 1 = Some w ∧ queue_len_ok w ∧
    Enqueue_append 0 0 w = Ok w1 ∧
    ps w1 !! 0%nat = Some pv1 ∧ RunQ pv1 = [0%nat] ∧ NumG pv1 = 0 ∧
    ¬ queue_len_ok w1 ∧
    exec (replicate 3 (ActWorker 0)) w1 = Some w2 ∧
    wpc w2 !! 0%nat = Some LockMu ∧
    (let* w3 := Enqueue_count 0 w1 in Enqueue_mark 0 w3) = Enqueue 0 0 w.
Proof.
  eexists _, _, _, _. split; [vm_compute; reflexivity|].
  split; [concrete_map_Forall|].
  split; [vm_compute; reflexivity|].
  split; [vm_compute; reflexivity|].
  split; [reflexivity|]. split; [reflexivity|].
  split.
  { intros H. specialize (H 0%nat _ ltac:(vm_compute; reflexivity)).
    simpl in H. discriminate. }
  split; [vm_compute; reflexivity|].
  split; [vm_compute; reflexivity|].
  vm_compute. reflexivity.
Qed.

(** * NewG: allocation of task ids *)

Lemma ids_ok_update next (gm : gmap nat G) g gv gv' :
  gm !! g = Some gv → G_ID gv' = G_ID gv → ids_ok next gm →
  ids_ok next (<[g := gv']> gm).
Proof.
  intros Hg Hid (Hn & Hb & Hu). split; [done|]. split.
  - intros x xv. destruct (decide (g = x)) as [->|Hne].
    + rewrite lookup_insert_eq. intros; simplify_eq. rewrite Hid. by apply (Hb x).
    + rewrite lookup_insert_ne by done. apply Hb.
  - intros g1 g2 gv1 gv2 H1 H2 He.
    assert (∀ x xv, <[g:=gv']> gm !! x = Some xv →
                    ∃ xv0, gm !! x = Some xv0 ∧ G_ID xv0 = G_ID xv) as Hold.
    { intros x xv. destruct (decide (g = x)) as [->|Hne].
      - rewrite lookup_insert_eq. intros; simplify_eq. eauto.
      - rewrite lookup_insert_ne by done. eauto. }
    apply Hold in H1 as (a & Ha & Ha'), H2 as (b & Hb' & Hb'').
    eapply Hu; eauto. congruence.
Qed.

Lemma fresh_not_allocated (gm : gmap nat G) : gm !! fresh (dom gm) = None.
Proof. apply not_elem_of_dom, is_fresh. Qed.

Lemma ids_ok_alloc next (gm : gmap nat G) gv :
  G_ID gv = next → next < int_max → ids_ok next gm →
  ids_ok (int_wrap (next + 1)) (<[fresh (dom gm) := gv]> gm).
Proof.
  intros Hid Hmax (Hn & Hb & Hu).
  rewrite int_wrap_id by (unfold int_min, int_max in *; lia).
  pose proof (fresh_not_allocated gm) as Hf.
  split; [lia|]. split.
  - intros x xv. destruct (decide (fresh (dom gm) = x)) as [<-|Hne].
    + rewrite lookup_insert_eq. intros; simplify_eq. lia.
    + rewrite lookup_insert_ne by done. intros Hx. specialize (Hb x xv Hx).
      simpl in Hb. lia.
  - intros g1 g2 gv1 gv2.
    destruct (decide (fresh (dom gm) = g1)) as [<-|Hne1];
      destruct (decide (fresh (dom gm) = g2)) as [<-|Hne2]; [done|..];
      rewrite ?lookup_insert_eq, ?lookup_insert_ne by done; intros H1 H2 He.
    + simplify_eq. specialize (Hb g2 gv2 H2). simpl in Hb. lia.
    + simplify_eq. specialize (Hb g1 gv1 H1). simpl in Hb. lia.
    + eapply Hu; eauto.
Qed.

Lemma ids_ok_act a w w' :
  act a w = Ok w' → nextGID (sched w) < int_max →
  ids_ok (nextGID (sched w)) (gs w) →
  ids_ok (nextGID (sched w')) (gs w') ∧
  nextGID (sched w') <= nextGID (sched w) + 1.
Proof.
  intros H Hmax Hok. destruct a; unfold_act H.
  all: step_inv; simpl; try (split; [exact Hok|lia]).
  all: try (split; [|lia]).
  all: try (eapply ids_ok_update; [eassumption|reflexivity|exact Hok]).
  - split; [by apply ids_ok_alloc|].
    rewrite int_wrap_id; [lia|]. destruct Hok as [? _].
    unfold int_min, int_max in *. lia.
  - destruct (availPs (sched w)); simpl; (split; [exact Hok|lia]).
Qed.

Lemma ids_ok_exec acts : ∀ w w' n,
  exec acts w = Some w' →
  ids_ok (nextGID (sched w)) (gs w) →
  nextGID (sched w) <= n → n + Z.of_nat (length acts) <= int_max →
  ids_ok (nextGID (sched w')) (gs w') ∧
  nextGID (sched w') <= n + Z.of_nat (length acts).
Proof.
  induction acts as [|a acts IH]; intros w w' n He Hok Hn Hmax; simpl in *.
  - simplify_eq. split; [done|lia].
  - unfold sys_step in He. destruct (crashed w); [done|].
    destruct (act a w) as [w1| |msg] eqn:E; [|done|].
    + destruct (ids_ok_act a w w1 E) as [Hok1 Hn1]; [lia|done|].
      destruct (IH w1 w' (n + 1) He Hok1) as [? ?]; [lia|lia|].
      split; [done|lia].
    + destruct (IH (with_crashed (Some msg) w) w' (n + 1) He) as [? ?];
        [done|simpl; lia|lia|]. split; [done|lia].
Qed.

Lemma ids_ok_empty : ids_ok (nextGID (sched empty_world)) (gs empty_world).
Proof.
  split; [done|]. split; [apply map_Forall_empty|].
  intros g1 g2 gv1 gv2 H. simpl in H. by rewrite lookup_empty in H.
Qed.

(** C7.  In any world the program has reached, [NewG] takes the scheduler
    lock (it waits while another goroutine holds it), hands out the current
    value of [nextGID] and increments it, and has released the lock when it
    returns: the new task is Runnable, has a channel exactly when
    [block = true], and its id is larger than the id of every task created
    before, whose ids are pairwise distinct. *)
Theorem NewG_unique_increasing_id
    (acts : list Action) (w : World) (f : FuncBody) (block : bool) :
  exec acts empty_world = Some w →
  Z.of_nat (length acts) < int_max →
  (mu (sched w) = true → NewG f block w = Blocks) ∧
  (mu (sched w) = false →
   ∃ g w' gv,
     NewG f block w = Ok (g, w') ∧
     gs w !! g = None ∧
     gs w' = <[g := gv]> (gs w) ∧
     gv = mkG (nextGID (sched w)) f "runnable"
              (if block then Some make_chan else None) ∧
     (is_Some (blockChan gv) ↔ block = true) ∧
     nextGID (sched w') = nextGID (sched w) + 1 ∧
     mu (sched w') = false ∧
     (∀ g0 gv0, gs w !! g0 = Some gv0 → G_ID gv0 < G_ID gv) ∧
     ids_ok (nextGID (sched w')) (gs w')).
Proof.
  intros He Hlen.
  destruct (ids_ok_exec acts empty_world w 0 He ids_ok_empty) as [Hok Hn];
    [done|lia|].
  split.
  - intros Hmu. unfold NewG, Lock. by rewrite Hmu.
  - intros Hmu. unfold NewG, Lock. rewrite Hmu. simpl.
    eexists _, _, _. split; [reflexivity|]. simpl.
    split; [apply fresh_not_allocated|]. split; [reflexivity|].
    split; [reflexivity|]. simpl.
    assert (Hw : int_wrap (nextGID (sched w) + 1) = nextGID (sched w) + 1).
    { apply int_wrap_id. destruct Hok as [? _].
      unfold int_min, int_max in *. lia. }
    split; [|split; [done|split; [done|split]]].
    + destruct block; split; intros H; try done; by destruct H.
    + intros g0 gv0 Hg0. destruct Hok as (_ & Hb & _).
      specialize (Hb g0 gv0 Hg0). simpl in Hb. lia.
    + apply ids_ok_alloc; [done|lia|done].
Qed.

(** Instance of [NewG_unique_increasing_id]: the third task created in
    [main] gets id 2. *)
Lemma NewG_unique_increasing_id_witness :
  ∃ w, tasks_world 2 = Some w ∧
       ∃ g w' gv, NewG FReturn true w = Ok (g, w') ∧
                  gs w' !! g = Some gv ∧ G_ID gv = 2 ∧ is_Some (blockChan gv).
Proof.
  eexists. split; [vm_compute; reflexivity|].
  match goal with
  | |- ∃ g w' gv, NewG ?f ?b ?w = _ ∧ _ =>
      destruct (NewG_unique_increasing_id
                  ([ActAddP 0; ActAddM 0 0] ++ replicate 2 (ActNewG FReturn false))
                  w f b) as [_ H];
      [vm_compute; reflexivity | unfold int_max; simpl; lia |];
      destruct (H eq_refl) as (g & w' & gv & HN & _ & Hgs & Hgv & _)
  end.
  exists g, w', gv. split; [exact HN|].
  rewrite Hgs, lookup_insert_eq, Hgv. simpl. eauto.
Defined.

(** * The cooldown after a park *)

Lemma fresh_ne (A : Type) (gm : gmap nat A) m :
  is_Some (gm !! m) → m ≠ fresh (dom gm).
Proof.
  intros Hm ->.
  rewrite (proj1 (not_elem_of_dom _ _) (is_fresh (dom gm))) in Hm.
  by destruct Hm.
Qed.

(** The program counter, the binding and the cooldown marker of a worker
    are changed by its own goroutine only. *)
Lemma park_view_frame a m w w' :
  act a w = Ok w' → a ≠ ActWorker m → is_Some (ms w !! m) →
  park_view m w' = park_view m w.
Proof.
  intros H Hne Hm. unfold park_view.
  pose proof (fresh_ne M (ms w) m Hm) as Hfresh.
  destruct a; unfold_act H.
  all: step_inv; simpl; try done.
  all: repeat match goal with
       | Hm : is_Some (_ !! ?m) |- context [ <[?k := _]> _ !! ?m ] =>
           destruct (decide (k = m)) as [Heq|];
           [first [congruence | rewrite Heq in *; rewrite (lookup_insert_eq _ m)]
           |rewrite (lookup_insert_ne _ k m) by done]
       end.
  all: try done.
  match goal with H : ms w !! m = Some _ |- _ => rewrite H end. done.
Qed.

Lemma clock_mono_act a w w' : act a w = Ok w' → clock w <= clock w'.
Proof.
  intros H. destruct a; unfold_act H.
  all: step_inv; simpl; try lia.
Qed.

Lemma Since_lt_cooldown c t : (Since c t <? cooldown) = (c - t <? cooldown).
Proof.
  unfold Since, Sub, cooldown, Millisecond, int_min, int_max.
  destruct (c - t <? 200 * 1000000) eqn:E.
  - apply Z.ltb_lt in E. apply Z.ltb_lt. lia.
  - apply Z.ltb_ge in E. apply Z.ltb_ge. lia.
Qed.

Lemma cooling_own_step m t0 w w' :
  step_worker m w = Ok w' → cooling m t0 w → t0 ≠ 0 →
  clock w - t0 < cooldown → cooling m t0 w'.
Proof.
  intros H (pc & Hv & Hpc) Ht Hc. unfold park_view in Hv.
  destruct (ms w !! m) as [mv|] eqn:Hm; [|done].
  destruct (wpc w !! m) as [pc'|] eqn:Hw; [|done].
  simpl in Hv. injection Hv as -> HP HT. subst t0.
  unfold step_worker in H. rewrite Hw, Hm in H. simpl in H.
  assert (Hz : IsZero (parkTime mv) = false) by (by apply Z.eqb_neq).
  assert (Hs : (Since (clock w) (parkTime mv) <? cooldown) = true)
    by (rewrite Since_lt_cooldown; by apply Z.ltb_lt).
  assert (Hkeep : ∀ pc1 w0, ms w0 = ms w → before_acquire pc1 = true →
            cooling m (parkTime mv) (goto m pc1 w0)).
  { intros pc1 w0 Hms Hb. exists pc1. split; [|done]. unfold park_view. simpl.
    by rewrite lookup_insert_eq, Hms, Hm, <- HP. }
  destruct pc; try done; simpl in H.
  - destruct (closed (stop mv)); step_inv; by apply Hkeep.
  - rewrite HP, Hz, Hs in H. simpl in H. simplify_eq. by apply Hkeep.
  - simplify_eq. by apply Hkeep.
  - step_inv. by apply Hkeep.
Qed.

Lemma cooling_act a m t0 w w' :
  act a w = Ok w' → cooling m t0 w → t0 ≠ 0 →
  clock w - t0 < cooldown → cooling m t0 w'.
Proof.
  intros H Hcool Ht Hc.
  destruct (decide (a = ActWorker m)) as [->|Hne].
  - by eapply cooling_own_step.
  - destruct Hcool as (pc & Hv & Hpc). exists pc. split; [|done].
    rewrite <- Hv. eapply park_view_frame; eauto.
    unfold park_view in Hv. destruct (ms w !! m); [eauto|done].
Qed.

Lemma cooling_exec acts : ∀ m t0 w w',
  exec acts w = Some w' → cooling m t0 w → t0 ≠ 0 →
  clock w' - t0 < cooldown → cooling m t0 w' ∧ clock w <= clock w'.
Proof.
  induction acts as [|a acts IH]; intros m t0 w w' He Hcool Ht Hc; simpl in *.
  - simplify_eq. split; [done|lia].
  - unfold sys_step in He. destruct (crashed w); [done|].
    destruct (act a w) as [w1| |msg] eqn:E; [|done|].
    + pose proof (clock_mono_act _ _ _ E) as Hmono.
      assert (Hlater : clock w1 <= clock w').
      { clear -He. revert w1 He. induction acts as [|b acts IH2]; intros w1 He;
          simpl in *; [simplify_eq; lia|].
        unfold sys_step in He. destruct (crashed w1); [done|].
        destruct (act b w1) as [w2| |msg] eqn:E; [|done|].
        - pose proof (clock_mono_act _ _ _ E). specialize (IH2 _ He). lia.
        - specialize (IH2 _ He). simpl in IH2. lia. }
      destruct (IH m t0 w1 w' He) as [? ?]; [|done|done|split; [done|lia]].
      eapply cooling_act; eauto. lia.
    + destruct (IH m t0 (with_crashed (Some msg) w) w' He) as [? ?];
        [|done|done|split; [done|simpl in *; lia]].
      destruct Hcool as (pc & Hv & Hpc). by exists pc.
Qed.

(** C4.  Once a worker has parked a P (it cleared [m.P] and stamped
    [m.parkTime] with the current instant), then in every world the program
    reaches less than 200ms after the stamp, under any interleaving with the
    other goroutines, the worker is still unbound and has not reached the
    acquisition from [availPs]; an iteration of [scheduleOnce] started in
    such a world returns at the cooldown test and leaves the pool, the
    bindings and the queues as they are. *)
Theorem cooldown_prevents_acquisition
    (m : nat) (w w1 w2 : World) (pc : PC) (mv : M) (acts : list Action) :
  wpc w !! m = Some pc → is_stamp pc = true →
  ms w !! m = Some mv → M_P mv = None →
  clock w ≠ 0 →
  sys_step (ActWorker m) w = Some w1 →
  exec acts w1 = Some w2 →
  clock w2 - clock w < cooldown →
  cooling m (clock w) w2 ∧
  ∃ w3, scheduleOnce m w2 = Ok w3 ∧
        sched w3 = sched w2 ∧ ms w3 = ms w2 ∧ ps w3 = ps w2 ∧ gs w3 = gs w2 ∧
        wpc w3 !! m = Some AfterSched.
Proof.
  intros Hpc Hst Hm HP Hclk Hstep He Hwin.
  assert (Hc1 : cooling m (clock w) w1 ∧ clock w1 = clock w).
  { unfold sys_step in Hstep. destruct (crashed w); [done|].
    simpl in Hstep. unfold step_worker in Hstep. rewrite Hpc, Hm in Hstep.
    simpl in Hstep. destruct pc; try done; simpl in Hstep; simplify_eq.
    all: split; [|done]; exists AfterSched; unfold park_view; simpl.
    all: rewrite !lookup_insert_eq; simpl; by rewrite HP. }
  destruct Hc1 as [Hc1 Hclk1].
  destruct (cooling_exec acts m (clock w) w1 w2 He Hc1 Hclk Hwin) as [Hc2 _].
  split; [done|].
  destruct Hc2 as (pc2 & Hv & _). unfold park_view in Hv.
  destruct (ms w2 !! m) as [mv2|] eqn:Hm2; [|done]. simpl in Hv.
  assert (M_P mv2 = None ∧ parkTime mv2 = clock w) as [HP2 HT2]
    by (split; congruence).
  assert (Hstep2 : step_worker m (goto m SchedEntry w2)
                   = Ok (goto m AfterSched (goto m SchedEntry w2))).
  { rewrite (step_worker_at m _ SchedEntry mv2) by (done || apply wpc_goto).
    rewrite HP2, HT2, Since_lt_cooldown. cbn [clock goto with_wpc].
    replace (IsZero (clock w)) with false by (symmetry; by apply Z.eqb_neq).
    replace (clock w2 - clock w <? cooldown) with true
      by (symmetry; by apply Z.ltb_lt).
    done. }
  unfold scheduleOnce.
  rewrite (sched_from_step _ _ _ SchedEntry _ (wpc_goto _ _ _) ltac:(done) Hstep2).
  rewrite sched_from_return by apply wpc_goto.
  eexists. split; [reflexivity|]. cbn [sched ms ps gs goto with_wpc].
  repeat (split; [done|]). apply wpc_goto.
Qed.

(** Instance of [cooldown_prevents_acquisition]: M0 parks P0 in [main]'s
    setup and comes back 100ms later. *)
Lemma cooldown_prevents_acquisition_witness :
  ∃ w w1 w2,
    parked_world = Some w ∧ sys_step (ActWorker 0) w = Some w1 ∧
    exec next_tick w1 = Some w2 ∧ cooling 0 (clock w) w2.
Proof.
  eexists _, _, _. split; [vm_compute; reflexivity|].
  match goal with
  | |- sys_step _ ?w = ?w1 ∧ _ =>
      assert (Hs : sys_step (ActWorker 0) w = w1) by (vm_compute; reflexivity);
      split; [exact Hs|]
  end.
  match goal with
  | |- exec _ ?w1 = ?w2 ∧ _ =>
      assert (He : exec next_tick w1 = w2) by (vm_compute; reflexivity);
      split; [exact He|]
  end.
  refine (proj1 (cooldown_prevents_acquisition 0 _ _ _ ParkStamp
                   (mkM 0 None None make_chan 0) next_tick _ _ _ _ _ Hs He _)).
  - vm_compute. reflexivity.
  - reflexivity.
  - vm_compute. reflexivity.
  - reflexivity.
  - simpl. lia.
  - vm_compute. reflexivity.
Defined.

(** * A blocked task whose signal does not arrive *)

Lemma awaiting_blocks m g w : awaiting m g w → step_worker m w = Blocks.
Proof.
  intros (Hpc & [mv Hm] & Hc & _ & _).
  rewrite (step_worker_at m w _ mv Hpc Hm). unfold Run_step.
  destruct (gs w !! g) as [gv|]; [|done]. simpl in *.
  injection Hc as Hc. by rewrite Hc.
Qed.

Lemma chan_view_insert (gm : gmap nat G) g n gv gv' :
  gm !! n = Some gv → blockChan gv' = blockChan gv →
  blockChan <$> <[n:=gv']> gm !! g = blockChan <$> gm !! g.
Proof.
  intros Hn He. destruct (decide (n = g)) as [->|Hne].
  - rewrite lookup_insert_eq, Hn. simpl. by rewrite He.
  - by rewrite lookup_insert_ne.
Qed.

Lemma targets_alter (sg : gmap nat (nat * SigPC)) g t pc0 :
  map_Forall (λ _ x, x.1 ≠ g) sg →
  map_Forall (λ _ x, x.1 ≠ g) (alter (λ x, (x.1, pc0)) t sg).
Proof.
  intros H t' x. destruct (decide (t = t')) as [->|].
  - rewrite lookup_alter_eq. destruct (sg !! t') as [[g0 p0]|] eqn:E; simpl; [|done].
    intros; simplify_eq. by apply (H t' (g0, p0)).
  - rewrite lookup_alter_ne by done. apply H.
Qed.

Lemma targets_abort (sg : gmap nat (nat * SigPC)) g q :
  map_Forall (λ _ x, x.1 ≠ g) sg →
  map_Forall (λ _ x, x.1 ≠ g)
    (foldr (λ t0 sg0, alter (λ x : nat * SigPC, (x.1, SigSend)) t0 sg0) sg q).
Proof.
  intros H. induction q as [|a q IH]; simpl; [done|].
  by apply targets_alter.
Qed.

Lemma awaiting_act a m g w w' :
  act a w = Ok w' → a ≠ ActGoSignal g → awaiting m g w → awaiting m g w'.
Proof.
  intros H Hne Haw.
  pose proof (awaiting_blocks _ _ _ Haw) as Hblk.
  destruct Haw as (Hpc & Hm & Hc & Hsig & Hcl).
  pose proof (fresh_ne M (ms w) m Hm) as HfreshM.
  assert (HfreshG : g ≠ fresh (dom (gs w))).
  { apply fresh_ne. destruct (gs w !! g); [eauto|done]. }
  destruct a.
  1: destruct (decide (m0 = m)) as [->|Hmm]; [simpl in H; congruence|].
  all: unfold_act H; step_inv; simpl; try done.
  all: unfold awaiting; simpl.
  all: repeat match goal with
       | H : gs ?w0 !! ?x = Some _, Hc : blockChan <$> gs ?w0 !! ?g = _ |- _ =>
           lazymatch x with
           | g => fail
           | _ => lazymatch goal with
                  | _ : x ≠ g |- _ => fail
                  | _ => destruct (decide (x = g)) as [->|]
                  end
           end
       end.
  all: try match goal with
       | H : gs ?w0 !! ?g = Some _, Hc : blockChan <$> gs ?w0 !! ?g = _ |- _ =>
           pose proof Hc as Hc'; rewrite H in Hc'; simpl in Hc';
           injection Hc' as Hc'; simplify_eq/=
       end.
  all: try match goal with
       | H : wpc _ !! _ = Some (InRun _ RClose) |- _ =>
           exfalso; exact (Hcl _ _ H eq_refl)
       end.
  all: try match goal with
       | H : sigs _ !! _ = Some (_, _) |- _ =>
           exfalso; exact (Hsig _ _ H eq_refl)
       end.
  all: split_and!.
  all: rewrite ?lookup_insert_ne by done; try done.
  all: try (by erewrite chan_view_insert by (eassumption || reflexivity)).
  all: try (apply map_Forall_insert_2; [congruence|done]).
  all: try (apply map_Forall_insert_2; [simpl|done]).
  all: try (by apply targets_alter).
  all: try (by apply targets_abort).
  all: try (by eapply (Hsig _ (_, _))).
  all: try congruence.
  destruct (decide (m0 = m)) as [->|].
  - by rewrite lookup_insert_eq.
  - by rewrite lookup_insert_ne.
Qed.

Lemma awaiting_exec acts : ∀ m g w w',
  Forall (λ a, a ≠ ActGoSignal g) acts →
  exec acts w = Some w' → awaiting m g w → awaiting m g w'.
Proof.
  induction acts as [|a acts IH]; intros m g w w' Hf He Haw; simpl in *.
  - by simplify_eq.
  - apply Forall_cons in Hf as [Ha Hf].
    unfold sys_step in He. destruct (crashed w); [done|].
    destruct (act a w) as [w1| |msg] eqn:E; [|done|].
    + eapply IH; eauto. eapply awaiting_act; eauto.
    + eapply IH; eauto.
Qed.

(** C9 (as the code has it).  The receive [<-g.blockChan] in [Run] has no
    timeout: while no goroutine sends on the channel, the worker that runs
    the blocked task stays at the receive, whatever else happens and however
    much time passes; it is not freed and reports nothing. *)
Theorem blocked_task_waits_without_bound
    (m g : nat) (w w' : World) (acts : list Action) :
  awaiting m g w →
  Forall (λ a, a ≠ ActGoSignal g) acts →
  exec acts w = Some w' →
  awaiting m g w' ∧
  wpc w' !! m = Some (InRun g RRecv) ∧
  sys_step (ActWorker m) w' = None.
Proof.
  intros Haw Hf He.
  pose proof (awaiting_exec acts m g w w' Hf He Haw) as Haw'.
  split; [done|]. split; [apply Haw'|].
  unfold sys_step. destruct (crashed w'); [done|]. simpl.
  by rewrite (awaiting_blocks _ _ _ Haw').
Qed.

Ltac concrete_awaiting :=
  unfold awaiting; split_and!;
  [ vm_compute; reflexivity
  | vm_compute; eauto
  | vm_compute; reflexivity
  | concrete_map_Forall
  | concrete_map_Forall ].

(** Instance of [blocked_task_waits_without_bound]: G0 blocks on M0, an
    hour passes and M1 goes through an iteration of its own. *)
Lemma blocked_task_waits_without_bound_witness :
  ∃ w w',
    blocked_world = Some w ∧
    exec ([ActTick (3600 * 1000 * Millisecond)] ++ replicate 9 (ActWorker 1)) w
      = Some w' ∧
    sys_step (ActWorker 0) w' = None.
Proof.
  eexists _, _. split; [vm_compute; reflexivity|].
  match goal with
  | |- exec ?l ?w = ?w1 ∧ _ =>
      assert (He : exec l w = w1) by (vm_compute; reflexivity);
      split; [exact He|];
      refine (proj2 (proj2 (blocked_task_waits_without_bound 0 0 w _ l _ _ He)))
  end.
  - concrete_awaiting.
  - repeat constructor; discriminate.
Defined.

(** C9, the claim as worded: in [main]'s scenario without the signal, M0
    is not freed after any bound: however long the wait lasted, M0 still
    stands at the receive, has no step to take, and nothing was printed. *)
Lemma blocked_worker_is_never_freed :
  ∃ w, blocked_world = Some w ∧
       ∀ d, 0 <= d →
         ∃ w', sys_step (ActTick d) w = Some w' ∧
               clock w' = clock w + d ∧
               wpc w' !! 0%nat = Some (InRun 0 RRecv) ∧
               sys_step (ActWorker 0) w' = None ∧
               out w' = out w.
Proof.
  eexists. split; [vm_compute; reflexivity|].
  intros d Hd.
  match goal with
  | |- ∃ w', sys_step _ ?w = _ ∧ _ =>
      assert (Haw : awaiting 0 0 w) by concrete_awaiting;
      exists (with_clock (clock w + d) w)
  end.
  assert (Hact : ∀ w, act (ActTick d) w = Ok (with_clock (clock w + d) w)).
  { intros w. simpl. by rewrite (proj2 (Z.leb_le 0 d) Hd). }
  split; [unfold sys_step; by rewrite Hact|].
  split; [done|]. split; [done|]. split; [|done].
  match goal with
  | |- sys_step _ ?w' = None =>
      assert (Hblk : step_worker 0 w' = Blocks)
  end.
  { apply (awaiting_blocks 0 0).
    eapply awaiting_act; [apply Hact|discriminate|exact Haw]. }
  unfold sys_step. cbn [crashed with_clock act]. by rewrite Hblk.
Qed.

(** * A work routine that panics *)

Lemma crashed_world_is_dead a msg w :
  sys_step a (with_crashed (Some msg) w) = None.
Proof. reflexivity. Qed.

(** C8 (as the code has it).  Nothing on the path [run], [scheduleOnce],
    [G.Run] recovers from a panic: when the work routine of a task panics,
    [Run] and [scheduleOnce] end with that panic, the process is over, and
    no goroutine (this worker or any other) takes another step. *)
Theorem work_routine_panic_ends_the_program
    (m g : nat) (w : World) (gv : G) (msg : string) :
  crashed w = None →
  wpc w !! m = Some (InRun g RFunc) → is_Some (ms w !! m) →
  gs w !! g = Some gv → Func gv = FPanic msg →
  Run g w = Panic msg ∧
  sched_from 16 m w = Panic msg ∧
  sys_step (ActWorker m) w = Some (with_crashed (Some msg) w) ∧
  ∀ a, sys_step a (with_crashed (Some msg) w) = None.
Proof.
  intros Hc Hpc [mv Hm] Hg Hf.
  assert (Hr : Run_step g RFunc w = Panic msg).
  { unfold Run_step. rewrite Hg. simpl. by rewrite Hf. }
  assert (Hs : step_worker m w = Panic msg).
  { rewrite (step_worker_at m w _ mv Hpc Hm). by rewrite Hr. }
  split; [unfold Run; simpl; by rewrite Hr|].
  split; [by rewrite sched_from_S, Hpc, Hs|].
  split; [unfold sys_step; rewrite Hc; simpl; by rewrite Hs|].
  intros a. apply crashed_world_is_dead.
Qed.

(** Instance of [work_routine_panic_ends_the_program]: G0 panics on M0. *)
Lemma work_routine_panic_ends_the_program_witness :
  ∃ w, panicking_world = Some w ∧
       sys_step (ActWorker 0) w = Some (with_crashed (Some "boom") w).
Proof.
  eexists. split; [vm_compute; reflexivity|].
  match goal with
  | |- sys_step _ ?w = _ =>
      refine (proj1 (proj2 (proj2
        (work_routine_panic_ends_the_program 0 0 w
           (mkG 0 (FPanic "boom") "running" None) "boom" _ _ _ _ _))))
  end.
  - reflexivity.
  - vm_compute. reflexivity.
  - vm_compute. eauto.
  - vm_compute. reflexivity.
  - reflexivity.
Defined.

(** C8, the claim as worded: in [main]'s scenario with a panicking G0 on P0
    and an ordinary G1 on P1, the panic is not caught: the process ends
    with it, neither M0 nor M1 can take a step afterwards, and G1 is never
    run. *)
Lemma panic_is_not_isolated :
  ∃ w w',
    panicking_world = Some w ∧
    sys_step (ActWorker 0) w = Some w' ∧
    crashed w' = Some "boom" ∧
    sys_step (ActWorker 0) w' = None ∧
    sys_step (ActWorker 1) w' = None ∧
    (Status <$> gs w' !! 1%nat) = Some "runnable" ∧
    EvFunc 1 ∉ out w'.
Proof.
  eexists _, _. split; [vm_compute; reflexivity|].
  split; [vm_compute; reflexivity|].
  split; [reflexivity|]. split; [reflexivity|]. split; [reflexivity|].
  split; [vm_compute; reflexivity|].
  vm_compute. intros H. repeat (apply elem_of_cons in H as [H|H]; [discriminate|]).
  by apply elem_of_nil in H.
Qed.

(** * The unblock handshake *)

(** A closed channel stays closed. *)
Lemma chan_closed_act a g w w' :
  act a w = Ok w' → chan_closed g w → chan_closed g w'.
Proof.
  unfold chan_closed. intros H Hc.
  assert (HfreshG : g ≠ fresh (dom (gs w))).
  { apply fresh_ne. destruct (gs w !! g); [eauto|done]. }
  destruct a; unfold_act H; step_inv; simpl; try done.
  all: repeat match goal with
       | H : gs ?w0 !! ?x = Some _, Hc : _ <$> gs ?w0 !! ?g = _ |- _ =>
           lazymatch x with
           | g => fail
           | _ => lazymatch goal with
                  | _ : x ≠ g |- _ => fail
                  | _ => destruct (decide (x = g)) as [->|]
                  end
           end
       end.
  all: try match goal with
       | H : gs ?w0 !! ?g = Some _, Hc : _ <$> gs ?w0 !! ?g = _ |- _ =>
           pose proof Hc as Hc'; rewrite H in Hc'; simpl in Hc';
           injection Hc' as Hc'; simplify_eq/=
       end.
  all: rewrite ?lookup_insert_eq, ?lookup_insert_ne by done; simpl; try done.
  all: repeat match goal with H : blockChan _ = Some _ |- _ => rewrite H in * end.
  all: simpl in *; simplify_eq; try done; try congruence.
Qed.

Lemma chan_closed_exec acts : ∀ g w w',
  exec acts w = Some w' → chan_closed g w → chan_closed g w'.
Proof.
  induction acts as [|a acts IH]; intros g w w' He Hc; simpl in *.
  - by simplify_eq.
  - unfold sys_step in He. destruct (crashed w); [done|].
    destruct (act a w) as [w1| |msg] eqn:E; [|done|].
    + eapply IH; eauto. eapply chan_closed_act; eauto.
    + eapply IH; eauto.
Qed.

(** A send on a closed channel panics. *)
Lemma signal_on_closed_channel t g w :
  crashed w = None → sigs w !! t = Some (g, SigSend) → chan_closed g w →
  sys_step (ActSignal t) w = Some (with_crashed (Some "send on closed channel") w).
Proof.
  unfold chan_closed. intros Hcr Ht Hc.
  unfold sys_step. rewrite Hcr. simpl. unfold step_signal. rewrite Ht.
  destruct (gs w !! g) as [gv|]; [|done]. simpl in *.
  destruct (blockChan gv) as [c|]; [|done]. simpl in *.
  by replace (closed c) with true by congruence.
Qed.

Lemma sys_step_worker_Ok m w w' :
  crashed w = None → step_worker m w = Ok w' →
  sys_step (ActWorker m) w = Some w'.
Proof. intros Hc Hs. unfold sys_step. rewrite Hc. simpl. by rewrite Hs. Qed.

(** C2 (as the code has it).  [Run] receives one unblock signal, which
    completes the send of the goroutine that delivered it, then closes the
    channel and marks the task done.  From then on the channel stays closed,
    and a further signal for the task is neither ignored nor reported: its
    send panics with "send on closed channel" and ends the process. *)
Theorem handshake_is_one_shot
    (m g t1 : nat) (gv : G) (w : World) :
  crashed w = None →
  wpc w !! m = Some (InRun g RRecv) → is_Some (ms w !! m) →
  gs w !! g = Some gv → blockChan gv = Some (mkChan false [t1]) →
  ∃ w3,
    exec (replicate 3 (ActWorker m)) w = Some w3 ∧
    crashed w3 = None ∧
    wpc w3 !! m = Some (AfterRun g) ∧
    gs w3 !! g = Some (set_Status "done"
                         (set_blockChan (Some (mkChan true [])) gv)) ∧
    sigs w3 = alter (λ x, (x.1, SigWoken)) t1 (sigs w) ∧
    ∀ acts w4 t2,
      exec acts w3 = Some w4 → crashed w4 = None →
      sigs w4 !! t2 = Some (g, SigSend) →
      sys_step (ActSignal t2) w4 =
        Some (with_crashed (Some "send on closed channel") w4).
Proof.
  intros Hcr Hpc [mv Hm] Hg Hch.
  set (gv1 := set_blockChan (Some (mkChan false [])) gv).
  set (w1 := goto m (InRun g RClose)
               (print EvResumed (wake t1 (put_G g gv1 w)))).
  set (gv2 := set_blockChan (Some (mkChan true [])) gv1).
  set (w2 := goto m (InRun g RDone) (abort_senders [] (put_G g gv2 w1))).
  set (w3 := goto m (AfterRun g) (print EvDone (put_G g (set_Status "done" gv2) w2))).
  assert (H1 : step_worker m w = Ok w1).
  { rewrite (step_worker_at m w _ mv Hpc Hm). unfold Run_step.
    rewrite Hg. simpl. by rewrite Hch. }
  assert (H2 : step_worker m w1 = Ok w2).
  { rewrite (step_worker_at m w1 (InRun g RClose) mv);
      [|apply wpc_goto|done].
    unfold Run_step. subst w1. simpl. by rewrite lookup_insert_eq. }
  assert (H3 : step_worker m w2 = Ok w3).
  { rewrite (step_worker_at m w2 (InRun g RDone) mv);
      [|apply wpc_goto|done].
    unfold Run_step. subst w2. simpl. by rewrite lookup_insert_eq. }
  exists w3. split.
  { simpl. rewrite (sys_step_worker_Ok m w w1 Hcr H1).
    rewrite (sys_step_worker_Ok m w1 w2 Hcr H2).
    by rewrite (sys_step_worker_Ok m w2 w3 Hcr H3). }
  split; [done|]. split; [subst w3; apply wpc_goto|]. split.
  { subst w3. simpl. by rewrite lookup_insert_eq. }
  split; [done|].
  intros acts w4 t2 He Hcr4 Ht2.
  apply (signal_on_closed_channel t2 g); [done|done|].
  eapply chan_closed_exec; [exact He|].
  unfold chan_closed. subst w3. simpl. by rewrite lookup_insert_eq.
Qed.

(** Instance of [handshake_is_one_shot]: the first signal of [main]
    resumes G0 on M0. *)
Lemma handshake_is_one_shot_witness :
  ∃ w w3,
    (blocked_world ≫= exec [ActGoSignal 0; ActSignal 0]) = Some w ∧
    exec (replicate 3 (ActWorker 0)) w = Some w3 ∧
    wpc w3 !! 0%nat = Some (AfterRun 0).
Proof.
  eexists _, _. split; [vm_compute; reflexivity|].
  match goal with
  | |- exec _ ?w = _ ∧ _ =>
      destruct (handshake_is_one_shot 0 0 0
                  (mkG 0 FReturn "running" (Some (mkChan false [0%nat]))) w)
        as (w3 & He & _ & Hpc & _)
  end.
  - reflexivity.
  - vm_compute. reflexivity.
  - vm_compute. eauto.
  - vm_compute. reflexivity.
  - reflexivity.
  - vm_compute in He. injection He as <-. split; [vm_compute; reflexivity|].
    vm_compute. reflexivity.
Defined.

(** C2, the claim as worded: in [main]'s scenario G0 has resumed and is
    done; a second signal for G0 is then delivered, and its send crashes the
    program. *)
Lemma second_signal_crashes :
  ∃ w w',
    resumed_world = Some w ∧
    (Status <$> gs w !! 0%nat) = Some "done" ∧
    crashed w = None ∧
    exec [ActGoSignal 0; ActSignal 1] w = Some w' ∧
    crashed w' = Some "send on closed channel".
Proof.
  eexists _, _. split; [vm_compute; reflexivity|].
  split; [vm_compute; reflexivity|]. split; [reflexivity|].
  split; [vm_compute; reflexivity|]. reflexivity.
Qed.

(** * One iteration that runs a task to its end *)

Lemma Run_plain g gv w :
  gs w !! g = Some gv → Func gv = FReturn → blockChan gv = None →
  Run g w = Ok (print EvDone (put_G g (set_Status "done" gv) (print (EvFunc g) w))).
Proof.
  intros Hg Hf Hb. unfold Run. simpl. unfold Run_step at 1.
  rewrite Hg. simpl. rewrite Hf, Hb. simpl. unfold Run_step. simpl.
  by rewrite Hg.
Qed.

Lemma scheduleOnce_runs_head m w mv p pv g rest gv :
  ms w !! m = Some mv → M_P mv = Some p →
  ps w !! p = Some pv → RunQ pv = g :: rest →
  NumG pv = Z.of_nat (length (RunQ pv)) →
  Z.of_nat (length (RunQ pv)) < int_max →
  gs w !! g = Some gv → Func gv = FReturn → blockChan gv = None →
  scheduleOnce m w =
    Ok (mkWorld (sched w)
          (<[g := set_Status "done" gv]> (gs w))
          (<[p := set_queue rest (Z.of_nat (length rest)) pv]> (ps w))
          (<[m := set_M_G None mv]> (ms w))
          (<[m := AfterSched]> (wpc w))
          (sigs w) (clock w)
          (out w ++ run_events (M_ID mv) (P_ID pv) g (G_ID gv))
          (crashed w)).
Proof.
  intros Hm HP Hp Hq Hn Hb Hg Hf Hc.
  assert (Hn0 : (NumG pv =? 0) = false).
  { apply Z.eqb_neq. rewrite Hn, Hq. simpl. lia. }
  assert (Hn1 : int_wrap (NumG pv - 1) = Z.of_nat (length rest)).
  { rewrite int_wrap_id; rewrite Hn, Hq in *; simpl in *;
      unfold int_min, int_max in *; lia. }
  unfold scheduleOnce.
  set (w0 := goto m SchedEntry w).
  set (w1 := goto m CheckLocal w0).
  set (w2 := goto m Pop w1).
  set (mv1 := set_M_G (Some g) mv).
  set (pv1 := set_queue rest (Z.of_nat (length rest)) pv).
  set (gv1 := set_Status "running" gv).
  set (w3 := goto m (InRun g RFunc)
               (print (EvStarting (M_ID mv) (P_ID pv) (G_ID gv))
                  (put_G g gv1 (put_M m mv1 (put_P p pv1 w2))))).
  set (w4 := goto m (InRun g RDone) (print (EvFunc g) w3)).
  set (gv2 := set_Status "done" gv1).
  set (w5 := goto m (AfterRun g) (print EvDone (put_G g gv2 w4))).
  set (w6 := goto m AfterSched
               (print (EvFinished (M_ID mv) (P_ID pv) (G_ID gv))
                  (put_M m (set_M_G None mv1) w5))).
  assert (H1 : step_worker m w0 = Ok w1).
  { rewrite (step_worker_at m w0 SchedEntry mv); [|apply wpc_goto|done].
    by rewrite HP. }
  assert (H2 : step_worker m w1 = Ok w2).
  { rewrite (step_worker_at m w1 CheckLocal mv); [|apply wpc_goto|done].
    unfold P_of. rewrite HP. simpl. rewrite Hp. simpl. by rewrite Hn0. }
  assert (H3 : step_worker m w2 = Ok w3).
  { rewrite (step_worker_at m w2 Pop mv); [|apply wpc_goto|done].
    rewrite HP. simpl. rewrite Hp. simpl. rewrite Hq, Hg. simpl.
    by rewrite Hn1. }
  assert (H4 : step_worker m w3 = Ok w4).
  { rewrite (step_worker_at m w3 (InRun g RFunc) mv1);
      [|apply wpc_goto|subst w3; simpl; by rewrite lookup_insert_eq].
    unfold Run_step. subst w3. simpl. rewrite lookup_insert_eq. simpl.
    by rewrite Hf, Hc. }
  assert (H5 : step_worker m w4 = Ok w5).
  { rewrite (step_worker_at m w4 (InRun g RDone) mv1);
      [|apply wpc_goto|subst w4 w3; simpl; by rewrite lookup_insert_eq].
    unfold Run_step. subst w4 w3. simpl. by rewrite lookup_insert_eq. }
  assert (H6 : step_worker m w5 = Ok w6).
  { rewrite (step_worker_at m w5 (AfterRun g) mv1);
      [|apply wpc_goto|subst w5 w4 w3; simpl; by rewrite lookup_insert_eq].
    unfold P_of. subst w5 w4 w3. simpl. rewrite !lookup_insert_eq. simpl.
    rewrite HP. simpl. by rewrite lookup_insert_eq. }
  rewrite (sched_from_step _ m w0 SchedEntry w1) by (done || apply wpc_goto).
  rewrite (sched_from_step _ m w1 CheckLocal w2) by (done || apply wpc_goto).
  rewrite (sched_from_step _ m w2 Pop w3) by (done || apply wpc_goto).
  rewrite (sched_from_step _ m w3 (InRun g RFunc) w4) by (done || apply wpc_goto).
  rewrite (sched_from_step _ m w4 (InRun g RDone) w5) by (done || apply wpc_goto).
  rewrite (sched_from_step _ m w5 (AfterRun g) w6) by (done || apply wpc_goto).
  rewrite sched_from_return by apply wpc_goto.
  f_equal. subst w6 w5 w4 w3 w2 w1 w0. unfold goto, print, put_G, put_M, put_P.
  simpl. unfold run_events.
  rewrite !insert_insert_eq. rewrite <- !app_assoc. simpl. done.
Qed.

(** * FIFO order of a local queue *)

Lemma plain_task_view gm gm' g :
  task_view gm' g = task_view gm g → plain_task gm g → plain_task gm' g.
Proof.
  unfold task_view, plain_task. intros Hv (gv & Hg & Hf & Hb).
  rewrite Hg in Hv. simpl in Hv.
  destruct (gm' !! g) as [gv'|]; [|done]. simpl in Hv.
  exists gv'. split; [done|]. split; congruence.
Qed.

Lemma gid_of_view gm gm' g :
  task_view gm' g = task_view gm g → gid_of gm' g = gid_of gm g.
Proof.
  unfold task_view, gid_of. intros Hv.
  destruct (gm !! g), (gm' !! g); simpl in *; congruence.
Qed.

Lemma task_view_set_Status (gm : gmap nat G) g gv s x :
  gm !! g = Some gv →
  task_view (<[g := set_Status s gv]> gm) x = task_view gm x.
Proof.
  intros Hg. unfold task_view. destruct (decide (g = x)) as [->|].
  - by rewrite lookup_insert_eq, Hg.
  - by rewrite lookup_insert_ne.
Qed.

Lemma scheduleOnce_n_drains m : ∀ l w mv p pv,
  ms w !! m = Some mv → M_P mv = Some p →
  ps w !! p = Some pv → RunQ pv = l →
  NumG pv = Z.of_nat (length l) → Z.of_nat (length l) < int_max →
  Forall (plain_task (gs w)) l →
  ∃ w',
    scheduleOnce_n (length l) m w = Ok w' ∧
    out w' = out w ++
      flat_map (λ g, run_events (M_ID mv) (P_ID pv) g (gid_of (gs w) g)) l ∧
    ps w' !! p = Some (set_queue [] 0 pv) ∧
    ∀ x, (Status <$> gs w !! x) = Some "done" ∨ x ∈ l →
         (Status <$> gs w' !! x) = Some "done".
Proof.
  induction l as [|g rest IH]; intros w mv p pv Hm HP Hp Hq Hn Hb Hl.
  - exists w. simpl. rewrite app_nil_r. split; [done|]. split; [done|].
    split.
    + rewrite Hp. f_equal. destruct pv; simpl in *. by subst.
    + intros x [Hx|Hx]; [done|]. by apply elem_of_nil in Hx.
  - apply Forall_cons in Hl as [(gv & Hg & Hf & Hc) Hl].
    simpl scheduleOnce_n.
    rewrite (scheduleOnce_runs_head m w mv p pv g rest gv); try done;
      [|by rewrite Hq..].
    simpl res_bind.
    destruct (IH (mkWorld (sched w)
                    (<[g := set_Status "done" gv]> (gs w))
                    (<[p := set_queue rest (Z.of_nat (length rest)) pv]> (ps w))
                    (<[m := set_M_G None mv]> (ms w))
                    (<[m := AfterSched]> (wpc w))
                    (sigs w) (clock w)
                    (out w ++ run_events (M_ID mv) (P_ID pv) g (G_ID gv))
                    (crashed w))
                (set_M_G None mv) p
                (set_queue rest (Z.of_nat (length rest)) pv))
      as (w' & He & Ho & Hp' & Hd); simpl.
    + by rewrite lookup_insert_eq.
    + done.
    + by rewrite lookup_insert_eq.
    + done.
    + done.
    + simpl in Hb. lia.
    + eapply Forall_impl; [exact Hl|]. intros x Hx.
      eapply plain_task_view; [|exact Hx].
      by apply task_view_set_Status.
    + simpl in *. exists w'. split; [done|]. split; [|split; [done|]].
      * rewrite Ho. rewrite <- app_assoc. f_equal.
        assert (Hid : gid_of (gs w) g = G_ID gv)
          by (unfold gid_of; by rewrite Hg).
        cbn [flat_map]. rewrite Hid. unfold run_events. cbn [app].
        do 4 f_equal. apply flat_map_ext. intros x.
        by rewrite (gid_of_view _ _ x
                      (task_view_set_Status (gs w) g gv "done" x Hg)).
      * intros x Hx. apply Hd.
        destruct (decide (g = x)) as [->|Hne].
        -- left. by rewrite lookup_insert_eq.
        -- rewrite lookup_insert_ne by done.
           destruct Hx as [Hx|Hx]; [by left|].
           apply elem_of_cons in Hx as [->|Hx]; [done|by right].
Qed.

(** ** The last iteration: tasks that fit in the local queue *)

Lemma Enqueue_all_local K p : ∀ l w pv,
  ps w !! p = Some pv →
  NumG pv = Z.of_nat (length (RunQ pv)) →
  Z.of_nat (length (RunQ pv)) + Z.of_nat (length l) <= K + 1 →
  K < int_max →
  Forall (λ g, is_Some (gs w !! g)) l →
  ∃ w',
    Enqueue_all K p l w = Ok w' ∧
    ps w' = <[p := set_queue (RunQ pv ++ l)
                     (Z.of_nat (length (RunQ pv ++ l))) pv]> (ps w) ∧
    ms w' = ms w ∧ out w' = out w ∧
    ∀ x, task_view (gs w') x = task_view (gs w) x.
Proof.
  induction l as [|g l IH]; intros w pv Hp Hn Hfit HK Hl.
  - exists w. simpl. rewrite app_nil_r. split; [done|]. split; [|done].
    rewrite <- Hn. symmetry. apply insert_id. rewrite Hp. f_equal.
    by destruct pv.
  - apply Forall_cons in Hl as [[gv Hg] Hl]. simpl in Hfit.
    simpl Enqueue_all.
    assert (HKr : 0 <= K < int_max) by lia.
    rewrite (Enqueue_local K HKr p g w pv gv)
      by (auto; unfold int_min; lia).
    simpl res_bind.
    destruct (IH (put_G g (set_Status "runnable" gv)
                    (put_P p (set_queue (RunQ pv ++ [g]) (NumG pv + 1) pv) w))
                 (set_queue (RunQ pv ++ [g]) (NumG pv + 1) pv))
      as (w' & He & Hps & Hms & Hout & Hv); simpl.
    + by rewrite lookup_insert_eq.
    + rewrite length_app. simpl. lia.
    + rewrite length_app. simpl. lia.
    + done.
    + eapply Forall_impl; [exact Hl|]. intros x [xv Hx].
      destruct (decide (g = x)) as [->|].
      * rewrite lookup_insert_eq. eauto.
      * rewrite lookup_insert_ne by done. eauto.
    + simpl in *. exists w'. split; [done|]. split; [|split; [done|split; [done|]]].
      * rewrite Hps, insert_insert_eq, <- app_assoc. done.
      * intros x. rewrite Hv. by apply task_view_set_Status.
Qed.

(** ** The sequential iteration *)

Lemma step3_Schedule_runs_head m w mv p pv g rest gv :
  Step3.ms w !! m = Some mv → Step3.M_P mv = Some p →
  Step3.ps w !! p = Some pv → Step3.RunQ pv = g :: rest →
  Step3.NumG pv = Z.of_nat (length (Step3.RunQ pv)) →
  Z.of_nat (length (Step3.RunQ pv)) < int_max →
  Step3.gs w !! g = Some gv → Step3.Func gv = FReturn →
  Step3.Schedule m w =
    Ok (Step3.mkWorld
          (<[g := Step3.set_Status "done" gv]> (Step3.gs w))
          (<[p := Step3.set_queue rest (Z.of_nat (length rest)) pv]> (Step3.ps w))
          (<[m := Step3.set_M_G None mv]> (Step3.ms w))
          (Step3.out w ++
             Step3.run_events (Step3.M_ID mv) (Step3.P_ID pv) g (Step3.G_ID gv))).
Proof.
  intros Hm HP Hp Hq Hn Hb Hg Hf.
  assert (Hn0 : (Step3.NumG pv =? 0) = false).
  { apply Z.eqb_neq. rewrite Hn, Hq. simpl. lia. }
  assert (Hn1 : int_wrap (Step3.NumG pv - 1) = Z.of_nat (length rest)).
  { rewrite int_wrap_id; rewrite Hn, Hq in *; simpl in *;
      unfold int_min, int_max in *; lia. }
  unfold Step3.Schedule. rewrite Hm. simpl. rewrite HP, Hp. simpl.
  rewrite Hn0, Hq, Hg. simpl. unfold Step3.Run. simpl.
  rewrite lookup_insert_eq. simpl. rewrite Hf. simpl.
  rewrite !lookup_insert_eq. simpl. rewrite Hn1.
  unfold Step3.print, Step3.put_G, Step3.put_M, Step3.put_P. simpl.
  rewrite !insert_insert_eq, <- !app_assoc. done.
Qed.

Lemma step3_task_view_set_Status (gm : gmap nat Step3.G) g gv s x :
  gm !! g = Some gv →
  ((λ v, (Step3.G_ID v, Step3.Func v)) <$> <[g := Step3.set_Status s gv]> gm !! x)
  = ((λ v, (Step3.G_ID v, Step3.Func v)) <$> gm !! x).
Proof.
  intros Hg. destruct (decide (g = x)) as [->|].
  - by rewrite lookup_insert_eq, Hg.
  - by rewrite lookup_insert_ne.
Qed.

Lemma step3_plain_task_view (gm gm' : gmap nat Step3.G) g :
  ((λ v, (Step3.G_ID v, Step3.Func v)) <$> gm' !! g)
  = ((λ v, (Step3.G_ID v, Step3.Func v)) <$> gm !! g) →
  Step3.plain_task gm g →
  Step3.plain_task gm' g ∧ Step3.gid_of gm' g = Step3.gid_of gm g.
Proof.
  unfold Step3.plain_task, Step3.gid_of. intros Hv (gv & Hg & Hf).
  rewrite Hg in Hv. simpl in Hv.
  destruct (gm' !! g) as [gv'|]; [|done]. simpl in Hv.
  split; [exists gv'; split; [done|congruence]|].
  rewrite Hg. simpl. congruence.
Qed.

Lemma step3_Enqueue_all_appends p : ∀ l w pv,
  Step3.ps w !! p = Some pv →
  Step3.NumG pv = Z.of_nat (length (Step3.RunQ pv)) →
  Z.of_nat (length (Step3.RunQ pv)) + Z.of_nat (length l) < int_max →
  Forall (Step3.plain_task (Step3.gs w)) l →
  ∃ w',
    Step3.Enqueue_all p l w = Ok w' ∧
    Step3.ps w' =
      <[p := Step3.set_queue (Step3.RunQ pv ++ l)
               (Z.of_nat (length (Step3.RunQ pv ++ l))) pv]> (Step3.ps w) ∧
    Step3.ms w' = Step3.ms w ∧ Step3.out w' = Step3.out w ∧
    ∀ x, Step3.plain_task (Step3.gs w) x →
         Step3.plain_task (Step3.gs w') x ∧
         Step3.gid_of (Step3.gs w') x = Step3.gid_of (Step3.gs w) x.
Proof.
  induction l as [|g l IH]; intros w pv Hp Hn Hfit Hl.
  - exists w. simpl. rewrite app_nil_r. split; [done|]. split; [|done].
    rewrite <- Hn. symmetry. apply insert_id. rewrite Hp. f_equal.
    by destruct pv.
  - apply Forall_cons in Hl as [(gv & Hg & Hf) Hl]. simpl in Hfit.
    simpl Step3.Enqueue_all. unfold Step3.Enqueue at 1.
    rewrite Hp. simpl. rewrite Hg. simpl.
    rewrite int_wrap_id by (unfold int_min, int_max in *; lia).
    assert (Hkeep : ∀ x, Step3.plain_task (Step3.gs w) x →
              Step3.plain_task (<[g := Step3.set_Status "runnable" gv]> (Step3.gs w)) x ∧
              Step3.gid_of (<[g := Step3.set_Status "runnable" gv]> (Step3.gs w)) x
              = Step3.gid_of (Step3.gs w) x).
    { intros x Hx. apply step3_plain_task_view; [|done].
      by apply step3_task_view_set_Status. }
    destruct (IH (Step3.put_G g (Step3.set_Status "runnable" gv)
                    (Step3.put_P p
                       (Step3.set_queue (Step3.RunQ pv ++ [g])
                          (Step3.NumG pv + 1) pv) w))
                 (Step3.set_queue (Step3.RunQ pv ++ [g]) (Step3.NumG pv + 1) pv))
      as (w' & He & Hps & Hms & Hout & Hv); simpl.
    + by rewrite lookup_insert_eq.
    + rewrite length_app. simpl. lia.
    + rewrite length_app. simpl. lia.
    + eapply Forall_impl; [exact Hl|]. intros x Hx. by apply Hkeep.
    + simpl in *. exists w'. split; [done|].
      split; [|split; [done|split; [done|]]].
      * rewrite Hps, insert_insert_eq, <- app_assoc. done.
      * intros x Hx. destruct (Hkeep x Hx) as [H1 H2].
        destruct (Hv x H1) as [H3 H4]. split; [done|congruence].
Qed.

Lemma step3_Schedule_n_drains m : ∀ l w mv p pv,
  Step3.ms w !! m = Some mv → Step3.M_P mv = Some p →
  Step3.ps w !! p = Some pv → Step3.RunQ pv = l →
  Step3.NumG pv = Z.of_nat (length l) → Z.of_nat (length l) < int_max →
  Forall (Step3.plain_task (Step3.gs w)) l →
  ∃ w',
    Step3.Schedule_n (length l) m w = Ok w' ∧
    Step3.out w' = Step3.out w ++
      flat_map (λ g, Step3.run_events (Step3.M_ID mv) (Step3.P_ID pv) g
                       (Step3.gid_of (Step3.gs w) g)) l ∧
    Step3.ps w' !! p = Some (Step3.set_queue [] 0 pv) ∧
    ∀ x, (Step3.Status <$> Step3.gs w !! x) = Some "done" ∨ x ∈ l →
         (Step3.Status <$> Step3.gs w' !! x) = Some "done".
Proof.
  induction l as [|g rest IH]; intros w mv p pv Hm HP Hp Hq Hn Hb Hl.
  - exists w. simpl. rewrite app_nil_r. split; [done|]. split; [done|].
    split.
    + rewrite Hp. f_equal. destruct pv; simpl in *. by subst.
    + intros x [Hx|Hx]; [done|]. by apply elem_of_nil in Hx.
  - apply Forall_cons in Hl as [(gv & Hg & Hf) Hl].
    simpl Step3.Schedule_n.
    rewrite (step3_Schedule_runs_head m w mv p pv g rest gv); try done;
      [|by rewrite Hq..].
    simpl res_bind.
    assert (Hkeep : ∀ x, Step3.plain_task (Step3.gs w) x →
              Step3.plain_task (<[g := Step3.set_Status "done" gv]> (Step3.gs w)) x ∧
              Step3.gid_of (<[g := Step3.set_Status "done" gv]> (Step3.gs w)) x
              = Step3.gid_of (Step3.gs w) x).
    { intros x Hx. apply step3_plain_task_view; [|done].
      by apply step3_task_view_set_Status. }
    destruct (IH (Step3.mkWorld
                    (<[g := Step3.set_Status "done" gv]> (Step3.gs w))
                    (<[p := Step3.set_queue rest (Z.of_nat (length rest)) pv]>
                       (Step3.ps w))
                    (<[m := Step3.set_M_G None mv]> (Step3.ms w))
                    (Step3.out w ++
                       Step3.run_events (Step3.M_ID mv) (Step3.P_ID pv) g
                         (Step3.G_ID gv)))
                (Step3.set_M_G None mv) p
                (Step3.set_queue rest (Z.of_nat (length rest)) pv))
      as (w' & He & Ho & Hp' & Hd); simpl.
    + by rewrite lookup_insert_eq.
    + done.
    + by rewrite lookup_insert_eq.
    + done.
    + done.
    + simpl in Hb. lia.
    + eapply Forall_impl; [exact Hl|]. intros x Hx. by apply Hkeep.
    + simpl in *. exists w'. split; [done|]. split; [|split; [done|]].
      * rewrite Ho. rewrite <- app_assoc. f_equal.
        assert (Hid : Step3.gid_of (Step3.gs w) g = Step3.G_ID gv)
          by (unfold Step3.gid_of; by rewrite Hg).
        cbn [flat_map]. rewrite Hid. unfold Step3.run_events. cbn [app].
        do 4 f_equal.
        clear -Hl Hkeep. induction Hl as [|x l Hx Hl IHl]; [done|].
        simpl. destruct (Hkeep x Hx) as [_ ->]. by rewrite IHl.
      * intros x Hx. apply Hd.
        destruct (decide (g = x)) as [->|Hne].
        -- left. by rewrite lookup_insert_eq.
        -- rewrite lookup_insert_ne by done.
           destruct Hx as [Hx|Hx]; [by left|].
           apply elem_of_cons in Hx as [->|Hx]; [done|by right].
Qed.

(** ** The order of the starts under any interleaving *)

Lemma starts_app pid o1 o2 : starts pid (o1 ++ o2) = starts pid o1 ++ starts pid o2.
Proof. unfold starts. apply omap_app. Qed.

Lemma start_order_keep p L w w' :
  globalQ (sched w') = [] →
  (∀ q, (P_ID <$> ps w' !! q) = (P_ID <$> ps w !! q)) →
  (RunQ <$> ps w' !! p) = (RunQ <$> ps w !! p) →
  (∀ x, is_Some (gs w !! x) →
        is_Some (gs w' !! x) ∧ gid_of (gs w') x = gid_of (gs w) x) →
  (∀ pv, ps w !! p = Some pv →
         starts (P_ID pv) (out w') = starts (P_ID pv) (out w)) →
  start_order p L w → start_order p L w'.
Proof.
  intros Hg Hid Hq Hgs Hst (_ & pv & Hp & Huniq & Hall & HL).
  split; [done|].
  rewrite Hp in Hq. simpl in Hq.
  pose proof (Hid p) as Hidp. rewrite Hp in Hidp. simpl in Hidp.
  destruct (ps w' !! p) as [pv'|] eqn:Hp'; [|done]. simpl in *.
  injection Hq as Hq. injection Hidp as Hidp.
  exists pv'. split; [done|]. rewrite Hq, Hidp. split_and!.
  - intros p' pv'' Hp'' He. pose proof (Hid p') as H'. rewrite Hp'' in H'.
    simpl in H'. destruct (ps w !! p') as [pv0|] eqn:Hp0; [|done].
    simpl in H'. injection H' as H'. apply (Huniq p' pv0 Hp0). congruence.
  - eapply Forall_impl; [exact Hall|]. intros x Hx. by apply Hgs.
  - rewrite (Hst pv Hp), <- HL. f_equal.
    clear -Hall Hgs. induction Hall as [|x l Hx Hl IH]; [done|].
    simpl. rewrite IH. f_equal. by apply Hgs.
Qed.

Lemma gs_keep_insert (gm : gmap nat G) n gv gv' :
  gm !! n = Some gv → G_ID gv' = G_ID gv →
  ∀ x, is_Some (gm !! x) →
       is_Some (<[n:=gv']> gm !! x) ∧ gid_of (<[n:=gv']> gm) x = gid_of gm x.
Proof.
  intros Hn Hid x Hx. unfold gid_of. destruct (decide (n = x)) as [->|Hne].
  - rewrite lookup_insert_eq, Hn. simpl. split; [eauto|]. by rewrite Hid.
  - by rewrite lookup_insert_ne.
Qed.

Lemma gs_keep_fresh (gm : gmap nat G) gv :
  ∀ x, is_Some (gm !! x) →
       is_Some (<[fresh (dom gm):=gv]> gm !! x) ∧
       gid_of (<[fresh (dom gm):=gv]> gm) x = gid_of gm x.
Proof.
  intros x Hx. pose proof (fresh_ne _ _ _ Hx) as Hne.
  unfold gid_of. by rewrite lookup_insert_ne.
Qed.

Lemma ps_keep_id (pm : gmap nat P) q0 pv0 l n :
  pm !! q0 = Some pv0 →
  ∀ q, (P_ID <$> <[q0 := set_queue l n pv0]> pm !! q) = (P_ID <$> pm !! q).
Proof.
  intros H0 q. destruct (decide (q0 = q)) as [->|Hne].
  - by rewrite lookup_insert_eq, H0.
  - by rewrite lookup_insert_ne.
Qed.

Lemma starts_other pid o mid pid' gid :
  pid' ≠ pid → starts pid (o ++ [EvStarting mid pid' gid]) = starts pid o.
Proof.
  intros Hne. rewrite starts_app. simpl. rewrite decide_False by done.
  by rewrite app_nil_r.
Qed.

Lemma start_order_pop p L w m mv q pv g rest gv :
  ms w !! m = Some mv → ps w !! q = Some pv → RunQ pv = g :: rest →
  gs w !! g = Some gv →
  start_order p L w →
  start_order p L
    (goto m (InRun g RFunc)
       (print (EvStarting (M_ID mv) (P_ID pv) (G_ID gv))
          (put_G g (set_Status "running" gv)
             (put_M m (set_M_G (Some g) mv)
                (put_P q (set_queue rest (int_wrap (NumG pv - 1)) pv) w))))).
Proof.
  intros Hm Hq HR Hgv Hinv.
  destruct (decide (q = p)) as [->|Hne].
  - destruct Hinv as (Hg & pv0 & Hp & Huniq & Hall & HL).
    rewrite Hq in Hp. injection Hp as <-.
    split; [done|]. simpl. exists (set_queue rest (int_wrap (NumG pv - 1)) pv).
    rewrite lookup_insert_eq. split; [done|]. simpl.
    rewrite HR in Hall, HL. apply Forall_cons in Hall as [_ Hall].
    assert (Hkeep := gs_keep_insert (gs w) g gv (set_Status "running" gv)
                       Hgv eq_refl).
    split_and!.
    + intros p' pv' Hp' He. destruct (decide (p = p')) as [->|Hn]; [done|].
      rewrite lookup_insert_ne in Hp' by done. by eapply Huniq.
    + eapply Forall_impl; [exact Hall|]. intros x Hx. by apply Hkeep.
    + rewrite starts_app. simpl. rewrite decide_True by done.
      rewrite <- HL, <- app_assoc. simpl. f_equal.
      unfold gid_of at 2. rewrite Hgv. simpl. f_equal.
      clear -Hall Hkeep. induction Hall as [|x l Hx Hl IH]; [done|].
      simpl. rewrite IH. f_equal. by apply Hkeep.
  - eapply start_order_keep; [..|exact Hinv]; simpl.
    + apply Hinv.
    + by eapply ps_keep_id.
    + by rewrite lookup_insert_ne.
    + by eapply gs_keep_insert.
    + intros pv0 Hp0. apply starts_other. intros He.
      destruct Hinv as (_ & pv1 & Hp1 & Huniq & _). simplify_eq.
      apply Hne. by eapply Huniq.
Qed.

Lemma start_order_act a p L w w' :
  act a w = Ok w' → is_submit a = false →
  start_order p L w → start_order p L w'.
Proof.
  intros H Hs Hinv. destruct a; try done.
  all: unfold_act H; step_inv.
  all: try (destruct Hinv as (Hg & _); congruence).
  all: try (by eapply start_order_pop).
  all: try (eapply start_order_keep; [..|exact Hinv]; simpl;
            [ first [apply Hinv | done]
            | first [done | by eapply ps_keep_id | idtac]
            | first [done | idtac]
            | first [ by (intros x' Hx'; split)
                    | by eapply gs_keep_insert | by apply gs_keep_fresh | idtac]
            | first [done
                    | intros pv' _; rewrite ?starts_app; simpl;
                      by rewrite ?app_nil_r
                    | idtac] ]).
Qed.

Lemma start_order_exec acts : ∀ p L w w',
  Forall (λ a, is_submit a = false) acts →
  exec acts w = Some w' → start_order p L w → start_order p L w'.
Proof.
  induction acts as [|a acts IH]; intros p L w w' Hf He Hinv; simpl in *.
  - by simplify_eq.
  - apply Forall_cons in Hf as [Ha Hf].
    unfold sys_step in He. destruct (crashed w); [done|].
    destruct (act a w) as [w1| |msg] eqn:E; [|done|].
    + eapply IH; eauto. eapply start_order_act; eauto.
    + eapply IH; eauto.
Qed.




(** * Run on a task that is already done *)

Lemma Run_closed_channel g gv c w :
  gs w !! g = Some gv → Func gv = FReturn →
  blockChan gv = Some c → closed c = true →
  Run g w = Panic "close of closed channel".
Proof.
  intros Hg Hf Hb Hc. unfold Run. simpl. unfold Run_step at 1.
  rewrite Hg. simpl. rewrite Hf, Hb. simpl.
  unfold Run_step at 1. simpl. rewrite Hg. simpl. rewrite Hb.
  destruct (sendq c) as [|t q] eqn:Hq.
  - rewrite Hc. simpl. unfold Run_step. simpl. rewrite Hg. simpl.
    by rewrite Hb, Hc.
  - simpl. unfold Run_step. simpl. rewrite lookup_insert_eq. simpl.
    by rewrite Hc.
Qed.

(** C3 (as the code has it).  [Run] has no test of the state: every
    call executes the work routine and then sets the state to done.  A
    second call on a task that is already done executes the work routine a
    second time; for a blocking task, whose channel the first call closed,
    it panics with "close of closed channel".  Within the scheduler a task
    is removed from the head of the local queue by the iteration that runs
    it, which calls [Run] once. *)
Theorem Run_has_no_done_guard (g : nat) (gv : G) (w : World) :
  gs w !! g = Some gv → Func gv = FReturn →
  (blockChan gv = None →
   ∃ w1 w2,
     Run g w = Ok w1 ∧
     gs w1 !! g = Some (set_Status "done" gv) ∧
     out w1 = out w ++ [EvFunc g; EvDone] ∧
     Run g w1 = Ok w2 ∧
     gs w2 !! g = Some (set_Status "done" gv) ∧
     out w2 = out w1 ++ [EvFunc g; EvDone])
  ∧ (∀ c, blockChan gv = Some c → closed c = true →
          Run g w = Panic "close of closed channel")
  ∧ (∀ m mv p pv rest,
       blockChan gv = None →
       ms w !! m = Some mv → M_P mv = Some p →
       ps w !! p = Some pv → RunQ pv = g :: rest →
       NumG pv = Z.of_nat (length (RunQ pv)) →
       Z.of_nat (length (RunQ pv)) < int_max →
       ∃ w', scheduleOnce m w = Ok w' ∧
             (RunQ <$> ps w' !! p) = Some rest ∧
             out w' = out w ++ run_events (M_ID mv) (P_ID pv) g (G_ID gv)).
Proof.
  intros Hg Hf. split; [|split].
  - intros Hb. eexists _, _.
    split; [by apply Run_plain|]. simpl. rewrite lookup_insert_eq.
    split; [done|]. split; [by rewrite <- app_assoc|].
    split; [apply Run_plain; simpl; by rewrite ?lookup_insert_eq|].
    simpl. rewrite lookup_insert_eq. split; [done|].
    by rewrite <- !app_assoc.
  - intros c Hb Hc. by eapply Run_closed_channel.
  - intros m mv p pv rest Hb Hm HP Hp Hq Hn Hlen.
    rewrite (scheduleOnce_runs_head m w mv p pv g rest gv) by done.
    eexists. split; [reflexivity|]. simpl. by rewrite lookup_insert_eq.
Qed.

(** Instance of [Run_has_no_done_guard]: the first task of [main]. *)
Lemma Run_has_no_done_guard_witness :
  ∃ w w1 w2,
    tasks_world 1 = Some w ∧ Run 0 w = Ok w1 ∧ Run 0 w1 = Ok w2 ∧
    out w2 = out w1 ++ [EvFunc 0; EvDone].
Proof.
  eexists.
  match goal with
  | |- ∃ w1 w2, ?t = Some ?w ∧ _ =>
      assert (Hw : t = Some w) by (vm_compute; reflexivity)
  end.
  match type of Hw with
  | _ = Some ?w =>
      destruct (proj1 (Run_has_no_done_guard 0 (mkG 0 FReturn "runnable" None) w
                         ltac:(vm_compute; reflexivity) eq_refl) eq_refl)
        as (w1 & w2 & H1 & _ & _ & H2 & _ & Ho)
  end.
  exists w1, w2. done.
Defined.

(** C3, the claim as worded: on the first task of [main], a second [Run]
    after the task is done is not a no-op; the work routine runs again.  And
    a task handed to [Enqueue] twice is run twice. *)
Lemma second_Run_runs_the_work_again :
  ∃ w w1 w2 w3 w4,
    tasks_world 1 = Some w ∧
    Run 0 w = Ok w1 ∧ (Status <$> gs w1 !! 0%nat) = Some "done" ∧
    Run 0 w1 = Ok w2 ∧ w2 ≠ w1 ∧
    out w2 = [EvFunc 0; EvDone; EvFunc 0; EvDone] ∧
    Enqueue_all 5 0 [0; 0]%nat w = Ok w3 ∧
    scheduleOnce_n 2 0 w3 = Ok w4 ∧
    out w4 = run_events 0 0 0 0 ++ run_events 0 0 0 0.
Proof.
  eexists _, _, _, _, _. split; [vm_compute; reflexivity|].
  split; [vm_compute; reflexivity|]. split; [vm_compute; reflexivity|].
  split; [vm_compute; reflexivity|].
  split; [intros H; apply (f_equal out) in H; vm_compute in H; discriminate|].
  split; [reflexivity|]. split; [vm_compute; reflexivity|].
  split; [vm_compute; reflexivity|]. reflexivity.
Qed.

(** * Ownership of a P: a worker or the pool *)

Ltac own_tac :=
  unfold pool; simpl;
  repeat match goal with H : M_P _ = _ |- _ => rewrite H end;
  repeat match goal with H : availPs _ = Some _ |- _ => rewrite H end; simpl;
  repeat match goal with H : buf _ = _ :: _ |- _ => rewrite H end;
  first
    [ apply own_publish; reflexivity
    | apply own_clear; reflexivity
    | apply own_recv
    | apply own_bind; reflexivity
    | apply own_keep;
      [ reflexivity | reflexivity | reflexivity | reflexivity
      | unfold pc_ok; simpl;
        repeat match goal with H : M_P _ = _ |- _ => rewrite H end;
        simpl; try done;
        try (intros; apply bool_decide_eq_true_2; done) ] ].

Lemma step_worker_own m w w' :
  step_worker m w = Ok w' →
  ∃ pc mv pc' mv',
    wpc w !! m = Some pc ∧ ms w !! m = Some mv ∧
    wpc w' = <[m := pc']> (wpc w) ∧ ms w' = <[m := mv']> (ms w) ∧
    Ps (sched w') = Ps (sched w) ∧
    own_step pc (M_P mv) (pool w) pc' (M_P mv') (pool w').
Proof.
  intros H. unfold step_worker in H.
  destruct (wpc w !! m) as [pc|] eqn:Hpc; [|done].
  destruct (ms w !! m) as [mv|] eqn:Hm; [|done]. simpl in H.
  exists pc, mv.
  assert (Hid : ms w = <[m := mv]> (ms w)) by (symmetry; by apply insert_id).
  destruct pc; unfold Run_step in H; step_inv.
  all: eexists _, _; split; [done|]; split; [done|];
       split; [simpl; reflexivity|];
       split; [simpl; first [reflexivity | exact Hid]|];
       split; [simpl; reflexivity|].
  all: own_tac.
Qed.

Lemma bound_pc_unpublished pc : bound_pc pc = true → published pc = false.
Proof. by destruct pc. Qed.

Lemma published_pc_ok pc b : published pc = true → pc_ok pc b = true.
Proof. by destruct pc. Qed.

Lemma pc_ok_bound pc b : bound_pc pc = true → pc_ok pc b = true → is_Some b.
Proof.
  unfold pc_ok. intros ->. apply bool_decide_eq_true_1.
Qed.

Lemma bound_pc_ok pc p : bound_pc pc = true → pc_ok pc (Some p) = true.
Proof. unfold pc_ok. intros ->. by apply bool_decide_eq_true_2. Qed.

Lemma owned_plain pc b :
  published pc = false → receiving pc = false → owned pc b = b.
Proof. destruct pc; simpl; done. Qed.

Lemma owned_published pc b : published pc = true → owned pc b = None.
Proof. destruct pc; simpl; done. Qed.

Lemma bound_pc_plain pc : bound_pc pc = true → receiving pc = false.
Proof. by destruct pc. Qed.

Lemma own_step_inv pc b pl pc' b' pl' :
  own_step pc b pl pc' b' pl' →
  (b' = b ∧ pl' = pl ∧ owned pc' b' = owned pc b ∧
   (pc_ok pc b = true → pc_ok pc' b = true)) ∨
  (b' = b ∧ pl' = pl ++ [b] ∧ bound_pc pc = true ∧ published pc' = true) ∨
  (b' = None ∧ pl' = pl ∧ owned pc' b' = owned pc b ∧
   pc_ok pc' None = true) ∨
  (pc = Grab ∧ b' = b ∧ pl = owned pc' b' :: pl' ∧
   (pc_ok pc b = true → is_Some (owned pc' b') → pc_ok pc' b' = true)) ∨
  (b' = owned pc b ∧ pl' = pl ∧ owned pc' b' = owned pc b ∧
   (pc_ok pc b = true → pc_ok pc' b' = true)).
Proof.
  inversion 1; subst.
  - left. split_and!; try done. by rewrite !owned_plain.
  - right; left. done.
  - right; right; left. split_and!; try done.
    rewrite (owned_published pc) by done. by apply owned_plain.
  - right; right; right; left. split_and!; try done.
    unfold pc_ok. simpl. intros Hb Hv. rewrite Hb. simpl.
    by apply bool_decide_eq_true_2.
  - right; right; right; right. simpl. split_and!; try done.
    + apply owned_plain; [by apply bound_pc_unpublished|by apply bound_pc_plain].
    + unfold pc_ok at 1. simpl. intros Hb.
      apply andb_true_iff in Hb as [_ Hv]. apply bool_decide_eq_true_1 in Hv.
      destruct Hv as [p ->]. by apply bound_pc_ok.
Qed.

Section WorkerStep.
Variables (m : nat) (w w' : World) (pc pc' : PC) (mv mv' : M).
Hypothesis Hpc : wpc w !! m = Some pc.
Hypothesis Hm : ms w !! m = Some mv.
Hypothesis Hwpc : wpc w' = <[m := pc']> (wpc w).
Hypothesis Hms : ms w' = <[m := mv']> (ms w).

Lemma hold_of_other m0 : m0 ≠ m → hold_of m0 w' = hold_of m0 w.
Proof.
  intros Hne. unfold hold_of, bind_of.
  by rewrite Hwpc, Hms, !lookup_insert_ne.
Qed.

Lemma hold_of_self : hold_of m w' = owned pc' (M_P mv').
Proof.
  unfold hold_of, bind_of. by rewrite Hwpc, Hms, !lookup_insert_eq.
Qed.

Lemma hold_of_self_pre : hold_of m w = owned pc (M_P mv).
Proof. unfold hold_of, bind_of. by rewrite Hpc, Hm. Qed.

Lemma bind_wpc_after m0 :
  (∀ m1, is_Some (bind_of m1 w) → is_Some (wpc w !! m1)) →
  is_Some (bind_of m0 w') → is_Some (wpc w' !! m0).
Proof.
  intros H. unfold bind_of in *. rewrite Hwpc, Hms.
  destruct (decide (m = m0)) as [->|Hne].
  - rewrite !lookup_insert_eq. eauto.
  - rewrite !lookup_insert_ne by done. apply H.
Qed.

Lemma pc_ok_after :
  (∀ m0 pc0 b, wpc w !! m0 = Some pc0 → bind_of m0 w = Some b →
               pc_ok pc0 b = true) →
  pc_ok pc' (M_P mv') = true →
  ∀ m0 pc0 b, wpc w' !! m0 = Some pc0 → bind_of m0 w' = Some b →
              pc_ok pc0 b = true.
Proof.
  intros H Hok m0 pc0 b. unfold bind_of in *. rewrite Hwpc, Hms.
  destruct (decide (m = m0)) as [->|Hne].
  - rewrite !lookup_insert_eq. simpl. intros; by simplify_eq.
  - rewrite !lookup_insert_ne by done. apply H.
Qed.

Lemma one_owner_worker_step :
  Ps (sched w') = Ps (sched w) →
  own_step pc (M_P mv) (pool w) pc' (M_P mv') (pool w') →
  one_owner w → one_owner w'.
Proof.
  intros HPs Hown (Hnd & Hnone & Hthr & Hok & Huniq & Hout & Hall).
  assert (Hokm : pc_ok pc (M_P mv) = true).
  { apply (Hok m); [done|]. unfold bind_of. by rewrite Hm. }
  pose proof hold_of_self as Hself. pose proof hold_of_self_pre as Hpre.
  pose proof hold_of_other as Hoth.
  assert (Hkeep : owned pc' (M_P mv') = owned pc (M_P mv) →
                  pool w' = pool w → pc_ok pc' (M_P mv') = true →
                  one_owner w').
  { (* the worker owns what it owned, the pool is the same *)
    intros Ho Hpl Hok'.
    assert (Hsame : ∀ m0, hold_of m0 w' = hold_of m0 w).
    { intros m0. destruct (decide (m0 = m)) as [->|Hne]; [|by apply Hoth].
      by rewrite Hself, Hpre. }
    unfold one_owner. rewrite HPs, Hpl. split_and!; try done.
    + intros m0. by apply bind_wpc_after.
    + by apply pc_ok_after.
    + intros m1 m2 p. rewrite !Hsame. apply Huniq.
    + intros m0 p. rewrite Hsame. apply Hout.
    + intros p Hp. destruct (Hall p Hp) as [?|[m0 H0]]; [by left|].
      right. exists m0. by rewrite Hsame. }
  destruct (own_step_inv _ _ _ _ _ _ Hown)
    as [(Hb & Hpl & Ho & Himp)
       |[(Hb & Hpl & Hbd & Hp1)
        |[(Hb & Hpl & Ho & Hok1)
         |[(Hgrab & Hb & Hpool & Hok1)
          |(Hb & Hpl & Ho & Hok1)]]]].
  - apply Hkeep; [done|done|]. rewrite Hb. by apply Himp.
  - (* publication: the P moves from the worker to the pool *)
    destruct (pc_ok_bound _ _ Hbd Hokm) as [p HP].
    rewrite HP in *.
    rewrite (owned_plain pc) in Hpre
      by (first [by apply bound_pc_unpublished|by apply bound_pc_plain]).
    rewrite (owned_published pc') in Hself by done.
    unfold one_owner. rewrite HPs, Hpl. split_and!.
    + apply NoDup_app. split; [done|]. split; [|apply NoDup_singleton].
      intros x Hx Hx'. apply list_elem_of_singleton in Hx' as ->.
      by apply (Hout m p).
    + intros Hin. apply elem_of_app in Hin as [?|Hin]; [done|].
      by apply list_elem_of_singleton in Hin.
    + intros m0. by apply bind_wpc_after.
    + apply pc_ok_after; [done|]. by apply published_pc_ok.
    + intros m1 m2 q H1 H2.
      destruct (decide (m1 = m)) as [->|N1]; [congruence|].
      destruct (decide (m2 = m)) as [->|N2]; [congruence|].
      rewrite Hoth in H1, H2 by done. by eapply Huniq.
    + intros m0 q H0 Hin.
      destruct (decide (m0 = m)) as [->|N0]; [congruence|].
      rewrite Hoth in H0 by done.
      apply elem_of_app in Hin as [Hin|Hin]; [by apply (Hout m0 q)|].
      apply list_elem_of_singleton in Hin. simplify_eq.
      apply N0. by eapply Huniq.
    + intros q Hq. destruct (Hall q Hq) as [?|[m0 H0]].
      * left. apply elem_of_app. by left.
      * destruct (decide (m0 = m)) as [->|N0].
        -- left. apply elem_of_app. right. apply list_elem_of_singleton.
           congruence.
        -- right. exists m0. by rewrite Hoth.
  - (* m.P = nil after the publication *)
    apply Hkeep; [done|done|]. by rewrite Hb.
  - (* the receive: the P moves from the pool to the worker *)
    rewrite Hgrab in Hokm, Hpre.
    assert (HbN : M_P mv = None).
    { unfold pc_ok in Hokm. simpl in Hokm.
      by apply bool_decide_eq_true_1 in Hokm. }
    rewrite HbN in Hpre. simpl in Hpre.
    rewrite Hpool in Hnd, Hnone, Hout, Hall.
    apply NoDup_cons in Hnd as [Hv Hnd].
    destruct (owned pc' (M_P mv')) as [p|] eqn:HP';
      [|exfalso; apply Hnone; apply elem_of_cons; by left].
    unfold one_owner. rewrite HPs. split_and!.
    + done.
    + intros Hin. apply Hnone. apply elem_of_cons. by right.
    + intros m0. by apply bind_wpc_after.
    + apply pc_ok_after; [done|]. apply Hok1; [by rewrite Hgrab|eauto].
    + intros m1 m2 q H1 H2.
      destruct (decide (m1 = m)) as [->|N1];
        destruct (decide (m2 = m)) as [->|N2]; [done|..].
      * rewrite Hoth in H2 by done. rewrite Hself in H1. simplify_eq.
        exfalso. apply (Hout m2 q H2). apply elem_of_cons. by left.
      * rewrite Hoth in H1 by done. rewrite Hself in H2. simplify_eq.
        exfalso. apply (Hout m1 q H1). apply elem_of_cons. by left.
      * rewrite Hoth in H1, H2 by done. by eapply Huniq.
    + intros m0 q H0 Hin.
      destruct (decide (m0 = m)) as [->|N0].
      * rewrite Hself in H0. by simplify_eq.
      * rewrite Hoth in H0 by done. apply (Hout m0 q H0).
        apply elem_of_cons. by right.
    + intros q Hq. destruct (Hall q Hq) as [Hin|[m0 H0]].
      * apply elem_of_cons in Hin as [Hin|Hin].
        -- right. exists m. rewrite Hself. congruence.
        -- by left.
      * destruct (decide (m0 = m)) as [->|N0]; [congruence|].
        right. exists m0. by rewrite Hoth.
  - (* m.P = p after the receive *)
    apply Hkeep; [done|done|]. by apply Hok1.
Qed.
End WorkerStep.


Lemma one_owner_frame w w' :
  wpc w' = wpc w → (∀ m, bind_of m w' = bind_of m w) →
  pool w' = pool w → Ps (sched w') = Ps (sched w) →
  one_owner w → one_owner w'.
Proof.
  intros Hw Hb Hp HPs.
  assert (Hh : ∀ m, hold_of m w' = hold_of m w).
  { intros m. unfold hold_of. by rewrite Hw, Hb. }
  unfold one_owner. rewrite Hw, Hp, HPs.
  intros (? & ? & Hthr & Hok & Huniq & Hout & Hall). split_and!; try done.
  - intros m. rewrite Hb. apply Hthr.
  - intros m pc b. rewrite Hb. apply Hok.
  - intros m1 m2 p. rewrite !Hh. apply Huniq.
  - intros m p. rewrite Hh. apply Hout.
  - intros p Hp'. destruct (Hall p Hp') as [?|[m Hm]]; [by left|].
    right. exists m. by rewrite Hh.
Qed.

Lemma bind_of_insert_same (w : World) (mm : gmap nat M) m mv mv' m0 :
  mm !! m = Some mv → M_P mv' = M_P mv →
  (M_P <$> <[m := mv']> mm !! m0) = (M_P <$> mm !! m0).
Proof.
  intros Hm He. destruct (decide (m = m0)) as [->|].
  - rewrite lookup_insert_eq, Hm. simpl. by rewrite He.
  - by rewrite lookup_insert_ne.
Qed.

Lemma one_owner_act a w w' :
  act a w = Ok w' → is_setup a = false → one_owner w → one_owner w'.
Proof.
  intros H Hs Hinv. destruct a; try done.
  - simpl in H.
    destruct (step_worker_own m w w' H)
      as (pc & mv & pc' & mv' & Hpc & Hm & Hw & Hms & HPs & Hown).
    by eapply (one_owner_worker_step m w w' pc pc' mv mv').
  - unfold_act H. step_inv; (eapply one_owner_frame; [..|exact Hinv]); done.
  - unfold_act H. step_inv; (eapply one_owner_frame; [..|exact Hinv]); done.
  - unfold_act H. step_inv; (eapply one_owner_frame; [..|exact Hinv]); done.
  - unfold_act H. step_inv; (eapply one_owner_frame; [..|exact Hinv]); done.
  - unfold_act H. step_inv; (eapply one_owner_frame; [..|exact Hinv]); done.
  - unfold_act H. step_inv. eapply one_owner_frame; [..|exact Hinv]; try done.
    intros m0. unfold bind_of. simpl.
    by eapply (bind_of_insert_same w).
Qed.

Lemma one_owner_exec acts : ∀ w w',
  Forall (λ a, is_setup a = false) acts →
  exec acts w = Some w' → one_owner w → one_owner w'.
Proof.
  induction acts as [|a acts IH]; intros w w' Hf He Hinv; simpl in *.
  - by simplify_eq.
  - apply Forall_cons in Hf as [Ha Hf].
    unfold sys_step in He. destruct (crashed w); [done|].
    destruct (act a w) as [w1| |msg] eqn:E; [|done|].
    + eapply IH; eauto. eapply one_owner_act; eauto.
    + eapply IH; eauto.
Qed.

Lemma one_owner_at_rest w :
  one_owner w → nobody_publishing w → nobody_receiving w → one_location w.
Proof.
  intros (Hnd & Hnone & Hthr & Hok & Huniq & Hout & Hall) Hq Hr p Hp.
  assert (Hh : ∀ m q, bound_to m q w ↔ hold_of m w = Some q).
  { intros m q. unfold bound_to, hold_of. split.
    - intros Hb. rewrite Hb.
      destruct (Hthr m) as [pc Hpc]; [by rewrite Hb|].
      rewrite Hpc. by rewrite (owned_plain pc) by eauto.
    - destruct (wpc w !! m) as [pc|] eqn:Hpc; [|done].
      destruct (bind_of m w) as [b|]; [|done].
      rewrite (owned_plain pc) by eauto. by intros ->. }
  destruct (Hall p Hp) as [Hin|[m Hm]].
  - left. split; [done|]. intros m Hb. apply Hh in Hb. by apply (Hout m p).
  - right. split; [by apply (Hout m p)|].
    exists m. split; [by apply Hh|].
    intros m' Hb. apply Hh in Hb. by eapply Huniq.
Qed.

(** [one_owner] from checks that enumerate the workers. *)
Lemma one_owner_intro w :
  NoDup (pool w) → None ∉ pool w →
  map_Forall (λ m _, is_Some (wpc w !! m)) (ms w) →
  map_Forall (λ m pc, ∀ b, bind_of m w = Some b → pc_ok pc b = true) (wpc w) →
  map_Forall (λ m1 _, map_Forall (λ m2 _,
     ∀ p, hold_of m1 w = Some p → hold_of m2 w = Some p → m1 = m2) (wpc w))
    (wpc w) →
  map_Forall (λ m _, ∀ p, hold_of m w = Some p → Some p ∉ pool w) (wpc w) →
  Forall (λ p, Some p ∈ pool w ∨ ∃ m, hold_of m w = Some p) (Ps (sched w)) →
  one_owner w.
Proof.
  intros Hnd Hnone Hthr Hok Huniq Hout Hall.
  assert (Hdom : ∀ m p, hold_of m w = Some p → ∃ pc, wpc w !! m = Some pc).
  { intros m p. unfold hold_of. destruct (wpc w !! m); [eauto|done]. }
  split_and!; try done.
  - intros m [b Hb]. unfold bind_of in Hb.
    destruct (ms w !! m) as [mv|] eqn:Hm; [|done]. by apply (Hthr m mv).
  - intros m pc b Hpc. by apply (Hok m pc).
  - intros m1 m2 p H1 H2.
    destruct (Hdom _ _ H1) as [pc1 Hpc1], (Hdom _ _ H2) as [pc2 Hpc2].
    by apply (Huniq m1 pc1 Hpc1 m2 pc2 Hpc2 p).
  - intros m p H. destruct (Hdom _ _ H) as [pc Hpc]. by apply (Hout m pc).
  - intros p Hp. by apply (proj1 (Forall_forall _ _) Hall).
Qed.

(** Enumeration of the entries of a closed map. *)
Ltac enum_map :=
  apply map_Forall_to_list;
  match goal with
  | |- Forall ?f (map_to_list ?m) =>
      let l := eval vm_compute in (map_to_list m) in
      change (Forall f l)
  end;
  repeat first [apply Forall_nil_2 | apply Forall_cons_2];
  cbv beta; simpl uncurry.

(** C1 (as the code has it).  After a setup in which every P has one owner,
    every P always has exactly one owner, the pool or one worker, under any
    interleaving of the goroutines: it is in [availPs] (once), or it is
    what [m.P] points to for exactly one worker that has not sent it to
    [availPs], or it is in the variable [p] of exactly one worker that has
    received it from [availPs] and not yet executed [m.P = p]; never two of
    these, never none.  Neither the park nor the acquisition is one step:
    the park is the send and then [m.P = nil], the acquisition is the
    receive and then [m.P = p].  Whenever no worker stands between the two
    statements of a park or of an acquisition, every P is in exactly one of
    the two locations, the pool or the [P] field of exactly one worker. *)
Theorem every_P_has_one_owner (w w' : World) (acts : list Action) :
  one_owner w →
  Forall (λ a, is_setup a = false) acts →
  exec acts w = Some w' →
  one_owner w' ∧
  (nobody_publishing w' → nobody_receiving w' → one_location w').
Proof.
  intros Hinv Hf He.
  pose proof (one_owner_exec acts w w' Hf He Hinv) as Hinv'.
  split; [done|]. by apply one_owner_at_rest.
Qed.

Ltac concrete_one_owner :=
  apply one_owner_intro;
  [ vm_compute; constructor
  | vm_compute; apply not_elem_of_nil
  | enum_map; vm_compute; eauto
  | enum_map; intros b Hb; vm_compute in Hb; simplify_eq; reflexivity
  | enum_map; enum_map; intros p H1 H2; vm_compute in H1, H2; by simplify_eq
  | enum_map; intros p H1; vm_compute in H1; simplify_eq;
    vm_compute; apply not_elem_of_nil
  | vm_compute;
    repeat first [apply Forall_nil_2 | apply Forall_cons_2];
    right; first [by exists 0%nat | by exists 1%nat] ].

(** Instance of [every_P_has_one_owner]: [main]'s setup, then M0 parks P0
    in its first iteration and, after the cooldown, takes it back from the
    pool. *)
Lemma every_P_has_one_owner_witness :
  ∃ w w', main_setup = Some w ∧
          exec (replicate 10 (ActWorker 0) ++ [ActTick cooldown] ++
                replicate 5 (ActWorker 0)) w = Some w' ∧
          one_owner w' ∧ one_location w'.
Proof.
  eexists _, _. split; [vm_compute; reflexivity|].
  match goal with
  | |- exec ?l ?w = ?w1 ∧ _ =>
      assert (He : exec l w = w1) by (vm_compute; reflexivity);
      split; [exact He|]
  end.
  match type of He with
  | exec ?l ?w = Some ?w' =>
      destruct (every_P_has_one_owner w w' l) as [Hown Hloc];
      [| |exact He|split; [exact Hown|apply Hloc]]
  end.
  - clear He. concrete_one_owner.
  - repeat constructor.
  - clear He Hown Hloc. enum_map; reflexivity.
  - clear He Hown Hloc. enum_map; reflexivity.
Defined.

(** C1, the claim as worded: in [main]'s scenario, right after M0 has
    executed [s.availPs <- m.P] and before it executes [m.P = nil], P0 is in
    the pool and M0 is still bound to it; the two statements are separate
    steps, and M1 can take a step in between. *)
Lemma published_P_is_in_both_places :
  ∃ w, publishing_world = Some w ∧
       (0%nat ∈ Ps (sched w)) ∧
       Some 0%nat ∈ pool w ∧ bound_to 0 0 w ∧
       wpc w !! 0%nat = Some ParkClear ∧
       is_Some (sys_step (ActWorker 1) w) ∧
       ¬ one_location w.
Proof.
  eexists. split; [vm_compute; reflexivity|].
  assert (Hin : ∀ x : option nat, x ∈ [x]) by (intros; apply list_elem_of_singleton; done).
  split; [vm_compute; constructor|].
  split; [vm_compute; apply Hin|].
  split; [vm_compute; reflexivity|].
  split; [vm_compute; reflexivity|].
  split; [vm_compute; eauto|].
  intros H. destruct (H 0%nat) as [[_ Hn]|[Hn _]].
  - vm_compute. constructor.
  - apply (Hn 0%nat). vm_compute. reflexivity.
  - apply Hn. vm_compute. apply Hin.
Qed.

(** The acquisition has the same window as the park: in [main]'s scenario,
    right after M0 has received P0 from the pool and before it executes
    [m.P = p], P0 is neither in the pool nor bound to any worker, and M1
    can take a step in between. *)
Lemma received_P_is_in_neither_place :
  ∃ w, receiving_world = Some w ∧
       (0%nat ∈ Ps (sched w)) ∧
       (Some 0%nat ∉ pool w) ∧ (∀ m, ¬ bound_to m 0 w) ∧
       wpc w !! 0%nat = Some (GrabBind (Some 0%nat)) ∧
       hold_of 0 w = Some 0%nat ∧
       is_Some (sys_step (ActWorker 1) w) ∧
       ¬ one_location w.
Proof.
  eexists. split; [vm_compute; reflexivity|].
  match goal with
  | |- _ ∈ Ps (sched ?w) ∧ _ =>
      assert (Hnb : ∀ m, ¬ bound_to m 0 w);
      [|assert (Hnp : Some 0%nat ∉ pool w)
          by (vm_compute; apply not_elem_of_nil)]
  end.
  { intros m Hb. unfold bound_to, bind_of in Hb.
    match type of Hb with
    | (M_P <$> ?mm !! m) = _ =>
        assert (Hall : map_Forall (λ _ mv, M_P mv ≠ Some 0%nat) mm)
          by (enum_map; vm_compute; done);
        destruct (mm !! m) as [mv|] eqn:E; [|done];
        apply (Hall m mv E); simpl in Hb; congruence
    end. }
  split; [vm_compute; constructor|].
  split; [exact Hnp|]. split; [exact Hnb|].
  split; [vm_compute; reflexivity|].
  split; [vm_compute; reflexivity|].
  split; [vm_compute; eauto|].
  intros H. destruct (H 0%nat) as [[Hin _]|[_ (m & Hb & _)]].
  - vm_compute. constructor.
  - by apply Hnp.
  - by apply (Hnb m).
Qed.

(** * The two labelling functions of the escape-analysis demo *)

Lemma fill_spec ids : ∀ i results,
  (i + length ids ≤ length results)%nat →
  fill i ids results =
    Ok (take i results ++ (Sprintf_item <$> ids) ++ drop (i + length ids) results).
Proof.
  induction ids as [|id rest IH]; intros i results Hlen; simpl in *.
  - by rewrite Nat.add_0_r, take_drop.
  - case_decide; [|lia].
    rewrite IH by (rewrite length_insert; lia).
    f_equal.
    rewrite drop_insert_lt by lia.
    replace (S i + length rest)%nat with (i + S (length rest))%nat by lia.
    rewrite (take_S_r (<[i:=Sprintf_item id]> results) i (Sprintf_item id))
      by (apply list_lookup_insert_eq; lia).
    rewrite take_insert_ge by lia.
    by rewrite <- app_assoc.
Qed.

Lemma fill_guarded_spec ids : ∀ i results,
  (i + length ids ≤ length results)%nat →
  fill_guarded i ids results =
    take i results ++ (Sprintf_item <$> ids) ++ drop (i + length ids) results.
Proof.
  induction ids as [|id rest IH]; intros i results Hlen; simpl in *.
  - by rewrite Nat.add_0_r, take_drop.
  - case_decide; [|lia].
    rewrite IH by (rewrite length_insert; lia).
    rewrite drop_insert_lt by lia.
    replace (S i + length rest)%nat with (i + S (length rest))%nat by lia.
    rewrite (take_S_r (<[i:=Sprintf_item id]> results) i (Sprintf_item id))
      by (apply list_lookup_insert_eq; lia).
    rewrite take_insert_ge by lia.
    by rewrite <- app_assoc.
Qed.

Lemma fill_guarded_length ids : ∀ i results,
  length (fill_guarded i ids results) = length results.
Proof.
  induction ids as [|id rest IH]; intros i results; simpl; [done|].
  rewrite IH. case_decide; [by rewrite length_insert|done].
Qed.

(** X1.  [processDataEscaping] never panics: for every slice of ids it
    returns the slice of the same length whose i-th element is the label
    ["item-"] followed by the decimal form of the i-th id. *)
Theorem processDataEscaping_labels_every_id (ids : list Z) :
  processDataEscaping ids = Ok (Sprintf_item <$> ids).
Proof.
  unfold processDataEscaping.
  rewrite fill_spec by (rewrite length_replicate; simpl; lia).
  simpl. rewrite drop_ge by (rewrite length_replicate; lia).
  by rewrite app_nil_r.
Qed.

(** X2.  On a slice of at most 100 ids, [processDataStack] returns the
    same labels as [processDataEscaping]. *)
Theorem processDataStack_agrees_up_to_100_ids (ids : list Z) :
  (length ids ≤ 100)%nat →
  processDataStack ids = processDataEscaping ids.
Proof.
  intros Hlen. unfold processDataStack, processDataEscaping.
  rewrite fill_spec by (rewrite length_replicate; simpl; lia).
  rewrite firstn_all, fill_guarded_length, length_replicate.
  case_decide; [|lia]. f_equal.
  rewrite fill_guarded_spec by (rewrite length_replicate; simpl; lia).
  simpl. rewrite (drop_ge (replicate (length ids) "")) by (rewrite length_replicate; lia).
  rewrite app_nil_r, take_app_le by (rewrite length_fmap; lia).
  apply take_ge. rewrite length_fmap. lia.
Qed.

(** Instance of [processDataStack_agrees_up_to_100_ids]: the first slice
    that [main] builds, with a negative id added. *)
Lemma processDataStack_agrees_up_to_100_ids_witness :
  processDataStack [0; 1; 2; -7] = processDataEscaping [0; 1; 2; -7] ∧
  processDataStack [0; 1; 2; -7] = Ok ["item-0"; "item-1"; "item-2"; "item--7"].
Proof.
  split; [|vm_compute; reflexivity].
  apply processDataStack_agrees_up_to_100_ids. simpl. lia.
Defined.

(** X3.  On a slice of more than 100 ids [processDataStack] panics: the
    guard [i < len(results)] keeps the writes of the loop inside the array,
    but the final [results[:len(ids)]] is out of bounds.
    [processDataEscaping] returns on the same input. *)
Theorem processDataStack_panics_beyond_100_ids (ids : list Z) :
  (100 < length ids)%nat →
  processDataStack ids = Panic "slice bounds out of range" ∧
  processDataEscaping ids = Ok (Sprintf_item <$> ids).
Proof.
  intros Hlen. split.
  - unfold processDataStack. rewrite fill_guarded_length, length_replicate.
    case_decide; [lia|done].
  - unfold processDataEscaping.
    rewrite fill_spec by (rewrite length_replicate; simpl; lia).
    simpl. rewrite drop_ge by (rewrite length_replicate; lia).
    by rewrite app_nil_r.
Qed.

(** Instance of [processDataStack_panics_beyond_100_ids]: 101 ids. *)
Lemma processDataStack_panics_beyond_100_ids_witness :
  processDataStack (replicate 101 7) = Panic "slice bounds out of range" ∧
  processDataEscaping (replicate 101 7) = Ok (Sprintf_item <$> replicate 101 7).
Proof.
  apply processDataStack_panics_beyond_100_ids.
  rewrite length_replicate. lia.
Defined.

Lemma Sprintf_item_inj a b : Sprintf_item a = Sprintf_item b → a = b.
Proof.
  unfold Sprintf_item. simpl. intros H. simplify_eq.
  by apply (inj pretty).
Qed.

(** X4.  Distinct ids get distinct labels: on a slice without duplicates
    [processDataEscaping] returns a slice without duplicates. *)
Theorem processDataEscaping_keeps_ids_apart (ids : list Z) :
  NoDup ids →
  ∃ labels, processDataEscaping ids = Ok labels ∧ NoDup labels.
Proof.
  intros Hnd. exists (Sprintf_item <$> ids). split.
  - unfold processDataEscaping.
    rewrite fill_spec by (rewrite length_replicate; simpl; lia).
    simpl. rewrite drop_ge by (rewrite length_replicate; lia).
    by rewrite app_nil_r.
  - apply (NoDup_fmap_2_strong Sprintf_item); [|done].
    intros a b _ _. apply Sprintf_item_inj.
Qed.

(** Instance of [processDataEscaping_keeps_ids_apart]: ids that differ only
    in their sign or in a trailing zero. *)
Lemma processDataEscaping_keeps_ids_apart_witness :
  ∃ labels, processDataEscaping [1; -1; 10; 0] = Ok labels ∧ NoDup labels.
Proof.
  apply processDataEscaping_keeps_ids_apart.
  apply (bool_decide_unpack _). vm_compute. exact I.
Defined.

(** * The sequential iteration: one task per call of [Schedule] *)

Lemma step3_Schedule_idle m w mv p pv :
  Step3.ms w !! m = Some mv → Step3.M_P mv = Some p →
  Step3.ps w !! p = Some pv → Step3.NumG pv = 0 →
  Step3.Schedule m w = Ok (Step3.print (Step3.EvIdle (Step3.M_ID mv)) w).
Proof.
  intros Hm HP Hp Hn. unfold Step3.Schedule.
  rewrite Hm. simpl. rewrite HP, Hp. simpl. by rewrite Hn.
Qed.

(** X5.  [Schedule] runs exactly one task per call.  [k] calls on a queue
    of plain tasks run the first [k] of them in order and leave the others
    queued, untouched, with [NumG] equal to their number; calls made after
    the queue is empty only print the idle line. *)
Theorem Schedule_runs_one_task_per_call (k : nat) :
  ∀ (m p : nat) (w : Step3.World) (mv : Step3.M) (pv : Step3.P) (l : list nat),
    Step3.ms w !! m = Some mv → Step3.M_P mv = Some p →
    Step3.ps w !! p = Some pv → Step3.RunQ pv = l →
    Step3.NumG pv = Z.of_nat (length l) → Z.of_nat (length l) < int_max →
    Forall (Step3.plain_task (Step3.gs w)) l →
    ∃ w',
      Step3.Schedule_n k m w = Ok w' ∧
      Step3.out w' = Step3.out w ++
        flat_map (λ g, Step3.run_events (Step3.M_ID mv) (Step3.P_ID pv) g
                         (Step3.gid_of (Step3.gs w) g)) (take k l) ++
        replicate (k - length l) (Step3.EvIdle (Step3.M_ID mv)) ∧
      Step3.ps w' !! p =
        Some (Step3.set_queue (drop k l) (Z.of_nat (length (drop k l))) pv) ∧
      (∀ x, x ∈ take k l → (Step3.Status <$> Step3.gs w' !! x) = Some "done") ∧
      (∀ x, x ∉ take k l → Step3.gs w' !! x = Step3.gs w !! x).
Proof.
  induction k as [|k IH]; intros m p w mv pv l Hm HP Hp Hq Hn Hb Hl.
  { exists w. simpl. rewrite app_nil_r, drop_0. split; [done|]. split; [done|].
    split; [|split; [|done]].
    - rewrite Hp. f_equal. destruct pv; simpl in *. by subst.
    - intros x Hx. rewrite take_0 in Hx. by apply elem_of_nil in Hx. }
  destruct l as [|g rest].
  - simpl Step3.Schedule_n.
    rewrite (step3_Schedule_idle m w mv p pv) by done. simpl res_bind.
    destruct (IH m p (Step3.print (Step3.EvIdle (Step3.M_ID mv)) w) mv pv [])
      as (w' & He & Ho & Hp' & Hd & Hk); try done.
    exists w'. split; [done|]. rewrite ?take_nil, ?drop_nil in *. simpl in *.
    split; [|done].
    rewrite Ho, <- app_assoc, Nat.sub_0_r. done.
  - apply Forall_cons in Hl as [(gv & Hg & Hf) Hl].
    simpl Step3.Schedule_n.
    rewrite (step3_Schedule_runs_head m w mv p pv g rest gv); try done;
      [|by rewrite Hq..].
    simpl res_bind.
    assert (Hkeep : ∀ x, Step3.plain_task (Step3.gs w) x →
              Step3.plain_task (<[g := Step3.set_Status "done" gv]> (Step3.gs w)) x ∧
              Step3.gid_of (<[g := Step3.set_Status "done" gv]> (Step3.gs w)) x
              = Step3.gid_of (Step3.gs w) x).
    { intros x Hx. apply step3_plain_task_view; [|done].
      by apply step3_task_view_set_Status. }
    destruct (IH m p
                (Step3.mkWorld
                    (<[g := Step3.set_Status "done" gv]> (Step3.gs w))
                    (<[p := Step3.set_queue rest (Z.of_nat (length rest)) pv]>
                       (Step3.ps w))
                    (<[m := Step3.set_M_G None mv]> (Step3.ms w))
                    (Step3.out w ++
                       Step3.run_events (Step3.M_ID mv) (Step3.P_ID pv) g
                         (Step3.G_ID gv)))
                (Step3.set_M_G None mv)
                (Step3.set_queue rest (Z.of_nat (length rest)) pv) rest)
      as (w' & He & Ho & Hp' & Hd & Hk); simpl.
    + by rewrite lookup_insert_eq.
    + done.
    + by rewrite lookup_insert_eq.
    + done.
    + done.
    + simpl in Hb. lia.
    + eapply Forall_impl; [exact Hl|]. intros x Hx. by apply Hkeep.
    + simpl in *. exists w'. split; [done|].
      split; [|split; [done|split]].
      * rewrite Ho. rewrite <- !app_assoc. f_equal.
        assert (Hid : Step3.gid_of (Step3.gs w) g = Step3.G_ID gv)
          by (unfold Step3.gid_of; by rewrite Hg).
        rewrite Hid. unfold Step3.run_events. cbn [app].
        do 4 f_equal. f_equal.
        assert (Hl' : Forall (Step3.plain_task (Step3.gs w)) (take k rest))
          by (by apply Forall_take).
        clear -Hl' Hkeep. induction Hl' as [|x l Hx Hl IHl]; [done|].
        simpl. destruct (Hkeep x Hx) as [_ ->]. by rewrite IHl.
      * intros x Hx. apply elem_of_cons in Hx as [->|Hx]; [|by apply Hd].
        destruct (decide (g ∈ take k rest)) as [Hin|Hnin]; [by apply Hd|].
        rewrite (Hk g Hnin). by rewrite lookup_insert_eq.
      * intros x Hx. apply not_elem_of_cons in Hx as [Hne Hx].
        rewrite (Hk x Hx). by rewrite lookup_insert_ne.
Qed.

(** Instance of [Schedule_runs_one_task_per_call]: [main] submits three
    tasks and calls [Schedule] twice; the third task is left in the queue,
    still runnable. *)
Lemma Schedule_runs_one_task_per_call_witness :
  ∃ w w',
    Step3.Enqueue_all 0 [0; 1; 2]%nat Step3.main_world = Ok w ∧
    Step3.Schedule_n 2 0 w = Ok w' ∧
    Step3.out w' = Step3.run_events 0 0 0 0 ++ Step3.run_events 0 0 1 1 ∧
    Step3.ps w' !! 0%nat = Some (Step3.mkP 0 [2%nat] 1) ∧
    (Step3.Status <$> Step3.gs w' !! 2%nat) = Some "runnable".
Proof.
  eexists.
  match goal with
  | |- ∃ w', ?t = Ok ?w ∧ _ =>
      assert (Hw : t = Ok w) by (vm_compute; reflexivity)
  end.
  match type of Hw with
  | _ = Ok ?w =>
      destruct (Schedule_runs_one_task_per_call 2 0%nat 0%nat w
                  (Step3.mkM 0 (Some 0%nat) None)
                  (Step3.mkP 0 [0; 1; 2]%nat 3) [0; 1; 2]%nat)
        as (w' & Hs & Ho & Hp & _ & Hk)
  end.
  - vm_compute. reflexivity.
  - reflexivity.
  - vm_compute. reflexivity.
  - reflexivity.
  - reflexivity.
  - vm_compute. reflexivity.
  - repeat constructor; eexists; (split; [vm_compute; reflexivity|done]).
  - exists w'. split; [exact Hw|]. split; [exact Hs|].
    split; [rewrite Ho; reflexivity|]. split; [rewrite Hp; reflexivity|].
    rewrite (Hk 2%nat); [vm_compute; reflexivity|].
    simpl. rewrite !elem_of_cons, elem_of_nil. intros [?|[?|?]]; done.
Defined.

(** * The last iteration: setup, pool and mutex *)

(** A property kept by every enabled transition, and by a crash, holds
    along every execution. *)
Lemma exec_invariant (I : World → Prop) (ok : Action → bool) :
  (∀ a w w', ok a = true → act a w = Ok w' → I w → I w') →
  (∀ msg w, I w → I (with_crashed (Some msg) w)) →
  ∀ acts w w',
    Forall (λ a, ok a = true) acts → exec acts w = Some w' → I w → I w'.
Proof.
  intros Hact Hcrash.
  induction acts as [|a acts IH]; intros w w' Hf He Hinv; simpl in *.
  - by simplify_eq.
  - apply Forall_cons in Hf as [Ha Hf].
    unfold sys_step in He. destruct (crashed w); [done|].
    destruct (act a w) as [w1| |msg] eqn:E; [|done|].
    + eapply IH; eauto.
    + eapply IH; eauto.
Qed.

Lemma Forall_any_action (acts : list Action) :
  Forall (λ a, (λ _ : Action, true) a = true) acts.
Proof. by apply Forall_forall. Qed.

(** X6.  [AddM] tests only the upper bound of [pIndex].  With
    [0 <= pIndex < len(s.Ps)] it returns a new M bound to [s.Ps[pIndex]],
    with an open stop channel and a zero [parkTime], appended to [s.Ms],
    counted in the WaitGroup and with its goroutine started; with
    [pIndex >= len(s.Ps)] it panics with its own message; a negative
    [pIndex] passes the test and panics in the index expression. *)
Theorem AddM_checks_only_the_upper_bound (id pIndex : Z) (w : World) :
  (0 <= pIndex < Z.of_nat (length (Ps (sched w))) →
   ∃ m p w',
     AddM id pIndex w = Ok (m, w') ∧
     Ps (sched w) !! Z.to_nat pIndex = Some p ∧
     ms w !! m = None ∧
     ms w' !! m = Some (mkM id (Some p) None make_chan zeroTime) ∧
     wpc w' !! m = Some LoopSelect ∧
     Ms (sched w') = Ms (sched w) ++ [m] ∧
     wg (sched w') = wg (sched w) + 1) ∧
  (Z.of_nat (length (Ps (sched w))) <= pIndex →
   AddM id pIndex w = Panic "P index out of bounds") ∧
  (pIndex < 0 →
   ∃ msg, AddM id pIndex w = Panic msg ∧ msg ≠ "P index out of bounds").
Proof.
  split_and!.
  - intros [Hlo Hhi]. unfold AddM.
    destruct (Z.leb_spec (Z.of_nat (length (Ps (sched w)))) pIndex); [lia|].
    destruct (Z.ltb_spec pIndex 0); [lia|].
    destruct (lookup_lt_is_Some_2 (Ps (sched w)) (Z.to_nat pIndex)) as [p Hp];
      [lia|].
    rewrite Hp. eexists _, p, _. split; [reflexivity|]. split; [done|].
    split; [apply not_elem_of_dom, is_fresh|]. simpl.
    rewrite !lookup_insert_eq.
    destruct (availPs (sched w)); simpl; done.
  - intros Hhi. unfold AddM.
    destruct (Z.leb_spec (Z.of_nat (length (Ps (sched w)))) pIndex); [done|lia].
  - intros Hneg. unfold AddM.
    destruct (Z.leb_spec (Z.of_nat (length (Ps (sched w)))) pIndex); [lia|].
    destruct (Z.ltb_spec pIndex 0); [|lia].
    eexists. split; [reflexivity|]. intros Heq. discriminate Heq.
Qed.

(** Instance of [AddM_checks_only_the_upper_bound]: after [AddP(0)], the
    indices 0, 1 and -1. *)
Lemma AddM_checks_only_the_upper_bound_witness :
  (∃ m p w', AddM 0 0 (AddP 0 empty_world).2 = Ok (m, w') ∧
             ms w' !! m = Some (mkM 0 (Some p) None make_chan zeroTime)) ∧
  AddM 0 1 (AddP 0 empty_world).2 = Panic "P index out of bounds" ∧
  (∃ msg, AddM 0 (-1) (AddP 0 empty_world).2 = Panic msg ∧
          msg ≠ "P index out of bounds").
Proof.
  split_and!.
  - destruct (proj1 (AddM_checks_only_the_upper_bound 0 0 (AddP 0 empty_world).2))
      as (m & p & w' & He & _ & _ & Hm & _); [simpl; lia|].
    by exists m, p, w'.
  - apply (AddM_checks_only_the_upper_bound 0 1 (AddP 0 empty_world).2).
    simpl. lia.
  - apply (AddM_checks_only_the_upper_bound 0 (-1) (AddP 0 empty_world).2).
    lia.
Defined.

Lemma pool_cap_act a w w' n :
  act a w = Ok w' → pool_cap w = Some n → (length (pool w) ≤ n)%nat →
  pool_cap w' = Some n ∧ (length (pool w') ≤ n)%nat.
Proof.
  intros H Hc Hl. unfold pool_cap, pool in *.
  destruct (availPs (sched w)) as [c|] eqn:Ec; [|done]. simpl in Hc, Hl.
  injection Hc as Hc.
  destruct a; unfold_act H.
  all: step_inv; simpl; rewrite ?Ec; simpl; try done.
  all: repeat match goal with
         | H : availPs _ = Some _ |- _ => rewrite Ec in H; injection H as <-
         end.
  all: simpl; rewrite ?length_app; simpl; try (split; [congruence|lia]).
  all: match goal with H : buf _ = _ :: _ |- _ => rewrite H in *; simpl in * end.
  all: split; [congruence|lia].
Qed.

Lemma pool_cap_exec acts w w' n :
  pool_cap w = Some n → (length (pool w) ≤ n)%nat →
  exec acts w = Some w' →
  pool_cap w' = Some n ∧ (length (pool w') ≤ n)%nat.
Proof.
  intros Hc Hl He.
  apply (exec_invariant
           (λ w, pool_cap w = Some n ∧ (length (pool w) ≤ n)%nat)
           (λ _, true)) with (acts := acts) (w := w); try done.
  - intros a w0 w1 _ Ha [? ?]. by eapply pool_cap_act.
  - apply Forall_any_action.
Qed.

(** X7.  The capacity of the pool [s.availPs] is fixed by the first call
    of [AddM]: it is the number of Ps that exist at that call.  No later
    transition changes it (an [AddP] after the first [AddM] does not enlarge
    the pool), and the pool never holds more values than its capacity. *)
Theorem availPs_capacity_is_fixed_by_first_AddM :
  (∀ id pIndex w m w',
     availPs (sched w) = None → AddM id pIndex w = Ok (m, w') →
     pool_cap w' = Some (length (Ps (sched w))) ∧ pool w' = []) ∧
  (∀ acts w w' n,
     pool_cap w = Some n → (length (pool w) ≤ n)%nat →
     exec acts w = Some w' →
     pool_cap w' = Some n ∧ (length (pool w') ≤ n)%nat).
Proof.
  split.
  - intros id pIndex w m w' Hnone H. unfold AddM in H. step_inv.
    unfold pool_cap, pool. simpl. rewrite Hnone. done.
  - intros acts w w' n Hc Hl He. by eapply pool_cap_exec.
Qed.

(** Instance of [availPs_capacity_is_fixed_by_first_AddM]: in [main] the
    first [AddM] comes after one [AddP], so the pool of the two Ps has
    room for one. *)
Lemma availPs_capacity_is_fixed_by_first_AddM_witness :
  ∃ w w', exec [ActAddP 0; ActAddM 0 0] empty_world = Some w ∧
          exec [ActAddP 1; ActAddM 1 1] w = Some w' ∧
          length (Ps (sched w')) = 2%nat ∧ pool_cap w' = Some 1%nat.
Proof.
  eexists _, _. split; [vm_compute; reflexivity|].
  match goal with
  | |- exec ?l ?w = ?w1 ∧ _ =>
      assert (He : exec l w = w1) by (vm_compute; reflexivity);
      split; [exact He|]; split; [reflexivity|];
      refine (proj1 (proj2 availPs_capacity_is_fixed_by_first_AddM
                       l w _ 1%nat _ _ He))
  end.
  - reflexivity.
  - simpl. lia.
Defined.

(** X8.  In [main] the pool has room for one P.  In every world that the
    program reaches after the setup of [main], the pool holds at most one
    P, and while it holds one, a worker that has reached the send of its
    own park, [s.availPs <- m.P], cannot complete it. *)
Theorem main_pool_has_room_for_one_P
    (w0 w : World) (acts : list Action) (m : nat) (mv : M) :
  main_setup = Some w0 → exec acts w0 = Some w →
  (length (pool w) ≤ 1)%nat ∧
  (wpc w !! m = Some ParkSend → ms w !! m = Some mv → pool w ≠ [] →
   step_worker m w = Blocks).
Proof.
  intros H0 He.
  assert (Hc0 : pool_cap w0 = Some 1%nat ∧ pool w0 = []).
  { vm_compute in H0. injection H0 as <-. by vm_compute. }
  destruct Hc0 as [Hc0 Hp0].
  destruct (pool_cap_exec acts w0 w 1%nat Hc0) as [Hc Hl];
    [rewrite Hp0; simpl; lia|done|].
  split; [done|]. intros Hpc Hm Hne.
  rewrite (step_worker_at m w ParkSend mv Hpc Hm).
  unfold availPs_send. unfold pool_cap, pool in *.
  destruct (availPs (sched w)) as [c|]; [|done].
  simpl in *. injection Hc as Hc. case_decide; [|done].
  destruct (buf c); [done|]. simpl in *. lia.
Qed.

(** Instance of [main_pool_has_room_for_one_P]: M0 has parked the empty
    P0; M1, whose P1 is empty too, is stuck in the send of its park. *)
Lemma main_pool_has_room_for_one_P_witness :
  ∃ w0 w, main_setup = Some w0 ∧
          exec (replicate 8 (ActWorker 0) ++ replicate 6 (ActWorker 1)) w0
            = Some w ∧
          pool w = [Some 0%nat] ∧ step_worker 1 w = Blocks.
Proof.
  eexists _, _. split; [vm_compute; reflexivity|].
  match goal with
  | |- exec ?l ?w0 = ?w1 ∧ _ =>
      assert (He : exec l w0 = w1) by (vm_compute; reflexivity);
      split; [exact He|]; split; [vm_compute; reflexivity|];
      refine (proj2 (main_pool_has_room_for_one_P w0 _ l 1%nat
                       (mkM 1 (Some 1%nat) None make_chan 0) _ He) _ _ _)
  end.
  - vm_compute. reflexivity.
  - vm_compute. reflexivity.
  - vm_compute. reflexivity.
  - vm_compute. discriminate.
Defined.

(** ** The mutex *)

Lemma step_worker_mutex m w w' :
  step_worker m w = Ok w' →
  ∃ pc pc',
    wpc w !! m = Some pc ∧ wpc w' = <[m := pc']> (wpc w) ∧
    ((in_critical pc' = in_critical pc ∧ mu (sched w') = mu (sched w)) ∨
     (in_critical pc = false ∧ mu (sched w) = false ∧
      in_critical pc' = true ∧ mu (sched w') = true) ∨
     (in_critical pc = true ∧ mu (sched w) = true ∧
      in_critical pc' = false ∧ mu (sched w') = false)).
Proof.
  intros H. unfold step_worker in H.
  destruct (wpc w !! m) as [pc|] eqn:Hpc; [|done].
  destruct (ms w !! m) as [mv|] eqn:Hm; [|done]. simpl in H.
  exists pc.
  destruct pc; unfold Run_step in H; step_inv.
  all: eexists; split; [done|]; split; [simpl; reflexivity|]; simpl.
  all: first [ by left | by (right; left) | by (right; right) ].
Qed.

Lemma mutex_ok_frame w w' :
  wpc w' = wpc w → mu (sched w') = mu (sched w) → mutex_ok w → mutex_ok w'.
Proof. unfold mutex_ok. by intros -> ->. Qed.

Lemma mutex_ok_worker m w w' :
  step_worker m w = Ok w' → mutex_ok w → mutex_ok w'.
Proof.
  intros H [Huniq Hheld].
  destruct (step_worker_mutex m w w' H) as (pc & pc' & Hpc & Hw & Hcase).
  assert (Hlook : ∀ m0 pc0, wpc w' !! m0 = Some pc0 →
            (m0 = m ∧ pc0 = pc') ∨ (m0 ≠ m ∧ wpc w !! m0 = Some pc0)).
  { intros m0 pc0. rewrite Hw. destruct (decide (m = m0)) as [->|Hne].
    - rewrite lookup_insert_eq. intros; simplify_eq. by left.
    - rewrite lookup_insert_ne by done. by right. }
  assert (Hother : ∀ m0 pc0, m0 ≠ m → wpc w !! m0 = Some pc0 →
            wpc w' !! m0 = Some pc0).
  { intros m0 pc0 Hne. by rewrite Hw, lookup_insert_ne. }
  assert (Hself : wpc w' !! m = Some pc') by (by rewrite Hw, lookup_insert_eq).
  destruct Hcase as [[Hc Hmu]|[(Hc & Hmu & Hc' & Hmu')|(Hc & Hmu & Hc' & Hmu')]].
  - split.
    + intros m1 m2 pc1 pc2 H1 H2 Hc1 Hc2.
      apply Hlook in H1 as [[-> ->]|[Hn1 H1]], H2 as [[-> ->]|[Hn2 H2]];
        try done.
      * rewrite Hc in Hc1. by apply (Huniq m m2 pc pc2).
      * rewrite Hc in Hc2. by apply (Huniq m1 m pc1 pc).
      * by apply (Huniq m1 m2 pc1 pc2).
    + rewrite Hmu, Hheld. split.
      * intros (m0 & pc0 & H0 & Hc0). destruct (decide (m0 = m)) as [->|Hne].
        -- exists m, pc'. simplify_eq. by rewrite Hc.
        -- exists m0, pc0. split; [by apply Hother|done].
      * intros (m0 & pc0 & H0 & Hc0).
        apply Hlook in H0 as [[-> ->]|[Hn0 H0]].
        -- exists m, pc. by rewrite <- Hc.
        -- by exists m0, pc0.
  - assert (Hnone : ∀ m0 pc0, wpc w !! m0 = Some pc0 → in_critical pc0 = false).
    { intros m0 pc0 H0. destruct (in_critical pc0) eqn:E; [|done].
      assert (mu (sched w) = true) by (apply Hheld; eauto). congruence. }
    split.
    + intros m1 m2 pc1 pc2 H1 H2 Hc1 Hc2.
      apply Hlook in H1 as [[-> ->]|[Hn1 H1]], H2 as [[-> ->]|[Hn2 H2]];
        try done.
      * rewrite (Hnone _ _ H2) in Hc2. done.
      * rewrite (Hnone _ _ H1) in Hc1. done.
      * rewrite (Hnone _ _ H2) in Hc2. done.
    + rewrite Hmu'. split; [|done]. intros _. by exists m, pc'.
  - split.
    + intros m1 m2 pc1 pc2 H1 H2 Hc1 Hc2.
      apply Hlook in H1 as [[-> ->]|[Hn1 H1]], H2 as [[-> ->]|[Hn2 H2]];
        try congruence.
      by apply (Huniq m1 m2 pc1 pc2).
    + rewrite Hmu'. split; [done|]. intros (m0 & pc0 & H0 & Hc0).
      apply Hlook in H0 as [[-> ->]|[Hn0 H0]]; [congruence|].
      exfalso. apply Hn0. by apply (Huniq m0 m pc0 pc).
Qed.

(** The steps of a worker keep [mutex_excl], whoever else may hold the
    mutex. *)
Lemma mutex_excl_worker m w w' :
  step_worker m w = Ok w' → mutex_excl w → mutex_excl w'.
Proof.
  intros H [Huniq Hheld].
  destruct (step_worker_mutex m w w' H) as (pc & pc' & Hpc & Hw & Hcase).
  assert (Hlook : ∀ m0 pc0, wpc w' !! m0 = Some pc0 →
            (m0 = m ∧ pc0 = pc') ∨ (m0 ≠ m ∧ wpc w !! m0 = Some pc0)).
  { intros m0 pc0. rewrite Hw. destruct (decide (m = m0)) as [->|Hne].
    - rewrite lookup_insert_eq. intros; simplify_eq. by left.
    - rewrite lookup_insert_ne by done. by right. }
  destruct Hcase as [[Hc Hmu]|[(Hc & Hmu & Hc' & Hmu')|(Hc & Hmu & Hc' & Hmu')]].
  - split.
    + intros m1 m2 pc1 pc2 H1 H2 Hc1 Hc2.
      apply Hlook in H1 as [[-> ->]|[Hn1 H1]], H2 as [[-> ->]|[Hn2 H2]];
        try done.
      * rewrite Hc in Hc1. by apply (Huniq m m2 pc pc2).
      * rewrite Hc in Hc2. by apply (Huniq m1 m pc1 pc).
      * by apply (Huniq m1 m2 pc1 pc2).
    + intros m0 pc0 H0 Hc0. rewrite Hmu.
      apply Hlook in H0 as [[-> ->]|[Hn0 H0]].
      * apply (Hheld m pc); [done|]. by rewrite <- Hc.
      * by apply (Hheld m0 pc0).
  - assert (Hnone : ∀ m0 pc0, wpc w !! m0 = Some pc0 → in_critical pc0 = false).
    { intros m0 pc0 H0. destruct (in_critical pc0) eqn:E; [|done].
      assert (mu (sched w) = true) by (by apply (Hheld m0 pc0)). congruence. }
    split; [|done].
    intros m1 m2 pc1 pc2 H1 H2 Hc1 Hc2.
    apply Hlook in H1 as [[-> ->]|[Hn1 H1]], H2 as [[-> ->]|[Hn2 H2]];
      try done.
    * rewrite (Hnone _ _ H2) in Hc2. done.
    * rewrite (Hnone _ _ H1) in Hc1. done.
    * rewrite (Hnone _ _ H2) in Hc2. done.
  - split.
    + intros m1 m2 pc1 pc2 H1 H2 Hc1 Hc2.
      apply Hlook in H1 as [[-> ->]|[Hn1 H1]], H2 as [[-> ->]|[Hn2 H2]];
        try congruence.
      by apply (Huniq m1 m2 pc1 pc2).
    + intros m0 pc0 H0 Hc0.
      apply Hlook in H0 as [[-> ->]|[Hn0 H0]]; [congruence|].
      exfalso. apply Hn0. by apply (Huniq m0 m pc0 pc).
Qed.

Lemma workers_ok_act a w w' : act a w = Ok w' → workers_ok w → workers_ok w'.
Proof.
  intros H Hinv. destruct a.
  - simpl in H.
    destruct (step_worker_own m w w' H)
      as (pc & mv & pc' & mv' & Hpc & Hm & Hw & Hms & _).
    intros m0. rewrite Hw, Hms.
    destruct (decide (m = m0)) as [->|Hne].
    + by rewrite !lookup_insert_eq.
    + rewrite !lookup_insert_ne by done. apply Hinv.
  - unfold_act H. step_inv; exact Hinv.
  - unfold_act H. step_inv; exact Hinv.
  - unfold_act H. step_inv; exact Hinv.
  - unfold_act H. step_inv; exact Hinv.
  - unfold_act H. step_inv; exact Hinv.
  - unfold_act H. step_inv. intros m0 Hm0. simpl in *.
    destruct (decide (m = m0)) as [->|Hne].
    + by rewrite lookup_insert_eq.
    + rewrite lookup_insert_ne by done. by apply Hinv.
  - unfold_act H. step_inv; exact Hinv.
  - unfold_act H. step_inv. intros m0. simpl.
    destruct (decide (fresh (dom (ms w)) = m0)) as [->|Hne].
    + by rewrite !lookup_insert_eq.
    + rewrite !lookup_insert_ne by done. apply Hinv.
Qed.

Lemma mutex_ok_act a w w' :
  act a w = Ok w' → workers_ok w → mutex_ok w → mutex_ok w'.
Proof.
  intros H Hwk Hinv. destruct a.
  - by eapply mutex_ok_worker.
  - unfold_act H. step_inv; (eapply mutex_ok_frame; [..|exact Hinv]); done.
  - unfold_act H. step_inv; (eapply mutex_ok_frame; [..|exact Hinv]); done.
  - unfold_act H. step_inv.
    eapply mutex_ok_frame; [..|exact Hinv]; [done|]. simpl. congruence.
  - unfold_act H. step_inv; (eapply mutex_ok_frame; [..|exact Hinv]);
      simpl; congruence.
  - unfold_act H. step_inv; (eapply mutex_ok_frame; [..|exact Hinv]); done.
  - unfold_act H. step_inv; (eapply mutex_ok_frame; [..|exact Hinv]); done.
  - unfold_act H. step_inv; (eapply mutex_ok_frame; [..|exact Hinv]); done.
  - unfold_act H. step_inv. simpl.
    set (m := fresh (dom (ms w))).
    assert (Hnew : wpc w !! m = None).
    { destruct (wpc w !! m) eqn:E; [|done].
      destruct (Hwk m) as [mv Hmv]; [by rewrite E|].
      apply (elem_of_dom_2 (ms w)) in Hmv. by apply is_fresh in Hmv. }
    destruct Hinv as [Huniq Hheld].
    assert (Hlook : ∀ m0 pc0, <[m := LoopSelect]> (wpc w) !! m0 = Some pc0 →
              in_critical pc0 = true → wpc w !! m0 = Some pc0).
    { intros m0 pc0. destruct (decide (m = m0)) as [->|Hne].
      - rewrite lookup_insert_eq. intros; by simplify_eq.
      - by rewrite lookup_insert_ne. }
    split; simpl.
    + intros m1 m2 pc1 pc2 H1 H2 Hc1 Hc2.
      apply (Huniq m1 m2 pc1 pc2); auto.
    + assert (Hmu : mu (match availPs (sched w) with
                        | Some _ => sched w
                        | None => set_availPs
                                    (Some (mkPChan (length (Ps (sched w))) []))
                                    (sched w)
                        end) = mu (sched w))
        by (by destruct (availPs (sched w))).
      rewrite Hmu, Hheld. split.
      * intros (m0 & pc0 & H0 & Hc0). exists m0, pc0. split; [|done].
        destruct (decide (m = m0)) as [<-|Hne]; [congruence|].
        by rewrite lookup_insert_ne.
      * intros (m0 & pc0 & H0 & Hc0). exists m0, pc0. split; [|done].
        by apply Hlook.
Qed.

Lemma mutex_ok_exec acts w w' :
  exec acts w = Some w' → workers_ok w → mutex_ok w →
  workers_ok w' ∧ mutex_ok w'.
Proof.
  intros He Hwk Hinv.
  apply (exec_invariant (λ w, workers_ok w ∧ mutex_ok w) (λ _, true))
    with (acts := acts) (w := w); try done.
  - intros a w0 w1 _ Ha [? ?]. split.
    + by eapply workers_ok_act.
    + by eapply mutex_ok_act.
  - apply Forall_any_action.
Qed.

(** X9.  The mutex [s.mu] gives the workers mutual exclusion.  With every
    call of [main] taken as one step, in any world the program reaches
    from the empty scheduler under any interleaving at most one worker is
    between [s.mu.Lock()] and [s.mu.Unlock()] of [scheduleOnce], the mutex
    is held while one is, and so the [Unlock] of a worker in its critical
    section always finds the mutex locked.  The steps of the workers keep
    the first two facts from any state in which they hold, also from one
    in which another goroutine holds the mutex ([main] inside [NewG] or
    the overflow branch of [Enqueue]). *)
Theorem mutex_gives_mutual_exclusion :
  (∀ acts w,
     exec acts empty_world = Some w →
     mutex_excl w ∧
     ∀ m pc, wpc w !! m = Some pc → in_critical pc = true →
             ∃ w', Unlock w = Ok w') ∧
  (∀ m w w', mutex_excl w → step_worker m w = Ok w' → mutex_excl w').
Proof.
  split; [|intros m w w' Hinv H; by eapply mutex_excl_worker].
  intros acts w He.
  destruct (mutex_ok_exec acts empty_world w He) as [_ [Huniq Hheld]].
  - intros m [pc Hpc]. simpl in Hpc. by rewrite lookup_empty in Hpc.
  - split.
    + intros m1 m2 pc1 pc2 H1. simpl in H1. by rewrite lookup_empty in H1.
    + simpl. split; [done|]. intros (m & pc & H & _).
      by rewrite lookup_empty in H.
  - assert (Hmu : ∀ m pc, wpc w !! m = Some pc → in_critical pc = true →
                          mu (sched w) = true).
    { intros m pc Hpc Hc. apply Hheld. eauto. }
    split; [by split|]. intros m pc Hpc Hc.
    unfold Unlock. rewrite (Hmu m pc Hpc Hc). eauto.
Qed.

(** Instance of [mutex_gives_mutual_exclusion]: [main]'s setup, then M0
    takes the mutex to look at the global queue and M1 arrives at
    [s.mu.Lock()], where it waits; M0 goes on and releases the mutex. *)
Lemma mutex_gives_mutual_exclusion_witness :
  ∃ w w', exec ([ActAddP 0; ActAddM 0 0; ActAddP 1; ActAddM 1 1] ++
                replicate 4 (ActWorker 0) ++ replicate 3 (ActWorker 1))
            empty_world = Some w ∧
          wpc w !! 0%nat = Some GlobalCheck ∧ wpc w !! 1%nat = Some LockMu ∧
          step_worker 1 w = Blocks ∧ mutex_excl w ∧
          step_worker 0 w = Ok w' ∧ mutex_excl w'.
Proof.
  eexists _, _.
  match goal with
  | |- exec ?l ?w0 = ?w1 ∧ _ =>
      assert (He : exec l w0 = w1) by (vm_compute; reflexivity);
      split; [exact He|];
      split; [vm_compute; reflexivity|];
      split; [vm_compute; reflexivity|];
      split; [vm_compute; reflexivity|]
  end.
  match type of He with
  | exec ?l _ = Some ?w =>
      pose proof (proj1 (proj1 mutex_gives_mutual_exclusion l w He)) as Hex;
      split; [exact Hex|];
      assert (Hs : step_worker 0 w = Ok (goto 0 UnlockPark w))
        by (vm_compute; reflexivity);
      split; [exact Hs|];
      exact (proj2 mutex_gives_mutual_exclusion 0%nat w _ Hex Hs)
  end.
Defined.

(** * Whole iterations of [scheduleOnce] *)

Lemma World_ext (a b : World) :
  sched a = sched b → gs a = gs b → ps a = ps b → ms a = ms b →
  wpc a = wpc b → sigs a = sigs b → clock a = clock b → out a = out b →
  crashed a = crashed b → a = b.
Proof. destruct a, b; simpl; intros; by subst. Qed.

(** An iteration of a worker whose local queue is empty while the global
    queue is not: steal the head, run it. *)
Lemma scheduleOnce_steals_head m w mv p pv g rest gv :
  ms w !! m = Some mv → M_P mv = Some p →
  ps w !! p = Some pv → RunQ pv = [] → NumG pv = 0 →
  mu (sched w) = false → globalQ (sched w) = g :: rest →
  gs w !! g = Some gv → Func gv = FReturn → blockChan gv = None →
  scheduleOnce m w =
    Ok (mkWorld (set_globalQ rest (sched w))
          (<[g := set_Status "done" gv]> (gs w))
          (<[p := set_queue [] 0 pv]> (ps w))
          (<[m := set_M_G None mv]> (ms w))
          (<[m := AfterSched]> (wpc w))
          (sigs w) (clock w)
          (out w ++ steal_events (M_ID mv) (P_ID pv) g (G_ID gv))
          (crashed w)).
Proof.
  intros Hm HP Hp Hq Hn Hmu Hgq Hg Hf Hc.
  unfold scheduleOnce.
  set (w0 := goto m SchedEntry w).
  set (w1 := goto m CheckLocal w0).
  set (w2 := goto m LockMu w1).
  set (w3 := goto m GlobalCheck (with_sched (set_mu true (sched w2)) w2)).
  set (pv1 := set_queue [g] 1 pv).
  set (w4 := goto m UnlockStolen
               (print (EvStole (M_ID mv) (G_ID gv) (P_ID pv))
                  (put_P p pv1 (with_sched (set_globalQ rest (sched w3)) w3)))).
  set (w5 := goto m Pop (with_sched (set_mu false (sched w4)) w4)).
  set (mv1 := set_M_G (Some g) mv).
  set (pv2 := set_queue [] 0 pv).
  set (gv1 := set_Status "running" gv).
  set (w6 := goto m (InRun g RFunc)
               (print (EvStarting (M_ID mv) (P_ID pv) (G_ID gv))
                  (put_G g gv1 (put_M m mv1 (put_P p pv2 w5))))).
  set (w7 := goto m (InRun g RDone) (print (EvFunc g) w6)).
  set (gv2 := set_Status "done" gv1).
  set (w8 := goto m (AfterRun g) (print EvDone (put_G g gv2 w7))).
  set (w9 := goto m AfterSched
               (print (EvFinished (M_ID mv) (P_ID pv) (G_ID gv))
                  (put_M m (set_M_G None mv1) w8))).
  assert (H1 : step_worker m w0 = Ok w1).
  { rewrite (step_worker_at m w0 SchedEntry mv); [|apply wpc_goto|done].
    by rewrite HP. }
  assert (H2 : step_worker m w1 = Ok w2).
  { rewrite (step_worker_at m w1 CheckLocal mv); [|apply wpc_goto|done].
    unfold P_of. rewrite HP. simpl. rewrite Hp. simpl. by rewrite Hn. }
  assert (H3 : step_worker m w2 = Ok w3).
  { rewrite (step_worker_at m w2 LockMu mv); [|apply wpc_goto|done].
    unfold Lock. simpl. by rewrite Hmu. }
  assert (H4 : step_worker m w3 = Ok w4).
  { rewrite (step_worker_at m w3 GlobalCheck mv); [|apply wpc_goto|done].
    simpl. rewrite Hgq, HP. simpl. rewrite Hp. simpl. rewrite Hg. simpl.
    rewrite Hq, Hn. done. }
  assert (H5 : step_worker m w4 = Ok w5).
  { rewrite (step_worker_at m w4 UnlockStolen mv); [|apply wpc_goto|done].
    done. }
  assert (H6 : step_worker m w5 = Ok w6).
  { rewrite (step_worker_at m w5 Pop mv); [|apply wpc_goto|done].
    rewrite HP. simpl. rewrite lookup_insert_eq. simpl. rewrite Hg. done. }
  assert (H7 : step_worker m w6 = Ok w7).
  { rewrite (step_worker_at m w6 (InRun g RFunc) mv1);
      [|apply wpc_goto|subst w6; simpl; by rewrite lookup_insert_eq].
    unfold Run_step. subst w6. simpl. rewrite lookup_insert_eq. simpl.
    by rewrite Hf, Hc. }
  assert (H8 : step_worker m w7 = Ok w8).
  { rewrite (step_worker_at m w7 (InRun g RDone) mv1);
      [|apply wpc_goto|subst w7 w6; simpl; by rewrite lookup_insert_eq].
    unfold Run_step. subst w7 w6. simpl. by rewrite lookup_insert_eq. }
  assert (H9 : step_worker m w8 = Ok w9).
  { rewrite (step_worker_at m w8 (AfterRun g) mv1);
      [|apply wpc_goto|subst w8 w7 w6; simpl; by rewrite lookup_insert_eq].
    unfold P_of. subst w8 w7 w6. simpl. rewrite !lookup_insert_eq. simpl.
    rewrite HP. simpl. by rewrite lookup_insert_eq. }
  rewrite (sched_from_step _ m w0 SchedEntry w1) by (done || apply wpc_goto).
  rewrite (sched_from_step _ m w1 CheckLocal w2) by (done || apply wpc_goto).
  rewrite (sched_from_step _ m w2 LockMu w3) by (done || apply wpc_goto).
  rewrite (sched_from_step _ m w3 GlobalCheck w4) by (done || apply wpc_goto).
  rewrite (sched_from_step _ m w4 UnlockStolen w5) by (done || apply wpc_goto).
  rewrite (sched_from_step _ m w5 Pop w6) by (done || apply wpc_goto).
  rewrite (sched_from_step _ m w6 (InRun g RFunc) w7) by (done || apply wpc_goto).
  rewrite (sched_from_step _ m w7 (InRun g RDone) w8) by (done || apply wpc_goto).
  rewrite (sched_from_step _ m w8 (AfterRun g) w9) by (done || apply wpc_goto).
  rewrite sched_from_return by apply wpc_goto.
  f_equal. subst w9 w8 w7 w6 w5 w4 w3 w2 w1 w0.
  apply World_ext; simpl.
  - destruct (sched w); simpl in *. by subst.
  - by rewrite !insert_insert_eq.
  - by rewrite !insert_insert_eq.
  - by rewrite !insert_insert_eq.
  - by rewrite !insert_insert_eq.
  - done.
  - done.
  - unfold steal_events, run_events. by rewrite <- !app_assoc.
  - done.
Qed.

(** X10.  Work stealing takes the oldest task of the global queue.  An
    iteration of a worker whose own queue is empty removes the head of
    [s.globalQ] under the mutex, puts it on the worker's P and runs it to
    its end in the same iteration; the rest of the global queue keeps its
    order, the P is empty again and the mutex is free afterwards. *)
Theorem idle_worker_steals_oldest_global_task
    (m p g : nat) (w : World) (mv : M) (pv : P) (gv : G) (rest : list nat) :
  ms w !! m = Some mv → M_P mv = Some p →
  ps w !! p = Some pv → RunQ pv = [] → NumG pv = 0 →
  mu (sched w) = false → globalQ (sched w) = g :: rest →
  gs w !! g = Some gv → Func gv = FReturn → blockChan gv = None →
  ∃ w',
    scheduleOnce m w = Ok w' ∧
    globalQ (sched w') = rest ∧ mu (sched w') = false ∧
    out w' = out w ++ steal_events (M_ID mv) (P_ID pv) g (G_ID gv) ∧
    (Status <$> gs w' !! g) = Some "done" ∧
    ps w' !! p = Some (set_queue [] 0 pv) ∧
    bound_to m p w'.
Proof.
  intros Hm HP Hp Hq Hn Hmu Hgq Hg Hf Hc.
  eexists. split; [by eapply scheduleOnce_steals_head|]. simpl.
  rewrite !lookup_insert_eq. unfold bound_to, bind_of. simpl.
  rewrite lookup_insert_eq. simpl. by rewrite HP.
Qed.

(** Instance of [idle_worker_steals_oldest_global_task]: seven tasks are
    submitted to P0, the seventh overflows to the global queue, and M1,
    whose P1 is empty, runs it. *)
Lemma idle_worker_steals_oldest_global_task_witness :
  ∃ w w',
    main_setup ≫=
      exec (replicate 7 (ActNewG FReturn false) ++
            map (ActEnqueue 0) (seq 0 7)) = Some w ∧
    globalQ (sched w) = [6%nat] ∧
    scheduleOnce 1 w = Ok w' ∧
    globalQ (sched w') = [] ∧
    out w' = out w ++ steal_events 1 1 6 6.
Proof.
  eexists.
  match goal with
  | |- ∃ w', ?t = Some ?w ∧ _ =>
      assert (Hw : t = Some w) by (vm_compute; reflexivity)
  end.
  match type of Hw with
  | _ = Some ?w =>
      destruct (idle_worker_steals_oldest_global_task 1%nat 1%nat 6%nat w
                  (mkM 1 (Some 1%nat) None make_chan 0) (mkP 1 [] 0)
                  (mkG 6 FReturn "runnable" None) [])
        as (w' & Hs & Hgq & _ & Ho & _)
  end.
  1-10: vm_compute; reflexivity.
  exists w'. split; [exact Hw|]. split; [vm_compute; reflexivity|].
  split; [exact Hs|]. split; [exact Hgq|exact Ho].
Defined.

(** An iteration of a worker that finds neither local nor global work:
    it parks its P in the pool. *)
Lemma scheduleOnce_parks m w mv p pv c :
  ms w !! m = Some mv → M_P mv = Some p →
  ps w !! p = Some pv → NumG pv = 0 →
  mu (sched w) = false → globalQ (sched w) = [] →
  availPs (sched w) = Some c → (length (buf c) < cap c)%nat →
  scheduleOnce m w =
    Ok (mkWorld
          (set_availPs (Some (mkPChan (cap c) (buf c ++ [Some p]))) (sched w))
          (gs w) (ps w)
          (<[m := set_parkTime (clock w) (set_M_P None mv)]> (ms w))
          (<[m := AfterSched]> (wpc w))
          (sigs w) (clock w)
          (out w ++ [EvParking (M_ID mv) (P_ID pv)])
          (crashed w)).
Proof.
  intros Hm HP Hp Hn Hmu Hgq Hav Hroom.
  unfold scheduleOnce.
  set (w0 := goto m SchedEntry w).
  set (w1 := goto m CheckLocal w0).
  set (w2 := goto m LockMu w1).
  set (w3 := goto m GlobalCheck (with_sched (set_mu true (sched w2)) w2)).
  set (w4 := goto m UnlockPark w3).
  set (w5 := goto m ParkSend
               (print (EvParking (M_ID mv) (P_ID pv))
                  (with_sched (set_mu false (sched w4)) w4))).
  set (w6 := goto m ParkClear
               (with_sched
                  (set_availPs (Some (mkPChan (cap c) (buf c ++ [Some p])))
                     (sched w5)) w5)).
  set (mv1 := set_M_P None mv).
  set (w7 := goto m ParkStamp (put_M m mv1 w6)).
  set (w8 := goto m AfterSched (put_M m (set_parkTime (clock w7) mv1) w7)).
  assert (H1 : step_worker m w0 = Ok w1).
  { rewrite (step_worker_at m w0 SchedEntry mv); [|apply wpc_goto|done].
    by rewrite HP. }
  assert (H2 : step_worker m w1 = Ok w2).
  { rewrite (step_worker_at m w1 CheckLocal mv); [|apply wpc_goto|done].
    unfold P_of. rewrite HP. simpl. rewrite Hp. simpl. by rewrite Hn. }
  assert (H3 : step_worker m w2 = Ok w3).
  { rewrite (step_worker_at m w2 LockMu mv); [|apply wpc_goto|done].
    unfold Lock. simpl. by rewrite Hmu. }
  assert (H4 : step_worker m w3 = Ok w4).
  { rewrite (step_worker_at m w3 GlobalCheck mv); [|apply wpc_goto|done].
    simpl. by rewrite Hgq. }
  assert (H5 : step_worker m w4 = Ok w5).
  { rewrite (step_worker_at m w4 UnlockPark mv); [|apply wpc_goto|done].
    unfold P_of. simpl. rewrite HP. simpl. by rewrite Hp. }
  assert (H6 : step_worker m w5 = Ok w6).
  { rewrite (step_worker_at m w5 ParkSend mv); [|apply wpc_goto|done].
    unfold availPs_send. simpl. rewrite Hav. case_decide; [|lia].
    by rewrite HP. }
  assert (H7 : step_worker m w6 = Ok w7).
  { by rewrite (step_worker_at m w6 ParkClear mv); [|apply wpc_goto|done]. }
  assert (H8 : step_worker m w7 = Ok w8).
  { rewrite (step_worker_at m w7 ParkStamp mv1);
      [done|apply wpc_goto|subst w7; simpl; by rewrite lookup_insert_eq]. }
  rewrite (sched_from_step _ m w0 SchedEntry w1) by (done || apply wpc_goto).
  rewrite (sched_from_step _ m w1 CheckLocal w2) by (done || apply wpc_goto).
  rewrite (sched_from_step _ m w2 LockMu w3) by (done || apply wpc_goto).
  rewrite (sched_from_step _ m w3 GlobalCheck w4) by (done || apply wpc_goto).
  rewrite (sched_from_step _ m w4 UnlockPark w5) by (done || apply wpc_goto).
  rewrite (sched_from_step _ m w5 ParkSend w6) by (done || apply wpc_goto).
  rewrite (sched_from_step _ m w6 ParkClear w7) by (done || apply wpc_goto).
  rewrite (sched_from_step _ m w7 ParkStamp w8) by (done || apply wpc_goto).
  rewrite sched_from_return by apply wpc_goto.
  f_equal. subst w8 w7 w6 w5 w4 w3 w2 w1 w0.
  apply World_ext; simpl; try done.
  - destruct (sched w); simpl in *. by subst.
  - by rewrite !insert_insert_eq.
  - by rewrite !insert_insert_eq.
Qed.

(** The same iteration when the pool is full: the worker stays in the send. *)
Lemma scheduleOnce_park_blocks m w mv p pv c :
  ms w !! m = Some mv → M_P mv = Some p →
  ps w !! p = Some pv → NumG pv = 0 →
  mu (sched w) = false → globalQ (sched w) = [] →
  availPs (sched w) = Some c → (cap c ≤ length (buf c))%nat →
  scheduleOnce m w = Blocks.
Proof.
  intros Hm HP Hp Hn Hmu Hgq Hav Hfull.
  unfold scheduleOnce.
  set (w0 := goto m SchedEntry w).
  set (w1 := goto m CheckLocal w0).
  set (w2 := goto m LockMu w1).
  set (w3 := goto m GlobalCheck (with_sched (set_mu true (sched w2)) w2)).
  set (w4 := goto m UnlockPark w3).
  set (w5 := goto m ParkSend
               (print (EvParking (M_ID mv) (P_ID pv))
                  (with_sched (set_mu false (sched w4)) w4))).
  assert (H1 : step_worker m w0 = Ok w1).
  { rewrite (step_worker_at m w0 SchedEntry mv); [|apply wpc_goto|done].
    by rewrite HP. }
  assert (H2 : step_worker m w1 = Ok w2).
  { rewrite (step_worker_at m w1 CheckLocal mv); [|apply wpc_goto|done].
    unfold P_of. rewrite HP. simpl. rewrite Hp. simpl. by rewrite Hn. }
  assert (H3 : step_worker m w2 = Ok w3).
  { rewrite (step_worker_at m w2 LockMu mv); [|apply wpc_goto|done].
    unfold Lock. simpl. by rewrite Hmu. }
  assert (H4 : step_worker m w3 = Ok w4).
  { rewrite (step_worker_at m w3 GlobalCheck mv); [|apply wpc_goto|done].
    simpl. by rewrite Hgq. }
  assert (H5 : step_worker m w4 = Ok w5).
  { rewrite (step_worker_at m w4 UnlockPark mv); [|apply wpc_goto|done].
    unfold P_of. simpl. rewrite HP. simpl. by rewrite Hp. }
  assert (H6 : step_worker m w5 = Blocks).
  { rewrite (step_worker_at m w5 ParkSend mv); [|apply wpc_goto|done].
    unfold availPs_send. simpl. rewrite Hav. case_decide; [lia|done]. }
  rewrite (sched_from_step _ m w0 SchedEntry w1) by (done || apply wpc_goto).
  rewrite (sched_from_step _ m w1 CheckLocal w2) by (done || apply wpc_goto).
  rewrite (sched_from_step _ m w2 LockMu w3) by (done || apply wpc_goto).
  rewrite (sched_from_step _ m w3 GlobalCheck w4) by (done || apply wpc_goto).
  rewrite (sched_from_step _ m w4 UnlockPark w5) by (done || apply wpc_goto).
  rewrite sched_from_S.
  replace (wpc w5 !! m) with (Some ParkSend) by (symmetry; apply wpc_goto).
  by rewrite H6.
Qed.

(** X11.  Parking.  An iteration of a bound worker that finds its own run
    queue and the global queue empty hands its P to the pool: the P is
    appended to [s.availPs], [m.P] becomes nil and [m.parkTime] is the
    current instant; neither the P nor any task is touched.  When the pool
    is full the call does not return: the worker waits in the send. *)
Theorem idle_worker_parks_its_P
    (m p : nat) (w : World) (mv : M) (pv : P) (c : PChan) :
  ms w !! m = Some mv → M_P mv = Some p →
  ps w !! p = Some pv → NumG pv = 0 →
  mu (sched w) = false → globalQ (sched w) = [] →
  availPs (sched w) = Some c →
  ((length (buf c) < cap c)%nat →
   ∃ w',
     scheduleOnce m w = Ok w' ∧
     pool w' = pool w ++ [Some p] ∧
     ms w' !! m = Some (set_parkTime (clock w) (set_M_P None mv)) ∧
     out w' = out w ++ [EvParking (M_ID mv) (P_ID pv)] ∧
     ps w' = ps w ∧ gs w' = gs w ∧ mu (sched w') = false) ∧
  ((cap c ≤ length (buf c))%nat → scheduleOnce m w = Blocks).
Proof.
  intros Hm HP Hp Hn Hmu Hgq Hav. split; intros Hroom.
  - eexists. split; [by eapply scheduleOnce_parks|].
    unfold pool. simpl. rewrite Hav, lookup_insert_eq. done.
  - by eapply scheduleOnce_park_blocks.
Qed.

(** Instance of [idle_worker_parks_its_P]: the first iteration of M0 in
    [main], whose P0 is still empty. *)
Lemma idle_worker_parks_its_P_witness :
  ∃ w w', main_setup = Some w ∧ scheduleOnce 0 w = Ok w' ∧
          pool w' = [Some 0%nat] ∧ bind_of 0 w' = Some None.
Proof.
  eexists.
  match goal with
  | |- ∃ w', ?t = Some ?w ∧ _ =>
      assert (Hw : t = Some w) by (vm_compute; reflexivity)
  end.
  match type of Hw with
  | _ = Some ?w =>
      pose proof (idle_worker_parks_its_P 0%nat 0%nat w
                    (mkM 0 (Some 0%nat) None make_chan 0) (mkP 0 [] 0)
                    (mkPChan 1 [])) as H
  end.
  destruct H as [H _]; try (vm_compute; reflexivity).
  destruct H as (w' & Hs & Hpool & Hm & _); [simpl; lia|].
  exists w'. split; [exact Hw|]. split; [exact Hs|].
  split; [rewrite Hpool; reflexivity|].
  unfold bind_of. rewrite Hm. reflexivity.
Defined.

(** An iteration of an unbound worker whose cooldown is over, when the
    pool offers a P that has no work: take it and park it again. *)
Lemma scheduleOnce_grabs_and_parks m w mv p pv c rest :
  ms w !! m = Some mv → M_P mv = None →
  negb (IsZero (parkTime mv)) && (clock w - parkTime mv <? cooldown) = false →
  availPs (sched w) = Some c → buf c = Some p :: rest →
  (length (buf c) ≤ cap c)%nat →
  ps w !! p = Some pv → NumG pv = 0 →
  mu (sched w) = false → globalQ (sched w) = [] →
  scheduleOnce m w =
    Ok (mkWorld
          (set_availPs (Some (mkPChan (cap c) (rest ++ [Some p]))) (sched w))
          (gs w) (ps w)
          (<[m := set_parkTime (clock w) mv]> (ms w))
          (<[m := AfterSched]> (wpc w))
          (sigs w) (clock w)
          (out w ++ [EvGrabbed (M_ID mv) (P_ID pv);
                     EvParking (M_ID mv) (P_ID pv)])
          (crashed w)).
Proof.
  intros Hm HP Hcool Hav Hbuf Hcap Hp Hn Hmu Hgq.
  unfold scheduleOnce.
  set (w0 := goto m SchedEntry w).
  set (mv0 := set_parkTime zeroTime mv).
  set (w1 := goto m Grab (put_M m mv0 w0)).
  set (mv1 := set_M_P (Some p) mv0).
  set (w1' := goto m (GrabBind (Some p))
                (with_sched
                   (set_availPs (Some (mkPChan (cap c) rest)) (sched w1))
                   w1)).
  set (w2 := goto m CheckLocal
               (print (EvGrabbed (M_ID mv) (P_ID pv)) (put_M m mv1 w1'))).
  set (w3 := goto m LockMu w2).
  set (w4 := goto m GlobalCheck (with_sched (set_mu true (sched w3)) w3)).
  set (w5 := goto m UnlockPark w4).
  set (w6 := goto m ParkSend
               (print (EvParking (M_ID mv) (P_ID pv))
                  (with_sched (set_mu false (sched w5)) w5))).
  set (w7 := goto m ParkClear
               (with_sched
                  (set_availPs (Some (mkPChan (cap c) (rest ++ [Some p])))
                     (sched w6)) w6)).
  set (mv2 := set_M_P None mv1).
  set (w8 := goto m ParkStamp (put_M m mv2 w7)).
  set (w9 := goto m AfterSched (put_M m (set_parkTime (clock w8) mv2) w8)).
  assert (Hm1 : ms w1 !! m = Some mv0)
    by (subst w1; simpl; by rewrite lookup_insert_eq).
  assert (Hm2 : ms w2 !! m = Some mv1)
    by (subst w2; simpl; by rewrite lookup_insert_eq).
  assert (H1 : step_worker m w0 = Ok w1).
  { rewrite (step_worker_at m w0 SchedEntry mv); [|apply wpc_goto|done].
    rewrite HP, Since_lt_cooldown. simpl. by rewrite Hcool. }
  assert (H2 : step_worker m w1 = Ok w1').
  { rewrite (step_worker_at m w1 Grab mv0); [|apply wpc_goto|done].
    unfold availPs_tryrecv. simpl. by rewrite Hav, Hbuf. }
  assert (H2' : step_worker m w1' = Ok w2).
  { rewrite (step_worker_at m w1' (GrabBind (Some p)) mv0);
      [|apply wpc_goto|done].
    unfold P_of. simpl. by rewrite Hp. }
  assert (H3 : step_worker m w2 = Ok w3).
  { rewrite (step_worker_at m w2 CheckLocal mv1); [|apply wpc_goto|done].
    unfold P_of. simpl. rewrite Hp. simpl. by rewrite Hn. }
  assert (H4 : step_worker m w3 = Ok w4).
  { rewrite (step_worker_at m w3 LockMu mv1); [|apply wpc_goto|done].
    unfold Lock. simpl. by rewrite Hmu. }
  assert (H5 : step_worker m w4 = Ok w5).
  { rewrite (step_worker_at m w4 GlobalCheck mv1); [|apply wpc_goto|done].
    simpl. by rewrite Hgq. }
  assert (H6 : step_worker m w5 = Ok w6).
  { rewrite (step_worker_at m w5 UnlockPark mv1); [|apply wpc_goto|done].
    unfold P_of. simpl. by rewrite Hp. }
  assert (H7 : step_worker m w6 = Ok w7).
  { rewrite (step_worker_at m w6 ParkSend mv1); [|apply wpc_goto|done].
    unfold availPs_send. simpl.
    rewrite Hbuf in Hcap. simpl in Hcap. case_decide; [done|lia]. }
  assert (H8 : step_worker m w7 = Ok w8).
  { by rewrite (step_worker_at m w7 ParkClear mv1); [|apply wpc_goto|done]. }
  assert (H9 : step_worker m w8 = Ok w9).
  { rewrite (step_worker_at m w8 ParkStamp mv2);
      [done|apply wpc_goto|subst w8; simpl; by rewrite lookup_insert_eq]. }
  rewrite (sched_from_step _ m w0 SchedEntry w1) by (done || apply wpc_goto).
  rewrite (sched_from_step _ m w1 Grab w1') by (done || apply wpc_goto).
  rewrite (sched_from_step _ m w1' (GrabBind (Some p)) w2)
    by (done || apply wpc_goto).
  rewrite (sched_from_step _ m w2 CheckLocal w3) by (done || apply wpc_goto).
  rewrite (sched_from_step _ m w3 LockMu w4) by (done || apply wpc_goto).
  rewrite (sched_from_step _ m w4 GlobalCheck w5) by (done || apply wpc_goto).
  rewrite (sched_from_step _ m w5 UnlockPark w6) by (done || apply wpc_goto).
  rewrite (sched_from_step _ m w6 ParkSend w7) by (done || apply wpc_goto).
  rewrite (sched_from_step _ m w7 ParkClear w8) by (done || apply wpc_goto).
  rewrite (sched_from_step _ m w8 ParkStamp w9) by (done || apply wpc_goto).
  rewrite sched_from_return by apply wpc_goto.
  f_equal. subst w9 w8 w7 w6 w5 w4 w3 w2 w1' w1 w0.
  apply World_ext; simpl; try done.
  - destruct (sched w); simpl in *. by subst.
  - rewrite !insert_insert_eq. f_equal.
    subst mv2 mv1 mv0. destruct mv; simpl in *. by subst.
  - by rewrite !insert_insert_eq.
  - by rewrite <- !app_assoc.
Qed.

(** X12.  The cooldown slows the ping-pong of an idle worker down, it does
    not end it.  Let a worker be unbound and let the pool hold one P
    without work, with nothing in the global queue.  Whenever at least the
    cooldown has passed since its last park, the worker's next iteration
    takes the P out of the pool, finds it empty and parks it again; so
    every such round prints the pair Grabbed, Parking and leaves the pool
    and the binding as they were. *)
Theorem idle_worker_and_idle_P_ping_pong (ds : list Z) :
  ∀ (m p : nat) (w : World) (mv : M) (pv : P) (c : PChan),
    Forall (λ d, cooldown <= d) ds →
    ms w !! m = Some mv → M_P mv = None → parkTime mv <= clock w →
    availPs (sched w) = Some c → buf c = [Some p] → (1 ≤ cap c)%nat →
    ps w !! p = Some pv → NumG pv = 0 →
    mu (sched w) = false → globalQ (sched w) = [] →
    ∃ w',
      idle_rounds ds m w = Ok w' ∧
      out w' = out w ++
        concat (replicate (length ds)
                  [EvGrabbed (M_ID mv) (P_ID pv);
                   EvParking (M_ID mv) (P_ID pv)]) ∧
      pool w' = [Some p] ∧ bind_of m w' = Some None ∧
      ps w' = ps w ∧ gs w' = gs w.
Proof.
  induction ds as [|d ds IH];
    intros m p w mv pv c Hds Hm HP Ht Hav Hbuf Hcap Hp Hn Hmu Hgq.
  { exists w. simpl. rewrite app_nil_r. unfold pool, bind_of.
    rewrite Hav, Hbuf, Hm. simpl. by rewrite HP. }
  apply Forall_cons in Hds as [Hd Hds].
  assert (Hclock : 0 < cooldown) by done.
  simpl idle_rounds.
  rewrite (scheduleOnce_grabs_and_parks m (with_clock (clock w + d) w)
             mv p pv c []); try done.
  2:{ simpl. destruct (Z.ltb_spec (clock w + d - parkTime mv) cooldown);
        [lia|]. by rewrite andb_false_r. }
  2:{ rewrite Hbuf. simpl. lia. }
  simpl res_bind.
  edestruct (IH m p) as (w' & He & Ho & Hpool & Hb & Hps & Hgs);
    [exact Hds|..|exists w'; split; [exact He|]].
  - simpl. apply lookup_insert_eq.
  - done.
  - simpl. lia.
  - simpl. reflexivity.
  - reflexivity.
  - done.
  - exact Hp.
  - done.
  - done.
  - done.
  - simpl in *. rewrite Ho, <- app_assoc. done.
Qed.

(** Instance of [idle_worker_and_idle_P_ping_pong]: M0 after its first
    park in [main], observed every 300ms. *)
Lemma idle_worker_and_idle_P_ping_pong_witness :
  ∃ w w',
    main_setup ≫= scheduleOnce_opt 0 = Some w ∧
    idle_rounds [300 * Millisecond; 300 * Millisecond] 0 w = Ok w' ∧
    out w' = out w ++ [EvGrabbed 0 0; EvParking 0 0;
                       EvGrabbed 0 0; EvParking 0 0].
Proof.
  eexists.
  match goal with
  | |- ∃ w', ?t = Some ?w ∧ _ =>
      assert (Hw : t = Some w) by (vm_compute; reflexivity)
  end.
  match type of Hw with
  | _ = Some ?w =>
      destruct (idle_worker_and_idle_P_ping_pong
                  [300 * Millisecond; 300 * Millisecond] 0%nat 0%nat w
                  (mkM 0 None None make_chan 1) (mkP 0 [] 0)
                  (mkPChan 1 [Some 0%nat]))
        as (w' & He & Ho & _)
  end.
  all: try (vm_compute; reflexivity).
  - repeat constructor; vm_compute; discriminate.
  - vm_compute. discriminate.
  - exists w'. split; [exact Hw|]. split; [exact He|]. rewrite Ho. reflexivity.
Defined.

(** ** The handoff branch of [scheduleOnce] *)

Lemma step_worker_before_handoff m w w1 pc :
  wpc w !! m = Some pc → before_handoff pc w →
  step_worker m w = Ok w1 →
  ∃ pc1 o,
    wpc w1 !! m = Some pc1 ∧ before_handoff pc1 w1 ∧
    out w1 = out w ++ o ∧ Forall (λ e, is_handoff e = false) o.
Proof.
  intros Hpc Hsafe H. unfold step_worker in H. rewrite Hpc in H.
  destruct (ms w !! m) as [mv|] eqn:Hm; [|done]. simpl in H.
  destruct pc; simpl in Hsafe; try done; unfold Run_step in H; step_inv.
  all: try match goal with
         | H1 : (Status <$> gs _ !! ?g) = Some "done",
           H2 : gs _ !! ?g = Some ?gv, H3 : (Status ?gv =? "done")%string = false
           |- _ => rewrite H2 in H1; simpl in H1; injection H1 as H1;
                   rewrite H1 in H3; discriminate H3
         end.
  all: eexists _, _; split; [apply wpc_goto|]; simpl.
  all: rewrite ?lookup_insert_eq; simpl.
  all: split; [done|].
  all: split;
        [first [ by rewrite app_nil_r | reflexivity
               | by rewrite <- app_assoc ]|].
  all: repeat constructor.
Qed.

Lemma sched_from_before_handoff m n : ∀ w w' pc,
  wpc w !! m = Some pc → before_handoff pc w →
  sched_from n m w = Ok w' →
  ∃ o, out w' = out w ++ o ∧ Forall (λ e, is_handoff e = false) o.
Proof.
  induction n as [|n IH]; intros w w' pc Hpc Hsafe H.
  { unfold sched_from in H. simplify_eq. exists []. by rewrite app_nil_r. }
  rewrite sched_from_S, Hpc in H.
  destruct (decide (pc = AfterSched)) as [->|Hne].
  { simplify_eq. exists []. by rewrite app_nil_r. }
  assert (H' : res_bind (step_worker m w) (sched_from n m) = Ok w')
    by (by destruct pc).
  apply res_bind_Ok in H' as (w1 & Hs & H').
  destruct (step_worker_before_handoff m w w1 pc Hpc Hsafe Hs)
    as (pc1 & o1 & Hpc1 & Hsafe1 & Ho1 & Hf1).
  destruct (IH w1 w' pc1 Hpc1 Hsafe1 H') as (o2 & Ho2 & Hf2).
  exists (o1 ++ o2). split.
  - by rewrite Ho2, Ho1, <- app_assoc.
  - by apply Forall_app.
Qed.

(** X13.  An iteration of [scheduleOnce] that the worker executes from its
    entry to its return, with no other goroutine taking a step in between,
    never takes the handoff branch, whatever the state it starts in:
    [g.Run()] returns only after it has set [g.Status] to "done", so the
    test that follows the call succeeds and the iteration never prints
    "G blocked, handing off P" - a worker whose task blocks waits inside
    [Run] and keeps its P. *)
Theorem scheduleOnce_never_hands_off_for_a_blocked_task
    (m : nat) (w w' : World) :
  scheduleOnce m w = Ok w' →
  ∃ o, out w' = out w ++ o ∧ Forall (λ e, is_handoff e = false) o.
Proof.
  unfold scheduleOnce. intros H.
  destruct (sched_from_before_handoff m 17 (goto m SchedEntry w) w' SchedEntry)
    as (o & Ho & Hf); [apply wpc_goto|done|done|].
  by exists o.
Qed.

(** Instance of [scheduleOnce_never_hands_off_for_a_blocked_task]: the
    blocking task of [main], with its signal already sent. *)
Lemma scheduleOnce_never_hands_off_for_a_blocked_task_witness :
  ∃ w w',
    main_setup ≫=
      exec [ActNewG FReturn true; ActEnqueue 0 0; ActGoSignal 0; ActSignal 0]
      = Some w ∧
    scheduleOnce 0 w = Ok w' ∧
    ∃ o, out w' = out w ++ o ∧ Forall (λ e, is_handoff e = false) o.
Proof.
  eexists _, _. split; [vm_compute; reflexivity|].
  match goal with
  | |- scheduleOnce ?m ?w = ?r ∧ _ =>
      assert (Hs : scheduleOnce m w = r) by (vm_compute; reflexivity);
      split; [exact Hs|];
      exact (scheduleOnce_never_hands_off_for_a_blocked_task m w _ Hs)
  end.
Defined.

(** ** More tasks than the local queue takes: overflow, then stealing *)

Lemma scheduleOnce_n_app m a : ∀ b w,
  scheduleOnce_n (a + b) m w =
    res_bind (scheduleOnce_n a m w) (scheduleOnce_n b m).
Proof.
  induction a as [|a IH]; intros b w; simpl; [done|].
  destruct (scheduleOnce m w) as [w1| |msg]; simpl; [apply IH|done|done].
Qed.

(** [Enqueue] of a list of tasks on one P, with everything it changes. *)
Lemma Enqueue_all_detail K p : ∀ l w pv,
  0 <= K < int_max →
  ps w !! p = Some pv →
  NumG pv = Z.of_nat (length (RunQ pv)) →
  mu (sched w) = false →
  Forall (λ g, is_Some (gs w !! g)) l →
  let room := (Z.to_nat (K + 1) - length (RunQ pv))%nat in
  ∃ w',
    Enqueue_all K p l w = Ok w' ∧
    ps w' = <[p := set_queue (RunQ pv ++ take room l)
                     (Z.of_nat (length (RunQ pv ++ take room l))) pv]> (ps w) ∧
    sched w' = set_globalQ (globalQ (sched w) ++ drop room l) (sched w) ∧
    ms w' = ms w ∧
    out w' = out w ++
      map (λ g, EvOverflow (gid_of (gs w) g) (P_ID pv)) (drop room l) ∧
    ∀ x, task_view (gs w') x = task_view (gs w) x.
Proof.
  induction l as [|g l IH]; intros w pv HK Hp Hn Hmu Hl room.
  - exists w. simpl. rewrite take_nil, drop_nil, !app_nil_r.
    split; [done|]. split; [|split; [by destruct (sched w)|done]].
    rewrite <- Hn. symmetry. apply insert_id. rewrite Hp. f_equal.
    by destruct pv.
  - apply Forall_cons in Hl as [[gv Hg] Hl]. simpl Enqueue_all.
    destruct (decide (NumG pv <= K)) as [Hle|Hgt].
    + rewrite (Enqueue_local K HK p g w pv gv) by (auto; unfold int_min; lia).
      simpl res_bind.
      destruct (IH (put_G g (set_Status "runnable" gv)
                      (put_P p (set_queue (RunQ pv ++ [g]) (NumG pv + 1) pv) w))
                   (set_queue (RunQ pv ++ [g]) (NumG pv + 1) pv))
        as (w' & He & Hps & Hs & Hms & Hout & Hv); simpl; try done.
      * by rewrite lookup_insert_eq.
      * rewrite length_app. simpl. lia.
      * eapply Forall_impl; [exact Hl|]. intros x [xv Hx].
        destruct (decide (g = x)) as [->|].
        -- rewrite lookup_insert_eq. eauto.
        -- rewrite lookup_insert_ne by done. eauto.
      * assert (Hroom : room = S (Z.to_nat (K + 1) - length (RunQ pv ++ [g]))%nat).
        { subst room. rewrite length_app. simpl. lia. }
        simpl in *. rewrite Hroom. simpl.
        exists w'. split; [done|].
        split; [by rewrite Hps, insert_insert_eq, <- app_assoc|].
        split; [done|]. split; [done|]. split.
        -- rewrite Hout. f_equal. apply map_ext. intros x. f_equal.
           apply gid_of_view. by apply task_view_set_Status.
        -- intros x. rewrite Hv. by apply task_view_set_Status.
    + assert (Hroom : room = 0%nat) by (subst room; lia).
      rewrite (Enqueue_global K p g w pv gv) by (auto; lia).
      simpl res_bind.
      destruct (IH (print (EvOverflow (G_ID gv) (P_ID pv))
                      (with_sched
                         (set_globalQ (globalQ (sched w) ++ [g]) (sched w)) w))
                   pv)
        as (w' & He & Hps & Hs & Hms & Hout & Hv); simpl; try done.
      fold room in Hps, Hs, Hout. rewrite Hroom in *. simpl in *.
      rewrite drop_0 in *. rewrite take_0 in *.
      exists w'. split; [done|]. split; [done|].
      split; [by rewrite Hs, <- app_assoc|]. split; [done|]. split; [|done].
      rewrite Hout, <- app_assoc. simpl. unfold gid_of at 2. by rewrite Hg.
Qed.

(** One [scheduleOnce] per task of the local queue, with everything the
    iterations change. *)
Lemma scheduleOnce_n_drains_frame m : ∀ l w mv p pv,
  ms w !! m = Some mv → M_P mv = Some p →
  ps w !! p = Some pv → RunQ pv = l →
  NumG pv = Z.of_nat (length l) → Z.of_nat (length l) < int_max →
  Forall (plain_task (gs w)) l →
  ∃ w' mv',
    scheduleOnce_n (length l) m w = Ok w' ∧
    out w' = out w ++
      flat_map (λ g, run_events (M_ID mv) (P_ID pv) g (gid_of (gs w) g)) l ∧
    ps w' !! p = Some (set_queue [] 0 pv) ∧
    ms w' !! m = Some mv' ∧ M_P mv' = Some p ∧ M_ID mv' = M_ID mv ∧
    sched w' = sched w ∧
    (∀ x, task_view (gs w') x = task_view (gs w) x) ∧
    ∀ x, (Status <$> gs w !! x) = Some "done" ∨ x ∈ l →
         (Status <$> gs w' !! x) = Some "done".
Proof.
  induction l as [|g rest IH]; intros w mv p pv Hm HP Hp Hq Hn Hb Hl.
  - exists w, mv. simpl. rewrite app_nil_r. split_and!; try done.
    + rewrite Hp. f_equal. destruct pv; simpl in *. by subst.
    + intros x [Hx|Hx]; [done|]. by apply elem_of_nil in Hx.
  - apply Forall_cons in Hl as [(gv & Hg & Hf & Hc) Hl].
    simpl scheduleOnce_n.
    rewrite (scheduleOnce_runs_head m w mv p pv g rest gv); try done;
      [|by rewrite Hq..].
    simpl res_bind.
    destruct (IH (mkWorld (sched w)
                    (<[g := set_Status "done" gv]> (gs w))
                    (<[p := set_queue rest (Z.of_nat (length rest)) pv]> (ps w))
                    (<[m := set_M_G None mv]> (ms w))
                    (<[m := AfterSched]> (wpc w))
                    (sigs w) (clock w)
                    (out w ++ run_events (M_ID mv) (P_ID pv) g (G_ID gv))
                    (crashed w))
                (set_M_G None mv) p
                (set_queue rest (Z.of_nat (length rest)) pv))
      as (w' & mv' & He & Ho & Hp' & Hm' & HP' & Hid' & Hs' & Hv' & Hd); simpl.
    + by rewrite lookup_insert_eq.
    + done.
    + by rewrite lookup_insert_eq.
    + done.
    + done.
    + simpl in Hb. lia.
    + eapply Forall_impl; [exact Hl|]. intros x Hx.
      eapply plain_task_view; [|exact Hx].
      by apply task_view_set_Status.
    + simpl in *. exists w', mv'. split_and!; try done.
      * rewrite Ho. rewrite <- app_assoc. f_equal.
        assert (Hid : gid_of (gs w) g = G_ID gv)
          by (unfold gid_of; by rewrite Hg).
        cbn [flat_map]. rewrite Hid. unfold run_events. cbn [app].
        do 4 f_equal. apply flat_map_ext. intros x.
        by rewrite (gid_of_view _ _ x
                      (task_view_set_Status (gs w) g gv "done" x Hg)).
      * intros x. rewrite Hv'. by apply task_view_set_Status.
      * intros x Hx. apply Hd.
        destruct (decide (g = x)) as [->|Hne].
        -- left. by rewrite lookup_insert_eq.
        -- rewrite lookup_insert_ne by done.
           destruct Hx as [Hx|Hx]; [by left|].
           apply elem_of_cons in Hx as [->|Hx]; [done|by right].
Qed.

(** One [scheduleOnce] per task of the global queue, by a worker whose
    own queue is empty. *)
Lemma scheduleOnce_n_steals m : ∀ gl w mv p pv,
  ms w !! m = Some mv → M_P mv = Some p →
  ps w !! p = Some pv → RunQ pv = [] → NumG pv = 0 →
  mu (sched w) = false → globalQ (sched w) = gl →
  Forall (plain_task (gs w)) gl →
  ∃ w',
    scheduleOnce_n (length gl) m w = Ok w' ∧
    out w' = out w ++
      flat_map (λ g, steal_events (M_ID mv) (P_ID pv) g (gid_of (gs w) g)) gl ∧
    ps w' !! p = Some (set_queue [] 0 pv) ∧
    globalQ (sched w') = [] ∧
    ∀ x, (Status <$> gs w !! x) = Some "done" ∨ x ∈ gl →
         (Status <$> gs w' !! x) = Some "done".
Proof.
  induction gl as [|g rest IH]; intros w mv p pv Hm HP Hp Hq Hn Hmu Hgq Hl.
  - exists w. simpl. rewrite app_nil_r. split_and!; try done.
    + rewrite Hp. f_equal. destruct pv; simpl in *. by subst.
    + intros x [Hx|Hx]; [done|]. by apply elem_of_nil in Hx.
  - apply Forall_cons in Hl as [(gv & Hg & Hf & Hc) Hl].
    simpl scheduleOnce_n.
    rewrite (scheduleOnce_steals_head m w mv p pv g rest gv); try done.
    simpl res_bind.
    destruct (IH (mkWorld (set_globalQ rest (sched w))
                    (<[g := set_Status "done" gv]> (gs w))
                    (<[p := set_queue [] 0 pv]> (ps w))
                    (<[m := set_M_G None mv]> (ms w))
                    (<[m := AfterSched]> (wpc w))
                    (sigs w) (clock w)
                    (out w ++ steal_events (M_ID mv) (P_ID pv) g (G_ID gv))
                    (crashed w))
                (set_M_G None mv) p (set_queue [] 0 pv))
      as (w' & He & Ho & Hp' & Hgq' & Hd); simpl; try done.
    + by rewrite lookup_insert_eq.
    + by rewrite lookup_insert_eq.
    + eapply Forall_impl; [exact Hl|]. intros x Hx.
      eapply plain_task_view; [|exact Hx].
      by apply task_view_set_Status.
    + simpl in *. exists w'. split_and!; try done.
      * rewrite Ho. rewrite <- app_assoc. f_equal.
        assert (Hid : gid_of (gs w) g = G_ID gv)
          by (unfold gid_of; by rewrite Hg).
        cbn [flat_map]. rewrite Hid. unfold steal_events, run_events. cbn [app].
        do 5 f_equal. apply flat_map_ext. intros x.
        by rewrite (gid_of_view _ _ x
                      (task_view_set_Status (gs w) g gv "done" x Hg)).
      * intros x Hx. apply Hd.
        destruct (decide (g = x)) as [->|Hne].
        -- left. by rewrite lookup_insert_eq.
        -- rewrite lookup_insert_ne by done.
           destruct Hx as [Hx|Hx]; [by left|].
           apply elem_of_cons in Hx as [->|Hx]; [done|by right].
Qed.

Lemma starts_overflow pid (f : nat → Z) l :
  starts pid (map (λ g, EvOverflow (f g) pid) l) = [].
Proof. induction l; [done|]. simpl. done. Qed.

Lemma starts_run_events mid pid (f : nat → Z) l :
  starts pid (flat_map (λ g, run_events mid pid g (f g)) l) = map f l.
Proof.
  induction l as [|g l IH]; [done|]. cbn [flat_map map].
  rewrite starts_app, IH. unfold starts, run_events. simpl.
  by rewrite decide_True.
Qed.

Lemma starts_steal_events mid pid (f : nat → Z) l :
  starts pid (flat_map (λ g, steal_events mid pid g (f g)) l) = map f l.
Proof.
  induction l as [|g l IH]; [done|]. cbn [flat_map map].
  rewrite starts_app, IH. unfold starts, steal_events, run_events. simpl.
  by rewrite decide_True.
Qed.

(** X14.  With one worker, tasks run in submission order even when the
    local queue overflows.  Of the plain tasks submitted to an empty P the
    first six stay in its queue and the others go to the global queue;
    one iteration per task then runs the local ones first and steals the
    others one at a time, oldest first, so that all tasks start, and
    finish, in the order of their submission. *)
Theorem one_worker_runs_overflowed_tasks_in_order
    (m p : nat) (w : World) (mv : M) (pv : P) (l : list nat) :
  ms w !! m = Some mv → M_P mv = Some p → ps w !! p = Some pv →
  RunQ pv = [] → NumG pv = 0 →
  mu (sched w) = false → globalQ (sched w) = [] →
  Forall (plain_task (gs w)) l →
  ∃ w1 w2,
    Enqueue_all 5 p l w = Ok w1 ∧
    (RunQ <$> ps w1 !! p) = Some (take 6 l) ∧
    globalQ (sched w1) = drop 6 l ∧
    scheduleOnce_n (length l) m w1 = Ok w2 ∧
    out w2 = out w ++
      map (λ g, EvOverflow (gid_of (gs w) g) (P_ID pv)) (drop 6 l) ++
      flat_map (λ g, run_events (M_ID mv) (P_ID pv) g (gid_of (gs w) g))
        (take 6 l) ++
      flat_map (λ g, steal_events (M_ID mv) (P_ID pv) g (gid_of (gs w) g))
        (drop 6 l) ∧
    starts (P_ID pv) (out w2) =
      starts (P_ID pv) (out w) ++ map (gid_of (gs w)) l ∧
    (∀ g, g ∈ l → (Status <$> gs w2 !! g) = Some "done") ∧
    (RunQ <$> ps w2 !! p) = Some [] ∧ globalQ (sched w2) = [].
Proof.
  intros Hm HP Hp Hq Hn Hmu Hgq Hl.
  destruct (Enqueue_all_detail 5 p l w pv) as
    (w1 & He & Hps & Hs & Hms & Hout & Hv); try done.
  { by rewrite Hn, Hq. }
  { eapply Forall_impl; [exact Hl|]. intros x (xv & Hx & _). eauto. }
  rewrite Hq in Hps, Hs, Hout. rewrite Hgq in Hs.
  change (Z.to_nat (5 + 1) - length (@nil nat))%nat with 6%nat in *.
  simpl in Hps, Hs.
  assert (Hl1 : Forall (plain_task (gs w1)) l).
  { eapply Forall_impl; [exact Hl|]. intros x Hx.
    eapply plain_task_view; [apply Hv|done]. }
  set (pv1 := set_queue (take 6 l) (Z.of_nat (length (take 6 l))) pv).
  destruct (scheduleOnce_n_drains_frame m (take 6 l) w1 mv p pv1)
    as (w2 & mv2 & Hd & Ho2 & Hp2 & Hm2 & HP2 & Hid2 & Hs2 & Hv2 & Hdone2);
    try done.
  { by rewrite Hms. }
  { by rewrite Hps, lookup_insert_eq. }
  { rewrite length_take. unfold int_max. lia. }
  { by apply Forall_take. }
  destruct (scheduleOnce_n_steals m (drop 6 l) w2 mv2 p (set_queue [] 0 pv1))
    as (w3 & Hd3 & Ho3 & Hp3 & Hgq3 & Hdone3); try done.
  { by rewrite Hs2, Hs. }
  { by rewrite Hs2, Hs. }
  { apply Forall_drop. eapply Forall_impl; [exact Hl1|]. intros x Hx.
    eapply plain_task_view; [apply Hv2|done]. }
  assert (Hgid : ∀ x, gid_of (gs w2) x = gid_of (gs w) x).
  { intros x. rewrite (gid_of_view _ _ x (Hv2 x)). by apply gid_of_view. }
  assert (Hgid1 : ∀ x, gid_of (gs w1) x = gid_of (gs w) x).
  { intros x. by apply gid_of_view. }
  assert (Hout3 : out w3 = out w ++
      map (λ g, EvOverflow (gid_of (gs w) g) (P_ID pv)) (drop 6 l) ++
      flat_map (λ g, run_events (M_ID mv) (P_ID pv) g (gid_of (gs w) g))
        (take 6 l) ++
      flat_map (λ g, steal_events (M_ID mv) (P_ID pv) g (gid_of (gs w) g))
        (drop 6 l)).
  { rewrite Ho3, Ho2, Hout, Hid2. simpl. rewrite <- !app_assoc.
    do 2 f_equal. f_equal.
    - apply flat_map_ext. intros x. by rewrite Hgid1.
    - apply flat_map_ext. intros x. by rewrite Hgid. }
  exists w1, w3. split; [done|].
  split; [by rewrite Hps, lookup_insert_eq|]. split; [by rewrite Hs|].
  split.
  { rewrite <- (take_drop 6 l) at 1. rewrite length_app, scheduleOnce_n_app.
    rewrite Hd. simpl. exact Hd3. }
  split; [exact Hout3|]. split.
  { rewrite Hout3, !starts_app, starts_overflow, starts_run_events,
      starts_steal_events. simpl.
    by rewrite <- map_app, take_drop. }
  split.
  { intros g Hg. apply Hdone3.
    rewrite <- (take_drop 6 l) in Hg. apply elem_of_app in Hg as [Hg|Hg].
    - left. apply Hdone2. by right.
    - by right. }
  split; [by rewrite Hp3|done].
Qed.

(** Instance of [one_worker_runs_overflowed_tasks_in_order]: eight tasks
    on one P with one M. *)
Lemma one_worker_runs_overflowed_tasks_in_order_witness :
  ∃ w w1 w2,
    tasks_world 8 = Some w ∧
    Enqueue_all 5 0 (seq 0 8) w = Ok w1 ∧
    globalQ (sched w1) = [6; 7]%nat ∧
    scheduleOnce_n 8 0 w1 = Ok w2 ∧
    starts 0 (out w2) = [0; 1; 2; 3; 4; 5; 6; 7].
Proof.
  eexists.
  match goal with
  | |- ∃ w1 w2, ?t = Some ?w ∧ _ =>
      assert (Hw : t = Some w) by (vm_compute; reflexivity)
  end.
  match type of Hw with
  | _ = Some ?w =>
      destruct (one_worker_runs_overflowed_tasks_in_order 0%nat 0%nat w
                  (mkM 0 (Some 0%nat) None make_chan 0) (mkP 0 [] 0) (seq 0 8))
        as (w1 & w2 & He & _ & Hgq & Hs & _ & Hst & _)
  end.
  1-7: vm_compute; reflexivity.
  - cbv [seq].
    repeat (apply Forall_cons_2;
            [eexists; split; [vm_compute; reflexivity|split; reflexivity]|]).
    apply Forall_nil_2.
  - exists w1, w2. split; [exact Hw|]. split; [exact He|].
    split; [rewrite Hgq; reflexivity|]. split; [exact Hs|].
    etransitivity; [exact Hst|]. vm_compute. reflexivity.
Defined.

(** * The iteration with a simulated blocking call *)

Lemma step4_kept_refl w : Step4.blocking_tasks_kept w w.
Proof.
  split; [done|]. split; [|done].
  exists []. rewrite app_nil_r. split; [done|].
  intros g Hg. by apply elem_of_nil in Hg.
Qed.

Lemma step4_blocking_view (gm gm' : gmap nat G) g :
  (∀ x, (blockChan <$> gm' !! x) = (blockChan <$> gm !! x)) →
  Step4.blocking gm' g ↔ Step4.blocking gm g.
Proof.
  intros Hv. unfold Step4.blocking. specialize (Hv g).
  split; intros (gv & c & Hg & Hc); rewrite Hg in Hv; simpl in Hv.
  - destruct (gm !! g) as [gv'|]; [|done]. simpl in Hv.
    exists gv', c. split; [done|congruence].
  - destruct (gm' !! g) as [gv'|]; [|done]. simpl in Hv.
    exists gv', c. split; [done|congruence].
Qed.

Lemma step4_kept_trans w1 w2 w3 :
  Step4.blocking_tasks_kept w1 w2 → Step4.blocking_tasks_kept w2 w3 →
  Step4.blocking_tasks_kept w1 w3.
Proof.
  intros (Hc1 & (o1 & Ho1 & Hf1) & Hd1) (Hc2 & (o2 & Ho2 & Hf2) & Hd2).
  split; [intros g; by rewrite Hc2|]. split.
  - exists (o1 ++ o2). split; [by rewrite Ho2, Ho1, <- app_assoc|].
    intros g Hg. apply elem_of_app in Hg as [Hg|Hg]; [by apply Hf1|].
    rewrite <- (step4_blocking_view (Step4.gs w1) (Step4.gs w2) g Hc1).
    by apply Hf2.
  - intros g Hb Hdone. apply Hd1; [done|]. apply Hd2; [|done].
    by apply (step4_blocking_view (Step4.gs w1) (Step4.gs w2) g Hc1).
Qed.

(** A change of the world that leaves the tasks alone and prints no call
    of a work routine. *)
Lemma step4_kept_frame w w' o :
  Step4.gs w' = Step4.gs w → Step4.out w' = Step4.out w ++ o →
  (∀ g, Step4.EvFunc g ∉ o) →
  Step4.blocking_tasks_kept w w'.
Proof.
  intros Hg Ho Hf. split; [by rewrite Hg|]. split.
  - exists o. split; [done|]. intros g Hin. by apply Hf in Hin.
  - intros g _. by rewrite Hg.
Qed.

Ltac step4_inv :=
  repeat match goal with
  | H : res_bind _ _ = Ok _ |- _ => apply res_bind_Ok in H as (? & ? & H)
  | H : deref _ = Ok _ |- _ => apply deref_Ok in H
  | H : Ok _ = Ok _ |- _ => injection H as H
  | H : Some _ = Some _ |- _ => injection H as H
  | H : (_, _) = (_, _) |- _ => injection H as ? ?
  | H : Blocks = Ok _ |- _ => discriminate H
  | H : Panic _ = Ok _ |- _ => discriminate H
  | H : None = Some _ |- _ => discriminate H
  | H : match ?x with _ => _ end = Ok _ |- _ => destruct x eqn:?
  | H : (if ?x then _ else _) = Ok _ |- _ => destruct x eqn:?
  | H : (let (_, _) := ?x in _) = Ok _ |- _ => destruct x eqn:?
  end; subst.

Lemma step4_park_M_Ok m w w' :
  Step4.park_M m w = Ok w' →
  Step4.gs w' = Step4.gs w ∧ Step4.out w' = Step4.out w.
Proof.
  unfold Step4.park_M, Step4.Lock, Step4.Unlock. intros H.
  step4_inv. simpl in *. step4_inv. done.
Qed.

Lemma step4_kept_Schedule m w w' :
  Step4.Schedule m w = Ok w' → Step4.blocking_tasks_kept w w'.
Proof.
  intros H. unfold Step4.Schedule in H.
  apply res_bind_Ok in H as (mv & Hm & H). apply deref_Ok in Hm.
  assert (Hidle : ∀ w',
    res_bind (Step4.park_M m w)
      (λ w1, Ok (Step4.print (Step4.EvIdling (Step4.M_ID mv)) w1)) = Ok w' →
    Step4.blocking_tasks_kept w w').
  { intros w0 H0. apply res_bind_Ok in H0 as (w1 & Hp & H0).
    apply step4_park_M_Ok in Hp as [Hg Ho]. simplify_eq.
    eapply (step4_kept_frame _ _ [_]); simpl; [done|by rewrite Ho|].
    intros g Hin. apply list_elem_of_singleton in Hin. discriminate. }
  destruct (Step4.M_P mv) as [p|]; [|by apply Hidle].
  apply res_bind_Ok in H as (pv & Hp & H). apply deref_Ok in Hp.
  destruct (NumG pv =? 0); [by apply Hidle|].
  destruct (RunQ pv) as [|g rest]; [done|].
  apply res_bind_Ok in H as (gv & Hg & H). apply deref_Ok in Hg.
  destruct (blockChan gv) as [c|] eqn:Hc.
  - apply res_bind_Ok in H as (w6 & Hpark & H).
    apply step4_park_M_Ok in Hpark as [Hg6 Ho6]. simplify_eq. simpl in *.
    split; [|split].
    + intros x. simpl. rewrite Hg6. simpl.
      destruct (decide (g = x)) as [->|Hne].
      * by rewrite lookup_insert_eq, Hg.
      * by rewrite lookup_insert_ne.
    + eexists [_; _; _]. simpl. rewrite Ho6. simpl.
      rewrite <- !app_assoc. split; [reflexivity|].
      intros x Hin. rewrite !elem_of_cons, elem_of_nil in Hin.
      destruct Hin as [?|[?|[?|?]]]; done.
    + intros x Hb. simpl. rewrite Hg6. simpl.
      destruct (decide (g = x)) as [->|Hne].
      * rewrite lookup_insert_eq. simpl. discriminate.
      * by rewrite lookup_insert_ne.
  - unfold Step4.Run in H. simpl in H. rewrite lookup_insert_eq in H.
    simpl in H. rewrite Hc in H.
    destruct (Func gv); [|done]. simpl in H.
    rewrite lookup_insert_eq in H. simpl in H. simplify_eq.
    assert (Hnb : ¬ Step4.blocking (Step4.gs w) g).
    { intros (gv' & c & Hg' & Hc'). congruence. }
    split; [|split].
    + intros x. simpl. destruct (decide (g = x)) as [->|Hne].
      * by rewrite !lookup_insert_eq, Hg.
      * by rewrite !lookup_insert_ne.
    + eexists [_; _; _; _]. simpl.
      rewrite <- !app_assoc. split; [reflexivity|].
      intros x Hin. rewrite !elem_of_cons, elem_of_nil in Hin.
      destruct Hin as [?|[?|[?|[?|?]]]]; try done. by simplify_eq.
    + intros x Hb. simpl. destruct (decide (g = x)) as [->|Hne]; [done|].
      by rewrite !lookup_insert_ne.
Qed.

Lemma step4_kept_bindIdleM p w r w' :
  Step4.bindIdleM p w = Ok (r, w') → Step4.blocking_tasks_kept w w'.
Proof.
  unfold Step4.bindIdleM, Step4.Lock, Step4.Unlock. intros H.
  step4_inv; simpl in *; step4_inv.
  - eapply (step4_kept_frame _ _ []); simpl; [done|by rewrite app_nil_r|].
    intros g Hin. by apply elem_of_nil in Hin.
  - eapply (step4_kept_frame _ _ [_]); simpl; [done|done|].
    intros g Hin. apply list_elem_of_singleton in Hin. discriminate.
Qed.

Lemma step4_kept_poll_Ms l : ∀ w w',
  Step4.poll_Ms l w = Ok w' → Step4.blocking_tasks_kept w w'.
Proof.
  induction l as [|m l IH]; intros w w' H; simpl in H.
  - simplify_eq. apply step4_kept_refl.
  - apply res_bind_Ok in H as (mv & Hm & H).
    apply res_bind_Ok in H as (w1 & H1 & H).
    eapply step4_kept_trans; [|by apply IH].
    destruct (Step4.M_P mv); [|simplify_eq; apply step4_kept_refl].
    apply res_bind_Ok in H1 as (pv & Hp & H1).
    destruct (0 <? NumG pv); [by eapply step4_kept_Schedule|].
    simplify_eq. apply step4_kept_refl.
Qed.

Lemma step4_kept_find_work l : ∀ w b w',
  Step4.find_work l w = Ok (b, w') → Step4.blocking_tasks_kept w w'.
Proof.
  induction l as [|p l IH]; intros w b w' H; simpl in H.
  - simplify_eq. apply step4_kept_refl.
  - apply res_bind_Ok in H as (pv & Hp & H).
    destruct (0 <? NumG pv); [|by eapply IH].
    apply res_bind_Ok in H as ([r w1] & Hb & H). simplify_eq.
    by eapply step4_kept_bindIdleM.
Qed.

Lemma step4_kept_Run_iter w w' :
  Step4.Run_iter w = Ok w' → Step4.blocking_tasks_kept w w'.
Proof.
  unfold Step4.Run_iter. intros H.
  apply res_bind_Ok in H as (w1 & H1 & H).
  apply res_bind_Ok in H as ([b w2] & H2 & H). simplify_eq.
  eapply step4_kept_trans; [by eapply step4_kept_poll_Ms|].
  eapply step4_kept_trans; [by eapply step4_kept_find_work|].
  eapply (step4_kept_frame _ _ []); [by destruct b|by destruct b; simpl; rewrite app_nil_r|].
  intros g Hin. by apply elem_of_nil in Hin.
Qed.

Lemma step4_kept_Run_loop fuel : ∀ w w',
  Step4.Run_loop fuel w = Some (Ok w') → Step4.blocking_tasks_kept w w'.
Proof.
  induction fuel as [|fuel IH]; intros w w' H; simpl in H; [done|].
  destruct (Step4.done (Step4.sched w)).
  { simplify_eq. apply step4_kept_refl. }
  destruct (Step4.Run_iter w) as [w1| |msg] eqn:E; [|done|done].
  eapply step4_kept_trans; [by apply step4_kept_Run_iter|by apply IH].
Qed.

(** X15.  The scheduler of this iteration never runs a blocking task.
    Whatever [Run] does before it returns, the work routine of a task
    created with a channel is not called and the task is not marked done:
    [Schedule] takes such a task off its queue, marks it running, detaches
    the M and returns without calling [g.Run()]. *)
Theorem Run_never_runs_a_blocking_task
    (fuel : nat) (w w' : Step4.World) (g : nat) :
  Step4.Scheduler_Run fuel w = Some (Ok w') →
  Step4.blocking (Step4.gs w) g →
  Step4.blocking (Step4.gs w') g ∧
  (Step4.EvFunc g ∈ Step4.out w' → Step4.EvFunc g ∈ Step4.out w) ∧
  ((Status <$> Step4.gs w' !! g) = Some "done" →
   (Status <$> Step4.gs w !! g) = Some "done").
Proof.
  unfold Step4.Scheduler_Run. intros H Hb.
  destruct (Step4.Run_loop fuel (Step4.print Step4.EvStart w))
    as [[w1| |msg]|] eqn:E; try done.
  simplify_eq.
  apply step4_kept_Run_loop in E as (Hc & (o & Ho & Hf) & Hd). simpl in *.
  split; [|split].
  - by apply (step4_blocking_view (Step4.gs w) (Step4.gs w1) g Hc).
  - rewrite Ho. rewrite !elem_of_app. intros [[[Hin|Hin]|Hin]|Hin].
    + done.
    + apply list_elem_of_singleton in Hin. discriminate.
    + by apply Hf in Hin.
    + apply list_elem_of_singleton in Hin. discriminate.
  - by apply Hd.
Qed.

(** Instance of [Run_never_runs_a_blocking_task]: in [main] the loop of
    [Run] ends after three rounds; G2 has been started but its work
    routine has not run, and it is left in the state running. *)
Lemma Run_never_runs_a_blocking_task_witness :
  ∃ w w',
    Step4.main_world = Ok w ∧
    Step4.Scheduler_Run 4 w = Some (Ok w') ∧
    Step4.EvStarting 0 0 2 ∈ Step4.out w' ∧
    (Step4.EvFunc 2 ∉ Step4.out w') ∧
    (Status <$> Step4.gs w' !! 2%nat) = Some "running".
Proof.
  eexists _, _. split; [vm_compute; reflexivity|].
  match goal with
  | |- Step4.Scheduler_Run ?n ?w = ?r ∧ _ =>
      assert (Hr : Step4.Scheduler_Run n w = r) by (vm_compute; reflexivity);
      split; [exact Hr|];
      destruct (Run_never_runs_a_blocking_task n w _ 2%nat Hr) as (_ & Hf & _)
  end.
  - eexists _, _. split; [vm_compute; reflexivity|reflexivity].
  - split; [|split; [|vm_compute; reflexivity]].
    + vm_compute. repeat constructor.
    + intros Hin. apply Hf in Hin. by apply elem_of_nil in Hin.
Defined.

(** ** A P that no M serves *)

Lemma step4_poll_Ms_idle l : ∀ w,
  Forall (λ m, ∃ mv, Step4.ms w !! m = Some mv ∧
                 match Step4.M_P mv with
                 | None => True
                 | Some p => ∃ pv, Step4.ps w !! p = Some pv ∧ NumG pv <= 0
                 end) l →
  Step4.poll_Ms l w = Ok w.
Proof.
  induction l as [|m l IH]; intros w Hl; simpl; [done|].
  apply Forall_cons in Hl as [(mv & Hm & HP) Hl].
  rewrite Hm. simpl. destruct (Step4.M_P mv) as [p|]; simpl; [|by apply IH].
  destruct HP as (pv & Hp & Hn). rewrite Hp. simpl.
  destruct (Z.ltb_spec 0 (NumG pv)); [lia|]. simpl. by apply IH.
Qed.

Lemma step4_find_work_nobody l : ∀ w,
  Step4.idleMs (Step4.sched w) = [] → Step4.mu (Step4.sched w) = false →
  Forall (λ p, is_Some (Step4.ps w !! p)) l →
  Exists (λ p, ∃ pv, Step4.ps w !! p = Some pv ∧ 0 < NumG pv) l →
  Step4.find_work l w = Ok (false, w).
Proof.
  intros w Hidle Hmu. induction l as [|p l IH]; intros Hall Hex.
  { by apply Exists_nil in Hex. }
  apply Forall_cons in Hall as [[pv Hp] Hall]. simpl. rewrite Hp. simpl.
  destruct (Z.ltb_spec 0 (NumG pv)) as [Hpos|Hle].
  - unfold Step4.bindIdleM, Step4.Lock. rewrite Hmu. simpl.
    rewrite Hidle. simpl. do 2 f_equal.
    destruct w as [[] ]; simpl in *. by subst.
  - apply IH; [done|]. apply Exists_cons in Hex as [(pv' & Hp' & Hn)|Hex];
      [|done]. simplify_eq. lia.
Qed.

Lemma step4_Run_iter_stuck w :
  Step4.nobody_can_run w → Step4.work_left w →
  Step4.Run_iter w = Ok (Step4.Sleep (50 * Millisecond) w).
Proof.
  intros (Hidle & Hmu & HMs) (Hall & Hex). unfold Step4.Run_iter.
  rewrite step4_poll_Ms_idle by done. simpl.
  by rewrite step4_find_work_nobody.
Qed.

(** X16.  [Run] never returns when a P has tasks that no M can take.  If
    every M is unbound or bound to a P with an empty queue, no M is in
    [s.idleMs] and some P still records tasks, then a round of the loop
    changes nothing but the clock: [bindIdleM] finds no idle M (the loop
    calls [Schedule] only for an M that has work, so an M whose P is empty
    is never put on [s.idleMs]) and [s.done] stays false, for any number of
    rounds. *)
Theorem Run_spins_when_no_M_serves_a_P (fuel : nat) (w : Step4.World) :
  Step4.done (Step4.sched w) = false →
  Step4.nobody_can_run w → Step4.work_left w →
  Step4.Run_loop fuel w = None.
Proof.
  revert w. induction fuel as [|fuel IH]; intros w Hd Hn Hw; simpl; [done|].
  rewrite Hd, step4_Run_iter_stuck by done.
  apply IH; [done|exact Hn|exact Hw].
Qed.

(** Instance of [Run_spins_when_no_M_serves_a_P]: two Ps with one M each.
    M1 detaches from P1 for a blocking task and is then handed P0, which
    still has work; from then on both Ms are bound to P0, and the task
    left on P1 is never run. *)
Lemma Run_spins_when_no_M_serves_a_P_witness :
  ∃ w, Step4.stranded_scenario = Ok w ∧
       (RunQ <$> Step4.ps w !! 1%nat) = Some [3%nat] ∧
       Step4.Run_loop 1000 w = None.
Proof.
  eexists. split; [vm_compute; reflexivity|]. split; [vm_compute; reflexivity|].
  apply Run_spins_when_no_M_serves_a_P.
  - reflexivity.
  - split; [reflexivity|]. split; [reflexivity|].
    repeat (apply Forall_cons_2;
            [eexists; split; [vm_compute; reflexivity|];
             eexists; split; [vm_compute; reflexivity|]; simpl; lia|]).
    apply Forall_nil_2.
  - split.
    + repeat (apply Forall_cons_2; [vm_compute; eauto|]). apply Forall_nil_2.
    + apply Exists_cons_tl, Exists_cons_hd.
      eexists. split; [vm_compute; reflexivity|]. simpl. lia.
Defined.

(** * The iteration with a handoff channel per P: the double unlock *)

Lemma step5_grab_none m l : ∀ w,
  Forall (λ p, ∃ pv, Step5.ps w !! p = Some pv ∧ Step5.handoff pv = []) l →
  Step5.grab m l w = Ok w.
Proof.
  induction l as [|p l IH]; intros w Hl; simpl; [done|].
  apply Forall_cons in Hl as [(pv & Hp & Hh) Hl].
  rewrite Hp. simpl. rewrite Hh. by apply IH.
Qed.

Lemma step5_grab_some m mv l : ∀ w,
  Step5.ms w !! m = Some mv → Step5.mu (Step5.sched w) = true →
  Forall (λ p, ∃ pv, Step5.ps w !! p = Some pv ∧
                 Forall (λ v, is_Some (Step5.ps w !! v)) (Step5.handoff pv)) l →
  Exists (λ p, ∃ pv, Step5.ps w !! p = Some pv ∧ Step5.handoff pv ≠ []) l →
  ∃ w', Step5.grab m l w = Ok w' ∧ Step5.mu (Step5.sched w') = false ∧
        ∃ v, Step5.ms w' !! m = Some (Step5.set_M_P (Some v) mv).
Proof.
  intros w Hm Hmu. induction l as [|p l IH]; intros Hall Hex.
  { by apply Exists_nil in Hex. }
  apply Forall_cons in Hall as [(pv & Hp & Hvs) Hall]. simpl.
  rewrite Hp. simpl.
  destruct (Step5.handoff pv) as [|v rest] eqn:Hh.
  - apply IH; [done|].
    apply Exists_cons in Hex as [(pv' & Hp' & Hh')|Hex]; [|done].
    simplify_eq.
  - rewrite Hm. simpl.
    apply Forall_cons in Hvs as [[vv Hv] _].
    assert (Hv' : ∃ vv', <[p := Step5.set_handoff rest pv]> (Step5.ps w) !! v
                         = Some vv').
    { destruct (decide (p = v)) as [->|Hne].
      - rewrite lookup_insert_eq. eauto.
      - rewrite lookup_insert_ne by done. eauto. }
    destruct Hv' as [vv' Hv']. rewrite Hv'. simpl.
    unfold Step5.Unlock. simpl. rewrite Hmu.
    eexists. split; [reflexivity|]. split; [done|].
    exists v. simpl. by rewrite lookup_insert_eq.
Qed.

Lemma step5_scheduleOnce_grab_fatal m mv w :
  Step5.ms w !! m = Some mv → Step5.M_P mv = None →
  Step5.mu (Step5.sched w) = false → Step5.Ps_ok w → Step5.handed_off w →
  Step5.scheduleOnce m w = Panic "sync: unlock of unlocked mutex".
Proof.
  intros Hm HP Hmu Hok Hex. unfold Step5.scheduleOnce.
  rewrite Hm. simpl. rewrite HP. unfold Step5.Lock. rewrite Hmu. simpl.
  destruct (step5_grab_some m mv (Step5.Ps (Step5.sched w))
              (Step5.with_sched (Step5.set_mu true (Step5.sched w)) w))
    as (w' & Hg & Hmu' & _); try done.
  simpl in Hg. rewrite Hg. simpl. unfold Step5.Unlock. by rewrite Hmu'.
Qed.

(** X17.  The acquisition of [scheduleOnce] unlocks the mutex twice.  When
    an unbound worker finds a P in a handoff channel, it takes the P and
    unlocks [s.mu] inside the loop, leaves the loop, and unlocks [s.mu]
    again: the iteration ends in the fatal error "sync: unlock of unlocked
    mutex".  Only when no handoff channel holds a P does the iteration
    return, with nothing changed. *)
Theorem scheduleOnce_unlocks_twice_after_a_grab
    (m : nat) (mv : Step5.M) (w : Step5.World) :
  Step5.ms w !! m = Some mv → Step5.M_P mv = None →
  Step5.mu (Step5.sched w) = false → Step5.Ps_ok w →
  (Step5.handed_off w →
   Step5.scheduleOnce m w = Panic "sync: unlock of unlocked mutex") ∧
  (¬ Step5.handed_off w → Step5.scheduleOnce m w = Ok w).
Proof.
  intros Hm HP Hmu Hok. split.
  - intros Hex. by eapply step5_scheduleOnce_grab_fatal.
  - intros Hno. unfold Step5.scheduleOnce.
    rewrite Hm. simpl. rewrite HP. unfold Step5.Lock. rewrite Hmu. simpl.
    rewrite step5_grab_none.
    + simpl. rewrite Hm. simpl. rewrite HP. f_equal.
      destruct w as [[] ]; simpl in *. by subst.
    + simpl. unfold Step5.handed_off in Hno. unfold Step5.Ps_ok in Hok.
      apply Forall_forall. intros p Hin.
      rewrite Forall_forall in Hok. destruct (Hok p Hin) as (pv & Hp & _).
      exists pv. split; [done|].
      destruct (Step5.handoff pv) eqn:Hh; [done|]. exfalso. apply Hno.
      apply Exists_exists. exists p. split; [done|]. exists pv.
      split; [done|]. by rewrite Hh.
Qed.

(** Instance of [scheduleOnce_unlocks_twice_after_a_grab]: M1 is unbound
    and P1 waits in its own handoff channel; without the P in the channel
    the iteration returns. *)
Lemma scheduleOnce_unlocks_twice_after_a_grab_witness :
  let w := Step5.put_M 1 (Step5.mkM 1 None None make_chan) Step5.setup_world in
  Step5.scheduleOnce 1 (Step5.put_P 1 (Step5.mkP 1 [] 0 [1%nat]) w)
    = Panic "sync: unlock of unlocked mutex" ∧
  Step5.scheduleOnce 1 w = Ok w.
Proof.
  intros w. split.
  - apply (scheduleOnce_unlocks_twice_after_a_grab 1
             (Step5.mkM 1 None None make_chan)
             (Step5.put_P 1 (Step5.mkP 1 [] 0 [1%nat]) w)).
    + vm_compute. reflexivity.
    + reflexivity.
    + reflexivity.
    + repeat (apply Forall_cons_2;
              [eexists; split; [vm_compute; reflexivity|];
               repeat (apply Forall_cons_2; [vm_compute; eauto|]);
               apply Forall_nil_2|]).
      apply Forall_nil_2.
    + apply Exists_cons_tl, Exists_cons_hd.
      eexists. split; [vm_compute; reflexivity|]. simpl. discriminate.
  - apply (scheduleOnce_unlocks_twice_after_a_grab 1
             (Step5.mkM 1 None None make_chan) w).
    + vm_compute. reflexivity.
    + reflexivity.
    + reflexivity.
    + repeat (apply Forall_cons_2;
              [eexists; split; [vm_compute; reflexivity|];
               repeat (apply Forall_cons_2; [vm_compute; eauto|]);
               apply Forall_nil_2|]).
      apply Forall_nil_2.
    + intros Hex. apply Exists_exists in Hex as (p & Hin & pv & Hp & Hh).
      simpl in Hin. rewrite !elem_of_cons, elem_of_nil in Hin.
      destruct Hin as [->|[->|[]]]; vm_compute in Hp; by simplify_eq.
Defined.

Lemma step5_park m w mv p pv :
  Step5.ms w !! m = Some mv → Step5.M_P mv = Some p →
  Step5.ps w !! p = Some pv → Step5.NumG pv = 0 → Step5.handoff pv = [] →
  Step5.globalQ (Step5.sched w) = [] → Step5.mu (Step5.sched w) = false →
  Step5.scheduleOnce m w =
    Ok (Step5.mkWorld (Step5.sched w) (Step5.gs w)
          (<[p := Step5.set_handoff [p] pv]> (Step5.ps w))
          (<[m := Step5.set_M_P None mv]> (Step5.ms w))
          (Step5.out w ++ [Step5.EvParking (Step5.M_ID mv) (Step5.P_ID pv)])).
Proof.
  intros Hm HP Hp Hn Hh Hgq Hmu. unfold Step5.scheduleOnce.
  rewrite Hm. simpl. rewrite HP. unfold Step5.with_P.
  rewrite Hm. simpl. rewrite HP. simpl. rewrite Hp. simpl. rewrite Hn. simpl.
  unfold Step5.Lock. rewrite Hmu. simpl. rewrite Hgq. simpl.
  rewrite Hp. simpl. rewrite Hn. simpl.
  unfold Step5.hand_off. simpl. rewrite Hm. simpl. rewrite HP. simpl.
  unfold Step5.handoff_send. simpl. rewrite Hp. simpl. rewrite Hh. simpl.
  f_equal. unfold Step5.put_M, Step5.put_P. simpl. f_equal.
  destruct (Step5.sched w); simpl in *. by subst.
Qed.

(** X18.  A park is fatal at the next acquisition.  An iteration of a
    worker whose P has no work and finds none in the global queue puts the
    P into the P's own handoff channel and unbinds the worker; after that,
    the first iteration of any unbound worker, the parking worker
    included, takes a P out of a handoff channel and dies in the second
    [Unlock]. *)
Theorem a_park_is_fatal_at_the_next_acquisition
    (m p : nat) (mv : Step5.M) (pv : Step5.P) (w : Step5.World) :
  Step5.ms w !! m = Some mv → Step5.M_P mv = Some p →
  p ∈ Step5.Ps (Step5.sched w) →
  Step5.ps w !! p = Some pv → Step5.NumG pv = 0 → Step5.handoff pv = [] →
  Step5.globalQ (Step5.sched w) = [] → Step5.mu (Step5.sched w) = false →
  Step5.Ps_ok w →
  ∃ w1,
    Step5.scheduleOnce m w = Ok w1 ∧
    Step5.out w1 =
      Step5.out w ++ [Step5.EvParking (Step5.M_ID mv) (Step5.P_ID pv)] ∧
    (Step5.handoff <$> Step5.ps w1 !! p) = Some [p] ∧
    (Step5.M_P <$> Step5.ms w1 !! m) = Some None ∧
    ∀ m' mv', Step5.ms w1 !! m' = Some mv' → Step5.M_P mv' = None →
      Step5.scheduleOnce m' w1 = Panic "sync: unlock of unlocked mutex".
Proof.
  intros Hm HP Hin Hp Hn Hh Hgq Hmu Hok.
  eexists. split; [by apply step5_park|]. simpl.
  rewrite !lookup_insert_eq. split; [done|]. split; [done|]. split; [done|].
  intros m' mv' Hm' HP'.
  apply (step5_scheduleOnce_grab_fatal m' mv'); try done.
  - unfold Step5.Ps_ok in *. simpl. eapply Forall_impl; [exact Hok|].
    intros q (qv & Hq & Hvs). simpl in *.
    assert (Hkeep : ∀ v, is_Some (Step5.ps w !! v) →
              is_Some (<[p := Step5.set_handoff [p] pv]> (Step5.ps w) !! v)).
    { intros v Hv. destruct (decide (p = v)) as [->|Hne].
      - rewrite lookup_insert_eq. eauto.
      - by rewrite lookup_insert_ne. }
    destruct (decide (p = q)) as [->|Hne].
    + rewrite lookup_insert_eq. eexists. split; [done|]. simpl.
      apply Forall_cons_2; [|apply Forall_nil_2]. apply Hkeep. eauto.
    + rewrite lookup_insert_ne by done. exists qv. split; [done|].
      eapply Forall_impl; [exact Hvs|]. exact Hkeep.
  - unfold Step5.handed_off. simpl. apply Exists_exists.
    exists p. split; [done|]. rewrite lookup_insert_eq.
    eexists. split; [done|]. simpl. discriminate.
Qed.

(** Instance of [a_park_is_fatal_at_the_next_acquisition]: the end of the
    run recorded with the source, M1 parks P1, takes it back and dies. *)
Lemma a_park_is_fatal_at_the_next_acquisition_witness :
  ∃ w1,
    Step5.scheduleOnce 1 Step5.setup_world = Ok w1 ∧
    Step5.out w1 = [Step5.EvParking 1 1] ∧
    Step5.scheduleOnce 1 w1 = Panic "sync: unlock of unlocked mutex".
Proof.
  destruct (a_park_is_fatal_at_the_next_acquisition 1 1
              (Step5.mkM 1 (Some 1%nat) None make_chan)
              (Step5.mkP 1 [] 0 []) Step5.setup_world)
    as (w1 & Hs & Ho & _ & Hm & Hf).
  1-2: reflexivity.
  - simpl. repeat constructor.
  - reflexivity.
  - reflexivity.
  - reflexivity.
  - reflexivity.
  - reflexivity.
  - repeat (apply Forall_cons_2;
            [eexists; split; [vm_compute; reflexivity|]; apply Forall_nil_2|]).
    apply Forall_nil_2.
  - exists w1. split; [exact Hs|]. split; [exact Ho|].
    destruct (Step5.ms w1 !! 1%nat) as [mv1|] eqn:E; [|done].
    apply (Hf 1%nat mv1 E). simpl in Hm. by simplify_eq.
Defined.

(** * The WaitGroup *)

Lemma step_worker_wg m w w' :
  step_worker m w = Ok w' →
  ∃ pc pc',
    wpc w !! m = Some pc ∧ pc ≠ Exited ∧ wpc w' = <[m := pc']> (wpc w) ∧
    ((pc' ≠ Exited ∧ wg (sched w') = wg (sched w)) ∨
     (pc' = Exited ∧ wg (sched w') = wg (sched w) - 1)).
Proof.
  intros H. unfold step_worker in H.
  destruct (wpc w !! m) as [pc|] eqn:Hpc; [|done].
  destruct (ms w !! m) as [mv|] eqn:Hm; [|done]. simpl in H.
  exists pc.
  destruct pc; unfold Run_step in H; step_inv.
  all: eexists; split; [done|]; split; [done|];
       split; [simpl; reflexivity|]; simpl.
  all: first [ left; split; [discriminate|reflexivity]
             | right; split; reflexivity ].
Qed.

Lemma running_insert_live (pcs : gmap nat PC) m pc pc' :
  pcs !! m = Some pc → pc ≠ Exited → pc' ≠ Exited →
  size (filter (λ x : nat * PC, x.2 ≠ Exited) (<[m := pc']> pcs)) =
  size (filter (λ x : nat * PC, x.2 ≠ Exited) pcs).
Proof.
  intros Hm Hpc Hpc'. rewrite map_filter_insert_True by done.
  apply map_size_insert_Some. exists pc. by apply map_lookup_filter_Some.
Qed.

Lemma running_insert_exited (pcs : gmap nat PC) m pc :
  pcs !! m = Some pc → pc ≠ Exited →
  S (size (filter (λ x : nat * PC, x.2 ≠ Exited) (<[m := Exited]> pcs))) =
  size (filter (λ x : nat * PC, x.2 ≠ Exited) pcs).
Proof.
  intros Hm Hpc.
  rewrite map_filter_insert_False by (simpl; intros Hc; by apply Hc).
  rewrite map_filter_delete.
  assert (Hin : filter (λ x : nat * PC, x.2 ≠ Exited) pcs !! m = Some pc)
    by (by apply map_lookup_filter_Some).
  rewrite map_size_delete_Some by eauto.
  assert (size (filter (λ x : nat * PC, x.2 ≠ Exited) pcs) ≠ 0%nat).
  { intros Hz. apply map_size_empty_inv in Hz. rewrite Hz in Hin.
    by rewrite lookup_empty in Hin. }
  lia.
Qed.

Lemma running_insert_new (pcs : gmap nat PC) m pc :
  pcs !! m = None → pc ≠ Exited →
  size (filter (λ x : nat * PC, x.2 ≠ Exited) (<[m := pc]> pcs)) =
  S (size (filter (λ x : nat * PC, x.2 ≠ Exited) pcs)).
Proof.
  intros Hm Hpc. rewrite map_filter_insert_True by done.
  apply map_size_insert_None. by apply map_lookup_filter_None_2; left.
Qed.

Lemma wg_ok_frame w w' :
  wpc w' = wpc w → wg (sched w') = wg (sched w) → wg_ok w → wg_ok w'.
Proof. unfold wg_ok, running. by intros -> ->. Qed.

Lemma wg_ok_act a w w' :
  act a w = Ok w' → workers_ok w → wg_ok w → wg_ok w'.
Proof.
  intros H Hwk Hinv. destruct a.
  - simpl in H.
    destruct (step_worker_wg m w w' H)
      as (pc & pc' & Hpc & Hne & Hw & [[Hne' Hwg]|[-> Hwg]]);
      unfold wg_ok, running in *; rewrite Hw, Hwg, Hinv.
    + by rewrite (running_insert_live _ m pc pc').
    + rewrite <- (running_insert_exited (wpc w) m pc) by done. lia.
  - unfold_act H. step_inv; (eapply wg_ok_frame; [..|exact Hinv]); done.
  - unfold_act H. step_inv; (eapply wg_ok_frame; [..|exact Hinv]); done.
  - unfold_act H. step_inv; (eapply wg_ok_frame; [..|exact Hinv]); done.
  - unfold_act H. step_inv; (eapply wg_ok_frame; [..|exact Hinv]); done.
  - unfold_act H. step_inv; (eapply wg_ok_frame; [..|exact Hinv]); done.
  - unfold_act H. step_inv; (eapply wg_ok_frame; [..|exact Hinv]); done.
  - unfold_act H. step_inv; (eapply wg_ok_frame; [..|exact Hinv]); done.
  - unfold_act H. step_inv. unfold wg_ok, running in *. simpl.
    assert (Hnew : wpc w !! fresh (dom (ms w)) = None).
    { destruct (wpc w !! fresh (dom (ms w))) eqn:E; [|done].
      destruct (Hwk (fresh (dom (ms w)))) as [mv Hmv]; [by rewrite E|].
      apply (elem_of_dom_2 (ms w)) in Hmv. by apply is_fresh in Hmv. }
    rewrite running_insert_new by done.
    destruct (availPs (sched w)); simpl; rewrite Hinv; lia.
Qed.

Lemma wg_ok_exec acts w w' :
  exec acts w = Some w' → workers_ok w → wg_ok w →
  workers_ok w' ∧ wg_ok w'.
Proof.
  intros He Hwk Hinv.
  apply (exec_invariant (λ w, workers_ok w ∧ wg_ok w) (λ _, true))
    with (acts := acts) (w := w); try done.
  - intros a w0 w1 _ Ha [? ?]. split.
    + by eapply workers_ok_act.
    + by eapply wg_ok_act.
  - apply Forall_any_action.
Qed.

(** X19.  The WaitGroup counts the running workers.  In every world the
    program reaches from the empty scheduler, the counter of [s.wg] is the
    number of goroutines [m.run(s)] that have not returned: [AddM] adds one
    before it starts the goroutine and the deferred [s.wg.Done()] takes one
    off when the goroutine returns.  So a worker that finds its stop
    channel closed always returns without the panic of a negative counter,
    and the counter is zero once all workers have returned. *)
Theorem WaitGroup_counts_running_workers (acts : list Action) (w : World) :
  exec acts empty_world = Some w →
  wg_ok w ∧
  (∀ m mv, wpc w !! m = Some LoopSelect → ms w !! m = Some mv →
           closed (stop mv) = true →
           ∃ w', step_worker m w = Ok w' ∧ wpc w' !! m = Some Exited ∧
                 wg (sched w') = wg (sched w) - 1 ∧ wg_ok w') ∧
  (map_Forall (λ _ pc, pc = Exited) (wpc w) → wg (sched w) = 0).
Proof.
  intros He.
  destruct (wg_ok_exec acts empty_world w He) as [Hwk Hinv].
  { intros m [pc Hpc]. simpl in Hpc. by rewrite lookup_empty in Hpc. }
  { unfold wg_ok, running. simpl. by rewrite map_filter_empty. }
  split; [done|]. split.
  - intros m mv Hpc Hm Hcl.
    assert (Hpos : 0 < wg (sched w)).
    { rewrite Hinv.
      assert (Hin : running w !! m = Some LoopSelect)
        by (by apply map_lookup_filter_Some).
      destruct (size (running w)) eqn:Hz; [|lia].
      apply map_size_empty_inv in Hz. rewrite Hz in Hin.
      by rewrite lookup_empty in Hin. }
    assert (Hs : step_worker m w =
              Ok (goto m Exited
                    (with_sched (set_wg (wg (sched w) - 1) (sched w)) w))).
    { rewrite (step_worker_at m w LoopSelect mv Hpc Hm), Hcl.
      destruct (Z.ltb_spec (wg (sched w) - 1) 0); [lia|done]. }
    eexists. split; [exact Hs|]. split; [apply wpc_goto|]. split; [done|].
    eapply (wg_ok_act (ActWorker m)); [exact Hs|done|done].
  - intros Hall. rewrite Hinv. unfold running.
    rewrite map_empty_filter_2; [done|].
    intros m pc Hpc. simpl. intros Hne. apply Hne. by apply (Hall m pc).
Qed.

(** Instance of [WaitGroup_counts_running_workers]: [main]'s setup, then
    [close(m.stop)] for M0, which returns at its next loop test. *)
Lemma WaitGroup_counts_running_workers_witness :
  ∃ w w',
    exec [ActAddP 0; ActAddM 0 0; ActAddP 1; ActAddM 1 1; ActCloseStop 0]
      empty_world = Some w ∧
    wg (sched w) = 2 ∧
    step_worker 0 w = Ok w' ∧ wpc w' !! 0%nat = Some Exited ∧
    wg (sched w') = 1.
Proof.
  eexists.
  match goal with
  | |- ∃ w', exec ?l ?w0 = Some ?w ∧ _ =>
      assert (He : exec l w0 = Some w) by (vm_compute; reflexivity);
      destruct (proj1 (proj2 (WaitGroup_counts_running_workers l w He))
                  0%nat (mkM 0 (Some 0%nat) None (mkChan true []) 0))
        as (w' & Hs & Hpc & Hwg & _)
  end.
  1-3: vm_compute; reflexivity.
  exists w'. split; [exact He|]. split; [reflexivity|].
  split; [exact Hs|]. split; [exact Hpc|]. rewrite Hwg. reflexivity.
Defined.

(** * The tasks under every interleaving *)

Lemma String_eqb_neq (s t : string) : (s =? t)%string = false → s ≠ t.
Proof. intros H ->. by rewrite String.eqb_refl in H. Qed.

Lemma task_fits_run_start g gv :
  is_Some (blockChan gv) →
  task_fits (InRun g RFunc) gv → task_fits (InRun g RRecv) gv.
Proof. intros Hc (Ho & _ & _). split_and!; [done|done|]. intros; discriminate. Qed.

Lemma task_fits_RDone g gv : task_fits (InRun g RDone) gv.
Proof. split_and!; try done. Qed.

Lemma task_fits_received g gv c q :
  blockChan gv = Some c →
  task_fits (InRun g RRecv) gv →
  task_fits (InRun g RClose) (set_blockChan (Some (set_sendq q c)) gv).
Proof.
  intros Hc (Ho & _ & _). split_and!.
  - intros _ c' Hc'. simpl in Hc'. simplify_eq. simpl. by apply Ho.
  - intros _. simpl. eauto.
  - intros; discriminate.
Qed.

Lemma task_fits_RClose g gv :
  task_fits (InRun g RRecv) gv → task_fits (InRun g RClose) gv.
Proof. intros (Ho & Hs & _). split_and!; [done|done|]. intros; discriminate. Qed.

Lemma task_fits_done g gv :
  task_fits (AfterRun g) (set_Status "done" gv).
Proof. split_and!; try done. Qed.

Lemma step_worker_tasks m w w' :
  step_worker m w = Ok w' →
  ∃ pc mv pc' mv',
    wpc w !! m = Some pc ∧ ms w !! m = Some mv ∧
    wpc w' = <[m := pc']> (wpc w) ∧ ms w' = <[m := mv']> (ms w) ∧
    task_step w w' pc mv pc' mv'.
Proof.
  intros H. unfold step_worker in H.
  destruct (wpc w !! m) as [pc|] eqn:Hpc; [|done].
  destruct (ms w !! m) as [mv|] eqn:Hm; [|done]. simpl in H.
  exists pc, mv.
  assert (Hid : ms w = <[m := mv]> (ms w)) by (symmetry; by apply insert_id).
  destruct pc; unfold Run_step in H; step_inv.
  all: eexists _, _; split; [done|]; split; [done|];
       split; [simpl; reflexivity|];
       split; [simpl; first [reflexivity | exact Hid]|].
  all: try (by (apply ts_quiet; simpl)).
  all: try (by (apply ts_in_handoff)).
  all: try (by (apply ts_unlocked; simpl)).
  all: try (by (eapply ts_checked; simpl; eauto; by apply Z.eqb_neq)).
  all: try (by (eapply ts_steal; simpl; eauto)).
  all: try (by (eapply ts_pop; simpl; eauto)).
  all: try (by (eapply ts_not_done; simpl; eauto; by apply String_eqb_neq)).
  all: match goal with
       | Hg : gs _ !! ?g = Some ?gv |- task_step _ _ (InRun ?g _) _ _ _ =>
           first
             [ eapply (ts_run _ _ _ _ _ _ g gv gv);
               [reflexivity|reflexivity|exact Hg
               |simpl; symmetry; by apply insert_id|reflexivity|reflexivity|]
             | eapply (ts_run _ _ _ _ _ _ g gv);
               [reflexivity|reflexivity|exact Hg
               |simpl; reflexivity|reflexivity|reflexivity|] ]
       end.
  - apply task_fits_run_start. eauto.
  - intros _. apply task_fits_RDone.
  - apply task_fits_RClose.
  - by apply task_fits_received.
  - intros _. apply task_fits_RDone.
  - intros _. apply task_fits_done.
Qed.

Lemma queued_same g w w' :
  ps w' = ps w → globalQ (sched w') = globalQ (sched w) →
  queued g w' ↔ queued g w.
Proof. unfold queued. by intros -> ->. Qed.

Section TaskStep.
Variables (S : list nat) (m : nat) (w w' : World) (pc pc' : PC) (mv mv' : M).
Hypothesis Hpc : wpc w !! m = Some pc.
Hypothesis Hm : ms w !! m = Some mv.
Hypothesis Hwpc : wpc w' = <[m := pc']> (wpc w).
Hypothesis Hms : ms w' = <[m := mv']> (ms w).
Hypothesis Hok : tasks_ok S w.

Lemma wpc_after m0 pc0 :
  wpc w' !! m0 = Some pc0 →
  (m0 = m ∧ pc0 = pc') ∨ (m0 ≠ m ∧ wpc w !! m0 = Some pc0).
Proof.
  rewrite Hwpc. destruct (decide (m = m0)) as [->|Hne].
  - rewrite lookup_insert_eq. intros; simplify_eq. by left.
  - rewrite lookup_insert_ne by done. by right.
Qed.

Lemma ms_after m0 mv0 :
  ms w' !! m0 = Some mv0 →
  (m0 = m ∧ mv0 = mv') ∨ (m0 ≠ m ∧ ms w !! m0 = Some mv0).
Proof.
  rewrite Hms. destruct (decide (m = m0)) as [->|Hne].
  - rewrite lookup_insert_eq. intros; simplify_eq. by left.
  - rewrite lookup_insert_ne by done. by right.
Qed.

(** The fields that speak of the tasks in the queues and in the workers'
    hands, when the step moves no task and touches none. *)
Lemma tasks_ok_still :
  gs w' = gs w → ps w' = ps w → globalQ (sched w') = globalQ (sched w) →
  task_of pc' = None → in_handoff pc' = false →
  (∀ p pv, about_to_pop pc' = true → M_P mv' = Some p →
           ps w !! p = Some pv → RunQ pv ≠ []) →
  tasks_ok S w'.
Proof.
  intros Hgs Hps Hgq Hnone Hnh Hpop.
  destruct Hok as [T1 T2 T3 T4 T5 T6 T7 T8 T9 T10 T11].
  assert (Hq : ∀ g, queued g w' ↔ queued g w)
    by (intros g; by apply queued_same).
  split; rewrite ?Hgs, ?Hps, ?Hgq; try done.
  - intros g Hg. apply T5. by apply Hq.
  - intros m0 pc0 g H0 Ht. apply wpc_after in H0 as [[-> ->]|[Hne H0]].
    + congruence.
    + destruct (T6 m0 pc0 g H0 Ht) as (? & ? & ?). split; [done|].
      split; [|done]. by rewrite Hq.
  - intros m1 m2 pc1 pc2 g H1 H2 Ht1 Ht2.
    apply wpc_after in H1 as [[-> ->]|[Hn1 H1]]; [congruence|].
    apply wpc_after in H2 as [[-> ->]|[Hn2 H2]]; [congruence|].
    by apply (T7 m1 m2 pc1 pc2 g).
  - intros m0 pc0 H0. apply wpc_after in H0 as [[-> ->]|[Hne H0]]; [done|].
    by apply (T10 m0).
  - intros m0 pc0 mv0 p pv H0 Hp0 Hm0 HP Hp.
    apply wpc_after in H0 as [[-> ->]|[Hne H0]].
    + apply ms_after in Hm0 as [[_ ->]|[? _]]; [|done]. by eapply Hpop.
    + apply ms_after in Hm0 as [[? _]|[_ Hm0]]; [done|].
      by apply (T11 m0 pc0 mv0 p pv).
Qed.

Hypothesis Hown : one_owner w.
Hypothesis Hlen : queue_len_ok w.

(** Two workers that stand at program points where [m.P] is in use do not
    share a P. *)
Lemma bound_workers_apart m0 pc0 mv0 p :
  wpc w !! m0 = Some pc0 → ms w !! m0 = Some mv0 →
  bound_pc pc0 = true → bound_pc pc = true →
  M_P mv0 = Some p → M_P mv = Some p → m0 = m.
Proof.
  intros H0 Hm0 Hb0 Hb HP0 HP.
  destruct Hown as (_ & _ & _ & _ & Huniq & _).
  apply (Huniq m0 m p); unfold hold_of, bind_of.
  - rewrite H0, Hm0. simpl.
    by rewrite owned_plain
      by (first [by apply bound_pc_unpublished|by apply bound_pc_plain]).
  - rewrite Hpc, Hm. simpl.
    by rewrite owned_plain
      by (first [by apply bound_pc_unpublished|by apply bound_pc_plain]).
Qed.

Lemma about_to_pop_bound pc0 : about_to_pop pc0 = true → bound_pc pc0 = true.
Proof. by destruct pc0. Qed.

Lemma tasks_ok_step :
  task_step w w' pc mv pc' mv' → tasks_ok S w'.
Proof.
  intros Hstep.
  pose proof tasks_ok_still as Hstill. pose proof wpc_after as Hwa.
  pose proof ms_after as Hma. pose proof bound_workers_apart as Hapart.
  pose proof Hpc as Hpc_m. pose proof Hm as Hm_m.
  pose proof Hok as [T1 T2 T3 T4 T5 T6 T7 T8 T9 T10 T11].
  destruct Hstep as
    [Hgs Hps Hgq Hnone Hnh Hnp
    |Hgs Hps Hgq -> -> ->
    |p pv Hgs Hps Hgq -> -> HP Hp Hn
    |p pv g rest n Hgs -> -> HP Hp Hgq Hgq' Hps
    |p pv g rest n gv -> -> HP HP' Hp Hq Hps Hg Hgs Hgq
    |g gv gv' Ht Ht' Hg Hgs Hps Hgq Hfit
    |g gv -> Hg Hnd
    |Hin].
  - (* nothing moves *)
    apply Hstill; try done. intros p pv Hp. congruence.
  - (* after the steal: Unlock *)
    apply Hstill; try done. intros p pv _ HP Hp.
    by apply (T11 m UnlockStolen mv p pv).
  - (* the local queue is not empty *)
    apply Hstill; try done. intros p0 pv0 _ HP0 Hp0.
    simplify_eq. intros Hq. apply Hn. rewrite (Hlen p pv Hp), Hq. done.
  - (* steal *)
    assert (Hg_in : g ∈ globalQ (sched w)) by (rewrite Hgq; left).
    assert (Hg_out : g ∉ RunQ pv).
    { intros Hin. by apply (T4 p pv g Hp Hin). }
    assert (Hnd : NoDup (g :: rest)) by (by rewrite <- Hgq).
    apply NoDup_cons in Hnd as [Hg_rest Hnd].
    assert (Hlook : ∀ p0 pv0, ps w' !! p0 = Some pv0 →
              (p0 = p ∧ RunQ pv0 = RunQ pv ++ [g]) ∨
              (p0 ≠ p ∧ ps w !! p0 = Some pv0)).
    { intros p0 pv0. rewrite Hps. destruct (decide (p = p0)) as [->|Hne].
      - rewrite lookup_insert_eq. intros; simplify_eq. by left.
      - rewrite lookup_insert_ne by done. by right. }
    assert (Hq : ∀ g0, queued g0 w' → queued g0 w).
    { intros g0 [Hin|(p0 & pv0 & Hp0 & Hin)].
      - left. rewrite Hgq. right. by rewrite <- Hgq'.
      - apply Hlook in Hp0 as [[-> Hq0]|[Hne Hp0]].
        + rewrite Hq0 in Hin. apply elem_of_app in Hin as [Hin|Hin].
          * right. eauto.
          * apply list_elem_of_singleton in Hin as ->. by left.
        + right. eauto. }
    split; rewrite ?Hgs, ?Hgq'; try done.
    + intros p0 pv0 Hp0. apply Hlook in Hp0 as [[-> Hq0]|[Hne Hp0]].
      * rewrite Hq0. apply NoDup_app. split; [by eapply T2|].
        split; [|apply NoDup_singleton].
        intros x Hx Hx'. apply list_elem_of_singleton in Hx' as ->. done.
      * by eapply T2.
    + intros p1 p2 pv1 pv2 g0 H1 H2 Hin1 Hin2.
      apply Hlook in H1 as [[-> Hq1]|[Hn1 H1]];
        apply Hlook in H2 as [[-> Hq2]|[Hn2 H2]]; try done.
      * rewrite Hq1 in Hin1. apply elem_of_app in Hin1 as [Hin1|Hin1].
        -- symmetry. by apply (T3 p2 p pv2 pv g0).
        -- apply list_elem_of_singleton in Hin1 as ->.
           by destruct (T4 p2 pv2 g H2 Hin2).
      * rewrite Hq2 in Hin2. apply elem_of_app in Hin2 as [Hin2|Hin2].
        -- by apply (T3 p1 p pv1 pv g0).
        -- apply list_elem_of_singleton in Hin2 as ->.
           by destruct (T4 p1 pv1 g H1 Hin1).
      * by apply (T3 p1 p2 pv1 pv2 g0).
    + intros p0 pv0 g0 Hp0 Hin Hin'.
      assert (Hin'' : g0 ∈ globalQ (sched w)) by (rewrite Hgq; by right).
      apply Hlook in Hp0 as [[-> Hq0]|[Hne Hp0]].
      * rewrite Hq0 in Hin. apply elem_of_app in Hin as [Hin|Hin].
        -- by apply (T4 p pv g0 Hp Hin).
        -- apply list_elem_of_singleton in Hin as ->. done.
      * by apply (T4 p0 pv0 g0 Hp0 Hin).
    + intros g0 Hq0. apply T5. by apply Hq.
    + intros m0 pc0 g0 H0 Ht0. apply Hwa in H0 as [[-> ->]|[Hne H0]];
        [done|].
      destruct (T6 m0 pc0 g0 H0 Ht0) as (? & Hnq & ?). split; [done|].
      split; [|done]. intros Hq0. apply Hnq. by apply Hq.
    + intros m1 m2 pc1 pc2 g0 H1 H2 Ht1 Ht2.
      apply Hwa in H1 as [[-> ->]|[Hn1 H1]]; [done|].
      apply Hwa in H2 as [[-> ->]|[Hn2 H2]]; [done|].
      by apply (T7 m1 m2 pc1 pc2 g0).
    + intros m0 pc0 H0. apply Hwa in H0 as [[-> ->]|[Hne H0]]; [done|].
      by apply (T10 m0).
    + intros m0 pc0 mv0 p0 pv0 H0 Hp0 Hm0 HP0 Hpv0.
      apply Hlook in Hpv0 as [[-> Hq0]|[Hne Hpv0]].
      * rewrite Hq0. by destruct (RunQ pv).
      * apply Hwa in H0 as [[-> ->]|[Hnm H0]].
        -- apply Hma in Hm0 as [[_ ->]|[? _]]; [|done]. congruence.
        -- apply Hma in Hm0 as [[? _]|[_ Hm0]]; [done|].
           by apply (T11 m0 pc0 mv0 p0 pv0).
  - (* pop *)
    assert (Hg_in : g ∈ RunQ pv) by (rewrite Hq; left).
    assert (Hgq_w : queued g w) by (right; eauto).
    assert (Hnd : NoDup (g :: rest)) by (rewrite <- Hq; by eapply T2).
    apply NoDup_cons in Hnd as [Hg_rest Hnd].
    assert (Hlook : ∀ p0 pv0, ps w' !! p0 = Some pv0 →
              (p0 = p ∧ RunQ pv0 = rest) ∨ (p0 ≠ p ∧ ps w !! p0 = Some pv0)).
    { intros p0 pv0. rewrite Hps. destruct (decide (p = p0)) as [->|Hne].
      - rewrite lookup_insert_eq. intros; simplify_eq. by left.
      - rewrite lookup_insert_ne by done. by right. }
    assert (Hsub : ∀ p0 pv0 g0, ps w' !! p0 = Some pv0 → g0 ∈ RunQ pv0 →
              ∃ pv1, ps w !! p0 = Some pv1 ∧ g0 ∈ RunQ pv1 ∧
                     (p0 = p → g0 ≠ g)).
    { intros p0 pv0 g0 Hp0 Hin. apply Hlook in Hp0 as [[-> Hq0]|[Hne Hp0]].
      - exists pv. rewrite Hq0 in Hin. split; [done|]. split.
        + rewrite Hq. by right.
        + intros _ ->. done.
      - exists pv0. done. }
    assert (Hqd : ∀ g0, queued g0 w' → queued g0 w ∧ g0 ≠ g).
    { intros g0 [Hin|(p0 & pv0 & Hp0 & Hin)].
      - rewrite Hgq in Hin. split; [by left|]. intros ->.
        by apply (T4 p pv g Hp Hg_in).
      - destruct (Hsub p0 pv0 g0 Hp0 Hin) as (pv1 & Hp1 & Hin1 & Hne).
        split; [right; eauto|]. intros ->.
        apply Hne; [|done]. by apply (T3 p0 p pv1 pv g). }
    assert (Hgs_other : ∀ g0, g0 ≠ g → gs w' !! g0 = gs w !! g0).
    { intros g0 Hne. by rewrite Hgs, lookup_insert_ne. }
    split; rewrite ?Hgq; try done.
    + intros p0 pv0 Hp0. apply Hlook in Hp0 as [[-> Hq0]|[Hne Hp0]].
      * by rewrite Hq0.
      * by eapply T2.
    + intros p1 p2 pv1 pv2 g0 H1 H2 Hin1 Hin2.
      destruct (Hsub p1 pv1 g0 H1 Hin1) as (pv1' & H1' & Hin1' & _).
      destruct (Hsub p2 pv2 g0 H2 Hin2) as (pv2' & H2' & Hin2' & _).
      by apply (T3 p1 p2 pv1' pv2' g0).
    + intros p0 pv0 g0 Hp0 Hin.
      destruct (Hsub p0 pv0 g0 Hp0 Hin) as (pv1 & Hp1 & Hin1 & _).
      by apply (T4 p0 pv1 g0).
    + intros g0 Hq0. apply Hqd in Hq0 as [Hq0 Hne].
      destruct (T5 g0 Hq0) as (? & gv0 & ? & ?). split; [done|].
      exists gv0. by rewrite Hgs_other.
    + intros m0 pc0 g0 H0 Ht0. apply Hwa in H0 as [[-> ->]|[Hne H0]].
      * simpl in Ht0. simplify_eq.
        destruct (T5 g0 Hgq_w) as (HS & gv0 & Hgv0 & Hopen). simplify_eq.
        split; [done|]. split; [by intros [_ ?]%Hqd|].
        exists (set_Status "running" gv). rewrite Hgs, lookup_insert_eq.
        split; [done|]. split_and!; done.
      * destruct (T6 m0 pc0 g0 H0 Ht0) as (? & Hnq & gv0 & ? & ?).
        split; [done|]. split; [by intros [? _]%Hqd|].
        exists gv0. rewrite Hgs_other; [done|]. by intros ->.
    + intros m1 m2 pc1 pc2 g0 H1 H2 Ht1 Ht2.
      apply Hwa in H1 as [[-> ->]|[Hn1 H1]];
        apply Hwa in H2 as [[-> ->]|[Hn2 H2]]; try done.
      * simpl in Ht1. simplify_eq.
        by destruct (T6 m2 pc2 g0 H2 Ht2) as (_ & Hnq & _).
      * simpl in Ht2. simplify_eq.
        by destruct (T6 m1 pc1 g0 H1 Ht1) as (_ & Hnq & _).
      * by apply (T7 m1 m2 pc1 pc2 g0).
    + intros g0 gv0 Hg0 HnS. destruct (decide (g0 = g)) as [->|Hne].
      * by destruct (T5 g Hgq_w) as [? _].
      * rewrite Hgs_other in Hg0 by done. by apply (T8 g0).
    + intros g0 HS. rewrite Hgs. destruct (decide (g = g0)) as [->|Hne].
      * rewrite lookup_insert_eq. eauto.
      * rewrite lookup_insert_ne by done. by apply T9.
    + intros m0 pc0 H0. apply Hwa in H0 as [[-> ->]|[Hne H0]]; [done|].
      by apply (T10 m0).
    + intros m0 pc0 mv0 p0 pv0 H0 Hp0 Hm0 HP0 Hpv0.
      apply Hwa in H0 as [[-> ->]|[Hnm H0]]; [done|].
      apply Hma in Hm0 as [[? _]|[_ Hm0]]; [done|].
      apply Hlook in Hpv0 as [[-> _]|[Hne Hpv0]].
      * exfalso. apply Hnm.
        apply (Hapart m0 pc0 mv0 p); try done.
        by apply about_to_pop_bound.
      * by apply (T11 m0 pc0 mv0 p0 pv0).
  - (* inside g.Run() *)
    destruct (T6 m pc g Hpc_m Ht) as (HS & Hnq & gv0 & Hgv0 & Hfit0).
    simplify_eq.
    assert (Hq : ∀ g0, queued g0 w' ↔ queued g0 w)
      by (intros g0; by apply queued_same).
    assert (Hgs_other : ∀ g0, g0 ≠ g → gs w' !! g0 = gs w !! g0).
    { intros g0 Hne. by rewrite Hgs, lookup_insert_ne. }
    assert (Hpc'_run : in_handoff pc' = false ∧ about_to_pop pc' = false)
      by (by destruct pc').
    destruct Hpc'_run as [Hnh Hnp].
    split; rewrite ?Hps, ?Hgq; try done.
    + intros g0 Hq0. apply Hq in Hq0.
      destruct (T5 g0 Hq0) as (? & gv0 & ? & ?). split; [done|].
      exists gv0. rewrite Hgs_other; [done|]. by intros ->.
    + intros m0 pc0 g0 H0 Ht0. apply Hwa in H0 as [[-> ->]|[Hne H0]].
      * assert (g0 = g) as -> by congruence.
        split; [done|]. split; [by rewrite Hq|].
        exists gv'. rewrite Hgs, lookup_insert_eq. split; [done|].
        by apply Hfit.
      * destruct (T6 m0 pc0 g0 H0 Ht0) as (? & Hnq0 & gv0 & ? & ?).
        split; [done|]. split; [by rewrite Hq|].
        exists gv0. rewrite Hgs_other; [done|]. intros ->.
        apply Hne. by apply (T7 m0 m pc0 pc g).
    + intros m1 m2 pc1 pc2 g0 H1 H2 Ht1 Ht2.
      apply Hwa in H1 as [[-> ->]|[Hn1 H1]];
        apply Hwa in H2 as [[-> ->]|[Hn2 H2]]; try done.
      * assert (g0 = g) as -> by congruence.
        symmetry. by apply (T7 m2 m pc2 pc g).
      * assert (g0 = g) as -> by congruence.
        by apply (T7 m1 m pc1 pc g).
      * by apply (T7 m1 m2 pc1 pc2 g0).
    + intros g0 gv0 Hg0 HnS. destruct (decide (g0 = g)) as [->|Hne]; [done|].
      rewrite Hgs_other in Hg0 by done. by apply (T8 g0).
    + intros g0 HS0. rewrite Hgs. destruct (decide (g = g0)) as [->|Hne].
      * rewrite lookup_insert_eq. eauto.
      * rewrite lookup_insert_ne by done. by apply T9.
    + intros m0 pc0 H0. apply Hwa in H0 as [[-> ->]|[Hne H0]]; [done|].
      by apply (T10 m0).
    + intros m0 pc0 mv0 p0 pv0 H0 Hp0 Hm0 HP0 Hpv0.
      apply Hwa in H0 as [[-> ->]|[Hnm H0]]; [congruence|].
      apply Hma in Hm0 as [[? _]|[_ Hm0]]; [done|].
      by apply (T11 m0 pc0 mv0 p0 pv0).
  - (* the task is done when Run returns *)
    destruct (T6 m (AfterRun g) g Hpc_m eq_refl) as (_ & _ & gv0 & Hgv0 & Hfit).
    simplify_eq. destruct Hfit as (_ & _ & Hd). by destruct Hnd; eapply Hd.
  - (* nobody is in the handoff branch *)
    by rewrite (T10 m pc Hpc_m) in Hin.
Qed.

End TaskStep.

Lemma tasks_ok_frame S w w' :
  wpc w' = wpc w → (∀ m, (M_P <$> ms w' !! m) = (M_P <$> ms w !! m)) →
  ps w' = ps w → globalQ (sched w') = globalQ (sched w) → gs w' = gs w →
  tasks_ok S w → tasks_ok S w'.
Proof.
  intros Hw Hb Hps Hgq Hgs [T1 T2 T3 T4 T5 T6 T7 T8 T9 T10 T11].
  assert (Hq : ∀ g, queued g w' ↔ queued g w)
    by (intros g; by apply queued_same).
  split; rewrite ?Hw, ?Hps, ?Hgq, ?Hgs; try done.
  - intros g Hg. apply T5. by apply Hq.
  - intros m pc g Hpc Ht. destruct (T6 m pc g Hpc Ht) as (? & ? & ?).
    split; [done|]. split; [by rewrite Hq|done].
  - intros m pc mv p pv Hpc Hp Hm HP Hpv.
    specialize (Hb m). rewrite Hm in Hb. simpl in Hb.
    destruct (ms w !! m) as [mv0|] eqn:Hm0; [|done]. simpl in Hb.
    apply (T11 m pc mv0 p pv); try done. congruence.
Qed.

(** A change of a task that is neither a close of its channel nor a change
    of its state. *)
Lemma tasks_ok_touch S w w' g gv gv' :
  wpc w' = wpc w → ms w' = ms w →
  ps w' = ps w → globalQ (sched w') = globalQ (sched w) →
  gs w !! g = Some gv → gs w' = <[g := gv']> (gs w) →
  (chan_open gv → chan_open gv') →
  (is_Some (blockChan gv) → is_Some (blockChan gv')) →
  Status gv' = Status gv →
  tasks_ok S w → tasks_ok S w'.
Proof.
  intros Hw Hms Hps Hgq Hg Hgs Ho Hc Hst [T1 T2 T3 T4 T5 T6 T7 T8 T9 T10 T11].
  assert (Hq : ∀ g, queued g w' ↔ queued g w)
    by (intros g0; by apply queued_same).
  assert (Hlook : ∀ g0 gv0, gs w !! g0 = Some gv0 →
            ∃ gv1, gs w' !! g0 = Some gv1 ∧
                   (chan_open gv0 → chan_open gv1) ∧
                   ∀ pc, task_fits pc gv0 → task_fits pc gv1).
  { intros g0 gv0 Hg0. rewrite Hgs. destruct (decide (g = g0)) as [->|Hne].
    - rewrite lookup_insert_eq. simplify_eq. exists gv'. split; [done|].
      split; [done|]. intros pc (F1 & F2 & F3). split_and!; auto.
      intros g1 Hg1. rewrite Hst. by eapply F3.
    - rewrite lookup_insert_ne by done. eauto. }
  split; rewrite ?Hw, ?Hms, ?Hps, ?Hgq; try done.
  - intros g0 Hg0. apply Hq in Hg0.
    destruct (T5 g0 Hg0) as (? & gv0 & Hgv0 & ?). split; [done|].
    destruct (Hlook g0 gv0 Hgv0) as (gv1 & ? & ? & _). eauto.
  - intros m pc g0 Hpc Ht.
    destruct (T6 m pc g0 Hpc Ht) as (? & ? & gv0 & Hgv0 & ?).
    split; [done|]. split; [by rewrite Hq|].
    destruct (Hlook g0 gv0 Hgv0) as (gv1 & ? & _ & Hf). eauto.
  - intros g0 gv0 Hg0 HnS. rewrite Hgs in Hg0.
    destruct (decide (g = g0)) as [->|Hne].
    + rewrite lookup_insert_eq in Hg0. simplify_eq. apply Ho. by apply (T8 g0).
    + rewrite lookup_insert_ne in Hg0 by done. by apply (T8 g0).
  - intros g0 HS. destruct (T9 g0 HS) as [gv0 Hgv0].
    destruct (Hlook g0 gv0 Hgv0) as (gv1 & ? & _). eauto.
Qed.

Lemma tasks_ok_new S w w' g gv :
  wpc w' = wpc w → ms w' = ms w →
  ps w' = ps w → globalQ (sched w') = globalQ (sched w) →
  gs w !! g = None → gs w' = <[g := gv]> (gs w) → chan_open gv →
  tasks_ok S w → tasks_ok S w'.
Proof.
  intros Hw Hms Hps Hgq Hg Hgs Ho [T1 T2 T3 T4 T5 T6 T7 T8 T9 T10 T11].
  assert (Hq : ∀ g, queued g w' ↔ queued g w)
    by (intros g0; by apply queued_same).
  assert (Hlook : ∀ g0 gv0, gs w !! g0 = Some gv0 → gs w' !! g0 = Some gv0).
  { intros g0 gv0 Hg0. rewrite Hgs, lookup_insert_ne; [done|]. by intros ->;
      simplify_eq. }
  split; rewrite ?Hw, ?Hms, ?Hps, ?Hgq; try done.
  - intros g0 Hg0. apply Hq in Hg0.
    destruct (T5 g0 Hg0) as (? & gv0 & Hgv0 & ?). split; [done|]. eauto.
  - intros m pc g0 Hpc Ht.
    destruct (T6 m pc g0 Hpc Ht) as (? & ? & gv0 & Hgv0 & ?).
    split; [done|]. split; [by rewrite Hq|]. eauto.
  - intros g0 gv0 Hg0 HnS. rewrite Hgs in Hg0.
    destruct (decide (g = g0)) as [->|Hne].
    + rewrite lookup_insert_eq in Hg0. by simplify_eq.
    + rewrite lookup_insert_ne in Hg0 by done. by apply (T8 g0).
  - intros g0 HS. destruct (T9 g0 HS) as [gv0 Hgv0]. eauto.
Qed.

Lemma tasks_ok_Enqueue_local S w w' p pv g gv n :
  wpc w' = wpc w → ms w' = ms w →
  globalQ (sched w') = globalQ (sched w) →
  ps w !! p = Some pv →
  ps w' = <[p := set_queue (RunQ pv ++ [g]) n pv]> (ps w) →
  gs w !! g = Some gv →
  gs w' = <[g := set_Status "runnable" gv]> (gs w) →
  g ∉ S → tasks_ok S w → tasks_ok (g :: S) w'.
Proof.
  intros Hw Hms Hgq Hp Hps Hg Hgs HnS [T1 T2 T3 T4 T5 T6 T7 T8 T9 T10 T11].
  assert (Hnq : ¬ queued g w) by (intros Hq; by destruct (T5 g Hq)).
  assert (Hlook : ∀ p0 pv0, ps w' !! p0 = Some pv0 →
            (p0 = p ∧ RunQ pv0 = RunQ pv ++ [g]) ∨
            (p0 ≠ p ∧ ps w !! p0 = Some pv0)).
  { intros p0 pv0. rewrite Hps. destruct (decide (p = p0)) as [->|Hne].
    - rewrite lookup_insert_eq. intros; simplify_eq. by left.
    - rewrite lookup_insert_ne by done. by right. }
  assert (Hin : ∀ p0 pv0 g0, ps w' !! p0 = Some pv0 → g0 ∈ RunQ pv0 →
            (p0 = p ∧ g0 = g) ∨
            (g0 ≠ g ∧ ∃ pv1, ps w !! p0 = Some pv1 ∧ g0 ∈ RunQ pv1)).
  { intros p0 pv0 g0 Hp0 Hg0. apply Hlook in Hp0 as [[-> Hq0]|[Hne Hp0]].
    - rewrite Hq0 in Hg0. apply elem_of_app in Hg0 as [Hg0|Hg0].
      + right. split; [|eauto]. intros ->. apply Hnq. right. eauto.
      + apply list_elem_of_singleton in Hg0. by left.
    - right. split; [|eauto]. intros ->. apply Hnq. right. eauto. }
  assert (Hq : ∀ g0, queued g0 w' → g0 = g ∨ (g0 ≠ g ∧ queued g0 w)).
  { intros g0 [Hg0|(p0 & pv0 & Hp0 & Hg0)].
    - right. rewrite Hgq in Hg0. split; [|by left]. intros ->.
      apply Hnq. by left.
    - destruct (Hin p0 pv0 g0 Hp0 Hg0) as [[_ ->]|[Hne (pv1 & ? & ?)]];
        [by left|]. right. split; [done|]. right. eauto. }
  assert (Hgs_other : ∀ g0, g0 ≠ g → gs w' !! g0 = gs w !! g0).
  { intros g0 Hne. by rewrite Hgs, lookup_insert_ne. }
  split; rewrite ?Hw, ?Hms, ?Hgq; try done.
  - intros p0 pv0 Hp0. apply Hlook in Hp0 as [[-> Hq0]|[Hne Hp0]].
    + rewrite Hq0. apply NoDup_app. split; [by eapply T2|].
      split; [|apply NoDup_singleton].
      intros x Hx Hx'. apply list_elem_of_singleton in Hx' as ->.
      apply Hnq. right. eauto.
    + by eapply T2.
  - intros p1 p2 pv1 pv2 g0 H1 H2 Hg1 Hg2.
    destruct (Hin p1 pv1 g0 H1 Hg1) as [[E1 E1']|[Hne1 (pv1' & ? & ?)]];
      destruct (Hin p2 pv2 g0 H2 Hg2) as [[E2 E2']|[Hne2 (pv2' & ? & ?)]];
      try congruence.
    by apply (T3 p1 p2 pv1' pv2' g0).
  - intros p0 pv0 g0 Hp0 Hg0.
    destruct (Hin p0 pv0 g0 Hp0 Hg0) as [[-> ->]|[Hne (pv1 & ? & ?)]].
    + intros Hg'. apply Hnq. by left.
    + by apply (T4 p0 pv1 g0).
  - intros g0 Hg0. apply Hq in Hg0 as [->|[Hne Hg0]].
    + split; [by left|]. exists (set_Status "runnable" gv).
      rewrite Hgs, lookup_insert_eq. split; [done|].
      by apply (T8 g gv).
    + destruct (T5 g0 Hg0) as (? & gv0 & ? & ?). split; [by right|].
      exists gv0. by rewrite Hgs_other.
  - intros m pc g0 Hpc Ht.
    destruct (T6 m pc g0 Hpc Ht) as (HS0 & Hnq0 & gv0 & Hgv0 & ?).
    assert (g0 ≠ g) by (by intros ->).
    split; [by right|]. split.
    + intros Hq0. apply Hq in Hq0 as [?|[_ ?]]; done.
    + exists gv0. by rewrite Hgs_other.
  - intros g0 gv0 Hg0 HnS0. apply not_elem_of_cons in HnS0 as [Hne HnS0].
    rewrite Hgs_other in Hg0 by done. by apply (T8 g0).
  - intros g0 HS0. rewrite Hgs. destruct (decide (g = g0)) as [->|Hne].
    + rewrite lookup_insert_eq. eauto.
    + rewrite lookup_insert_ne by done.
      apply elem_of_cons in HS0 as [?|HS0]; [done|]. by apply T9.
  - intros m pc mv p0 pv0 Hpc Hp0 Hm HP Hpv0.
    apply Hlook in Hpv0 as [[-> Hq0]|[Hne Hpv0]].
    + rewrite Hq0. by destruct (RunQ pv).
    + by apply (T11 m pc mv p0 pv0).
Qed.

Lemma tasks_ok_Enqueue_global S w w' g gv :
  wpc w' = wpc w → ms w' = ms w → ps w' = ps w → gs w' = gs w →
  globalQ (sched w') = globalQ (sched w) ++ [g] →
  gs w !! g = Some gv →
  g ∉ S → tasks_ok S w → tasks_ok (g :: S) w'.
Proof.
  intros Hw Hms Hps Hgs Hgq Hg HnS [T1 T2 T3 T4 T5 T6 T7 T8 T9 T10 T11].
  assert (Hnq : ¬ queued g w) by (intros Hq; by destruct (T5 g Hq)).
  assert (Hq : ∀ g0, queued g0 w' → g0 = g ∨ (g0 ≠ g ∧ queued g0 w)).
  { intros g0 [Hg0|(p0 & pv0 & Hp0 & Hg0)].
    - rewrite Hgq in Hg0. apply elem_of_app in Hg0 as [Hg0|Hg0].
      + right. split; [|by left]. intros ->. apply Hnq. by left.
      + apply list_elem_of_singleton in Hg0. by left.
    - rewrite Hps in Hp0. right. split; [|right; eauto].
      intros ->. apply Hnq. right. eauto. }
  split; rewrite ?Hw, ?Hms, ?Hps, ?Hgs, ?Hgq; try done.
  - apply NoDup_app. split; [done|]. split; [|apply NoDup_singleton].
    intros x Hx Hx'. apply list_elem_of_singleton in Hx' as ->.
    apply Hnq. by left.
  - intros p pv g0 Hp Hg0 Hin. apply elem_of_app in Hin as [Hin|Hin].
    + by apply (T4 p pv g0).
    + apply list_elem_of_singleton in Hin as ->. apply Hnq. right. eauto.
  - intros g0 Hg0. apply Hq in Hg0 as [->|[Hne Hg0]].
    + split; [by left|]. exists gv. split; [done|]. by apply (T8 g gv).
    + destruct (T5 g0 Hg0) as (? & ?). split; [by right|done].
  - intros m pc g0 Hpc Ht.
    destruct (T6 m pc g0 Hpc Ht) as (HS0 & Hnq0 & ?).
    split; [by right|]. split; [|done].
    intros Hq0. apply Hq in Hq0 as [->|[_ ?]]; done.
  - intros g0 gv0 Hg0 HnS0. apply not_elem_of_cons in HnS0 as [Hne HnS0].
    by apply (T8 g0).
  - intros g0 HS0. apply elem_of_cons in HS0 as [->|HS0]; [eauto|].
    by apply T9.
Qed.

Lemma is_Some_insert {A} (mp : gmap nat A) k k' v :
  is_Some (mp !! k) → is_Some (<[k' := v]> mp !! k).
Proof.
  intros H. destruct (decide (k' = k)) as [->|Hne].
  - rewrite lookup_insert_eq. eauto.
  - by rewrite lookup_insert_ne.
Qed.

Lemma ps_kept a w w' p :
  act a w = Ok w' → is_Some (ps w !! p) → is_Some (ps w' !! p).
Proof.
  intros H Hp. destruct a; unfold_act H.
  all: step_inv; simpl; try done.
  all: by apply is_Some_insert.
Qed.

Lemma Ps_exist_frame w w' :
  wpc w' = wpc w → (∀ m, bind_of m w' = bind_of m w) → pool w' = pool w →
  (∀ p, is_Some (ps w !! p) → is_Some (ps w' !! p)) →
  Ps_exist w → Ps_exist w'.
Proof.
  intros Hw Hb Hp Hkeep (Hpool & Hbind & Hhold).
  assert (Hh : ∀ m, hold_of m w' = hold_of m w).
  { intros m. unfold hold_of. by rewrite Hw, Hb. }
  split_and!.
  - intros p. rewrite Hp. intros. by apply Hkeep, Hpool.
  - intros m p. rewrite Hb. intros. by eapply Hkeep, Hbind.
  - intros m p. rewrite Hh. intros. by eapply Hkeep, Hhold.
Qed.

Lemma Ps_exist_act a w w' :
  act a w = Ok w' → is_setup a = false → Ps_exist w → Ps_exist w'.
Proof.
  intros H Hs Hinv.
  assert (Hkeep : ∀ p, is_Some (ps w !! p) → is_Some (ps w' !! p)).
  { intros p. by apply (ps_kept a). }
  destruct a; try done.
  - simpl in H. destruct Hinv as (Hpool & Hbind & Hhold).
    destruct (step_worker_own m w w' H)
      as (pc & mv & pc' & mv' & Hpc & Hm & Hw & Hms & HPs & Hown).
    assert (Hb : ∀ m0 p, bind_of m0 w' = Some (Some p) →
              (m0 = m ∧ M_P mv' = Some p) ∨
              (m0 ≠ m ∧ bind_of m0 w = Some (Some p))).
    { intros m0 p. unfold bind_of. rewrite Hms.
      destruct (decide (m = m0)) as [->|Hne].
      - rewrite lookup_insert_eq. simpl. intros; simplify_eq. by left.
      - rewrite lookup_insert_ne by done. by right. }
    assert (Hh : ∀ m0 p, hold_of m0 w' = Some p →
              (m0 = m ∧ owned pc' (M_P mv') = Some p) ∨
              (m0 ≠ m ∧ hold_of m0 w = Some p)).
    { intros m0 p. unfold hold_of, bind_of. rewrite Hw, Hms.
      destruct (decide (m = m0)) as [->|Hne].
      - rewrite !lookup_insert_eq. simpl. by left.
      - rewrite !lookup_insert_ne by done. by right. }
    assert (Hself : bind_of m w = Some (M_P mv))
      by (unfold bind_of; by rewrite Hm).
    assert (Hpre : hold_of m w = owned pc (M_P mv))
      by (unfold hold_of, bind_of; by rewrite Hpc, Hm).
    destruct (own_step_inv _ _ _ _ _ _ Hown)
      as [(Hb' & Hpl & Ho & _)
         |[(Hb' & Hpl & _ & Hp1)
          |[(Hb' & Hpl & Ho & _)
           |[(_ & Hb' & Hpl & _)
            |(Hb' & Hpl & Ho & _)]]]].
    + split_and!.
      * intros p. rewrite Hpl. intros Hin. apply Hkeep. by apply Hpool.
      * intros m0 p Hm0. apply Hkeep.
        apply Hb in Hm0 as [[-> HP]|[_ Hm0]]; [|by eapply Hbind].
        apply (Hbind m). rewrite Hself. congruence.
      * intros m0 p Hm0. apply Hkeep.
        apply Hh in Hm0 as [[-> HP]|[_ Hm0]]; [|by eapply Hhold].
        apply (Hhold m). congruence.
    + split_and!.
      * intros p. rewrite Hpl. intros Hin. apply Hkeep.
        apply elem_of_app in Hin as [Hin|Hin]; [by apply Hpool|].
        apply list_elem_of_singleton in Hin.
        apply (Hbind m). rewrite Hself. congruence.
      * intros m0 p Hm0. apply Hkeep.
        apply Hb in Hm0 as [[-> HP]|[_ Hm0]]; [|by eapply Hbind].
        apply (Hbind m). rewrite Hself. congruence.
      * intros m0 p Hm0. apply Hkeep.
        apply Hh in Hm0 as [[-> HP]|[_ Hm0]]; [|by eapply Hhold].
        rewrite owned_published in HP by done. done.
    + split_and!.
      * intros p. rewrite Hpl. intros Hin. apply Hkeep. by apply Hpool.
      * intros m0 p Hm0. apply Hkeep.
        apply Hb in Hm0 as [[-> HP]|[_ Hm0]]; [congruence|by eapply Hbind].
      * intros m0 p Hm0. apply Hkeep.
        apply Hh in Hm0 as [[-> HP]|[_ Hm0]]; [|by eapply Hhold].
        apply (Hhold m). congruence.
    + split_and!.
      * intros p Hin. apply Hkeep. apply Hpool. rewrite Hpl. by right.
      * intros m0 p Hm0. apply Hkeep.
        apply Hb in Hm0 as [[-> HP]|[_ Hm0]]; [|by eapply Hbind].
        apply (Hbind m). rewrite Hself. congruence.
      * intros m0 p Hm0. apply Hkeep.
        apply Hh in Hm0 as [[-> HP]|[_ Hm0]]; [|by eapply Hhold].
        apply Hpool. rewrite Hpl, HP. by left.
    + split_and!.
      * intros p. rewrite Hpl. intros Hin. apply Hkeep. by apply Hpool.
      * intros m0 p Hm0. apply Hkeep.
        apply Hb in Hm0 as [[-> HP]|[_ Hm0]]; [|by eapply Hbind].
        apply (Hhold m). congruence.
      * intros m0 p Hm0. apply Hkeep.
        apply Hh in Hm0 as [[-> HP]|[_ Hm0]]; [|by eapply Hhold].
        apply (Hhold m). congruence.
  - unfold_act H. step_inv; (eapply Ps_exist_frame; [..|exact Hinv]); done.
  - unfold_act H. step_inv; (eapply Ps_exist_frame; [..|exact Hinv]); done.
  - unfold_act H. step_inv; (eapply Ps_exist_frame; [..|exact Hinv]); done.
  - unfold_act H. step_inv; (eapply Ps_exist_frame; [..|exact Hinv]); done.
  - unfold_act H. step_inv; (eapply Ps_exist_frame; [..|exact Hinv]); done.
  - unfold_act H. step_inv. eapply Ps_exist_frame; [..|exact Hinv]; try done.
    intros m0. unfold bind_of. simpl.
    by eapply (bind_of_insert_same w).
Qed.

Lemma tasks_ok_act S a w w' :
  act a w = Ok w' → is_setup a = false →
  (∀ p g, a = ActEnqueue p g → g ∉ S) →
  one_owner w → queue_len_ok w →
  tasks_ok S w → tasks_ok (submitted [a] ++ S) w'.
Proof.
  intros H Hs Hfresh Hown Hlen Hok. destruct a; try done; simpl.
  - simpl in H.
    destruct (step_worker_tasks m w w' H)
      as (pc & mv & pc' & mv' & Hpc & Hm & Hw & Hms & Hstep).
    by eapply (tasks_ok_step S m w w' pc pc' mv mv').
  - unfold_act H. step_inv.
    + eapply tasks_ok_touch; [..|exact Hok]; simpl; try done.
      intros Ho c' Hc'. simpl in Hc'. simplify_eq. simpl. by apply Ho.
    + by eapply tasks_ok_frame; [..|exact Hok].
  - unfold_act H. step_inv. by eapply tasks_ok_frame; [..|exact Hok].
  - unfold_act H. step_inv.
    eapply (tasks_ok_new S w _ (fresh (dom (gs w)))); [..|exact Hok];
      simpl; try done.
    + apply not_elem_of_dom, is_fresh.
    + intros c Hc. simpl in Hc. destruct block; by simplify_eq.
  - specialize (Hfresh p g eq_refl). unfold_act H. step_inv.
    + eapply tasks_ok_Enqueue_global; [..|exact Hok]; simpl; try done.
    + eapply tasks_ok_Enqueue_local; [..|exact Hok]; simpl; try done.
  - unfold_act H. step_inv. by eapply tasks_ok_frame; [..|exact Hok].
  - unfold_act H. step_inv. eapply tasks_ok_frame; [..|exact Hok]; try done.
    intros m0. simpl. by eapply (bind_of_insert_same w).
Qed.

Lemma queue_len_from_tasks S w :
  tasks_ok S w → Z.of_nat (length S) < int_max → queue_len_bounded w.
Proof.
  intros [T1 T2 T3 T4 T5 T6 T7 T8 T9 T10 T11] Hlen p pv Hp. simpl.
  assert (length (RunQ pv) ≤ length S)%nat; [|lia].
  apply submseteq_length, NoDup_submseteq; [by eapply T2|].
  intros g Hg. apply (T5 g). right. eauto.
Qed.

Lemma sound_act S a w w' :
  act a w = Ok w' → is_setup a = false →
  (∀ p g, a = ActEnqueue p g → g ∉ S) →
  Z.of_nat (length S) < int_max →
  sound S w → sound (submitted [a] ++ S) w'.
Proof.
  intros H Hs Hfresh Hlen (Hwk & Hmu & Hown & Hq & Hwg & Hps & Hok).
  split_and!.
  - by eapply workers_ok_act.
  - by eapply mutex_ok_act.
  - by eapply one_owner_act.
  - eapply queue_len_act; [done|done|]. by eapply queue_len_from_tasks.
  - by eapply wg_ok_act.
  - by eapply Ps_exist_act.
  - by eapply tasks_ok_act.
Qed.

Lemma submitted_cons a acts :
  submitted (a :: acts) = submitted [a] ++ submitted acts.
Proof. unfold submitted. simpl. by destruct a. Qed.

Lemma submitted_length a : (length (submitted [a]) ≤ 1)%nat.
Proof. destruct a; simpl; lia. Qed.

Lemma sound_exec acts : ∀ S w w',
  Forall (λ a, is_setup a = false) acts →
  NoDup (submitted acts) → (∀ g, g ∈ submitted acts → g ∉ S) →
  Z.of_nat (length S + length acts) < int_max →
  exec acts w = Some w' → sound S w →
  ∃ S', sound S' w'.
Proof.
  induction acts as [|a acts IH]; intros S w w' Hf Hnd Hnew Hlen He Hinv;
    simpl in He.
  { simplify_eq. eauto. }
  apply Forall_cons in Hf as [Ha Hf].
  rewrite submitted_cons in Hnd, Hnew.
  apply NoDup_app in Hnd as (Hnd1 & Hdisj & Hnd2).
  unfold sys_step in He. destruct (crashed w); [done|].
  destruct (act a w) as [w1| |msg] eqn:E; [|done|].
  - apply (IH (submitted [a] ++ S) w1 w'); try done.
    + intros g Hg Hin. apply elem_of_app in Hin as [Hin|Hin].
      * by apply (Hdisj g).
      * apply (Hnew g); [|done]. apply elem_of_app. by right.
    + pose proof (submitted_length a). rewrite length_app. simpl in Hlen. lia.
    + apply (sound_act S a w w1); try done.
      * intros p g ->. apply Hnew. simpl. by left.
      * simpl in Hlen. lia.
  - apply (IH S (with_crashed (Some msg) w) w'); try done.
    + intros g Hg. apply Hnew. apply elem_of_app. by right.
    + simpl in Hlen. lia.
    + destruct Hinv as (Hwk & Hmu & Hown & Hq & Hwg & Hps & Hok).
      split_and!; try done. by destruct Hok.
Qed.

(** ** No panic but that of a work routine *)

Lemma sound_bound S w m pc mv :
  sound S w → wpc w !! m = Some pc → ms w !! m = Some mv →
  bound_pc pc = true →
  ∃ p pv, M_P mv = Some p ∧ ps w !! p = Some pv.
Proof.
  intros (_ & _ & Hown & _ & _ & (_ & Hbind & _) & _) Hpc Hm Hb.
  destruct Hown as (_ & _ & _ & Hok & _).
  assert (Hbo : bind_of m w = Some (M_P mv)) by (unfold bind_of; by rewrite Hm).
  destruct (pc_ok_bound pc (M_P mv) Hb (Hok m pc (M_P mv) Hpc Hbo)) as [p HP].
  destruct (Hbind m p) as [pv Hp]; [by rewrite Hbo, HP|]. eauto.
Qed.

Lemma running_nonempty w m pc :
  wg_ok w → wpc w !! m = Some pc → pc ≠ Exited → 1 ≤ wg (sched w).
Proof.
  intros Hwg Hpc Hne. rewrite Hwg.
  assert (Hr : running w !! m = Some pc)
    by (apply map_lookup_filter_Some; split; [done|exact Hne]).
  destruct (decide (size (running w) = 0%nat)) as [Hz|Hz]; [|lia].
  apply map_size_empty_iff in Hz. rewrite Hz in Hr. by rewrite lookup_empty in Hr.
Qed.

Lemma critical_holds_mutex w m pc :
  mutex_ok w → wpc w !! m = Some pc → in_critical pc = true →
  mu (sched w) = true.
Proof. intros [_ Hmu] Hpc Hc. apply Hmu. eauto. Qed.

Lemma sound_no_panic S w m msg :
  sound S w → step_worker m w = Panic msg →
  ∃ g gv, wpc w !! m = Some (InRun g RFunc) ∧
          gs w !! g = Some gv ∧ Func gv = FPanic msg.
Proof.
  intros Hs H.
  pose proof Hs as (Hwk & Hmu & Hown & Hq & Hwg & (Hpool & Hbind & Hhold) & Hok).
  destruct (wpc w !! m) as [pc|] eqn:Hpc;
    [|by unfold step_worker in H; rewrite Hpc in H].
  destruct (Hwk m) as [mv Hm]; [by rewrite Hpc|].
  rewrite (step_worker_at m w pc mv Hpc Hm) in H.
  pose proof (sound_bound S w m pc mv Hs Hpc Hm) as Hb.
  pose proof (critical_holds_mutex w m pc Hmu Hpc) as Hheld.
  destruct Hok as [T1 T2 T3 T4 T5 T6 T7 T8 T9 T10 T11].
  destruct pc; simpl in Hb, Hheld.
  - (* the deferred s.wg.Done() *)
    pose proof (running_nonempty w m LoopSelect Hwg Hpc) as Hge.
    destruct (closed (stop mv)); [|done].
    destruct (wg (sched w) - 1 <? 0) eqn:Hlt; [|done].
    apply Z.ltb_lt in Hlt. specialize (Hge ltac:(done)). lia.
  - repeat case_match; done.
  - by destruct (availPs_tryrecv w) as [[b w1]|].
  - (* m.P = p after the receive from the pool *)
    destruct Hown as (_ & _ & _ & Hpcok & _).
    assert (Hbo : bind_of m w = Some (M_P mv))
      by (unfold bind_of; by rewrite Hm).
    pose proof (Hpcok m (GrabBind v) (M_P mv) Hpc Hbo) as Hv.
    unfold pc_ok in Hv. simpl in Hv.
    apply andb_true_iff in Hv as [_ Hv]. apply bool_decide_eq_true_1 in Hv.
    destruct Hv as [p ->].
    destruct (Hhold m p) as [pv Hp].
    { unfold hold_of. by rewrite Hpc, Hbo. }
    unfold P_of in H. simpl in H. rewrite Hp in H. done.
  - destruct (Hb eq_refl) as (p & pv & HP & Hp).
    unfold P_of in H. rewrite HP in H. simpl in H. rewrite Hp in H. simpl in H.
    by destruct (NumG pv =? 0).
  - unfold Lock in H. by destruct (mu (sched w)).
  - (* the steal *)
    destruct (globalQ (sched w)) as [|g rest] eqn:HQ; [done|].
    destruct (Hb eq_refl) as (p & pv & HP & Hp).
    rewrite HP in H. simpl in H. rewrite Hp in H. simpl in H.
    destruct (T5 g) as (_ & gv & Hg & _);
      [left; rewrite HQ; apply list_elem_of_here|].
    rewrite Hg in H. done.
  - unfold Unlock in H. rewrite (Hheld eq_refl) in H. done.
  - unfold Unlock in H. rewrite (Hheld eq_refl) in H.
    destruct (Hb eq_refl) as (p & pv & HP & Hp).
    unfold P_of in H. simpl in H. rewrite HP in H. simpl in H.
    rewrite Hp in H. done.
  - unfold availPs_send in H. repeat case_match; done.
  - done.
  - done.
  - (* m.P.RunQ[0] *)
    destruct (Hb eq_refl) as (p & pv & HP & Hp).
    rewrite HP in H. simpl in H. rewrite Hp in H. simpl in H.
    pose proof (T11 m Pop mv p pv Hpc eq_refl Hm HP Hp) as Hne.
    destruct (RunQ pv) as [|g rest] eqn:HQ; [done|].
    destruct (T5 g) as (_ & gv & Hg & _);
      [right; exists p, pv; split; [done|rewrite HQ; apply list_elem_of_here]|].
    rewrite Hg in H. done.
  - (* g.Run() *)
    destruct (T6 m (InRun g r) g Hpc eq_refl) as (_ & _ & gv & Hg & Hopen & Hch & _).
    unfold Run_step in H. rewrite Hg in H. simpl in H.
    destruct r; simpl in *.
    + destruct (Func gv) as [|msg'] eqn:HF.
      * repeat case_match; done.
      * injection H as ->. eauto.
    + repeat case_match; done.
    + destruct (Hch eq_refl) as [c Hc]. rewrite Hc in H.
      rewrite (Hopen eq_refl c Hc) in H. done.
    + done.
  - destruct (T6 m (AfterRun g) g Hpc eq_refl) as (_ & _ & gv & Hg & _).
    destruct (Hb eq_refl) as (p & pv & HP & Hp).
    rewrite Hg in H. unfold P_of in H. simpl in H. rewrite HP in H. simpl in H.
    rewrite Hp in H. simpl in H. by destruct (String.eqb _ _).
  - unfold availPs_send in H. repeat case_match; done.
  - done.
  - done.
  - done.
  - by destruct (_ <=? _).
  - done.
Qed.

(** [sound] for a state in which the workers stand at the head of their
    loop and no task is queued, from checks that enumerate the maps. *)
Lemma sound_idle w :
  one_owner w → wg_ok w →
  mu (sched w) = false → globalQ (sched w) = [] →
  Forall (λ b, ∀ p, b = Some p → is_Some (ps w !! p)) (pool w) →
  map_Forall (λ _ mv, ∀ p, M_P mv = Some p → is_Some (ps w !! p)) (ms w) →
  map_Forall (λ _ pv, RunQ pv = [] ∧ NumG pv = 0) (ps w) →
  map_Forall (λ _ gv, chan_open gv) (gs w) →
  map_Forall (λ m pc, pc = LoopSelect ∧ is_Some (ms w !! m)) (wpc w) →
  sound [] w.
Proof.
  intros Hown Hwg Hmu HQ Hpool Hms Hps Hgs Hwpc.
  assert (Hno : ∀ g, ¬ queued g w).
  { intros g [Hg|(p & pv & Hp & Hg)].
    - rewrite HQ in Hg. by apply elem_of_nil in Hg.
    - destruct (Hps p pv Hp) as [Hq _]. rewrite Hq in Hg.
      by apply elem_of_nil in Hg. }
  split_and!; try done.
  - intros m [pc Hpc]. by destruct (Hwpc m pc Hpc).
  - split.
    + intros m1 m2 pc1 pc2 H1 _ Hc. by destruct (Hwpc m1 pc1 H1) as [-> _].
    + split; [by rewrite Hmu|].
      intros (m & pc & Hpc & Hc). by destruct (Hwpc m pc Hpc) as [-> _].
  - intros p pv Hp. destruct (Hps p pv Hp) as [-> ->]. done.
  - assert (Hbind : ∀ m p, bind_of m w = Some (Some p) → is_Some (ps w !! p)).
    { intros m p Hb. unfold bind_of in Hb.
      destruct (ms w !! m) as [mv|] eqn:Hm; [|done]. simpl in Hb.
      eapply (Hms m mv Hm). congruence. }
    split_and!; [|done|].
    + intros p Hp. by eapply (proj1 (Forall_forall _ _) Hpool).
    + intros m p Hh. apply (Hbind m). unfold hold_of in Hh.
      destruct (wpc w !! m) as [pc|] eqn:Hpc; [|done].
      destruct (Hwpc m pc Hpc) as [-> _].
      destruct (bind_of m w) as [b|]; [|done]. simpl in Hh. by rewrite Hh.
  - split.
    + rewrite HQ. constructor.
    + intros p pv Hp. destruct (Hps p pv Hp) as [-> _]. constructor.
    + intros p1 p2 pv1 pv2 g Hp1 _ Hg _. destruct (Hno g). right. eauto.
    + intros p pv g Hp Hg. destruct (Hno g). right. eauto.
    + intros g Hg. by destruct (Hno g).
    + intros m pc g Hpc Hg. by destruct (Hwpc m pc Hpc) as [-> _].
    + intros m1 m2 pc1 pc2 g H1 _ Hg. by destruct (Hwpc m1 pc1 H1) as [-> _].
    + intros g gv Hg _. by apply (Hgs g gv).
    + intros g Hg. by apply elem_of_nil in Hg.
    + intros m pc Hpc. by destruct (Hwpc m pc Hpc) as [-> _].
    + intros m pc mv p pv Hpc Hc. by destruct (Hwpc m pc Hpc) as [-> _].
Qed.

Ltac concrete_sound :=
  apply sound_idle;
  [ concrete_one_owner
  | vm_compute; reflexivity
  | vm_compute; reflexivity
  | vm_compute; reflexivity
  | vm_compute; repeat first [apply Forall_nil_2 | apply Forall_cons_2]
  | enum_map;
    (let H := fresh in intros ? H; vm_compute in H; simplify_eq; vm_compute; eauto)
  | enum_map; vm_compute; done
  | enum_map
  | enum_map; vm_compute; eauto ].




